(** * The reverse lookup resolver of [internal/graph/lookup.go]

    A shallow embedding of the concurrent lookup handler and of its four
    combinators, with the properties of the specification proved (or
    refuted) on it.

    Conventions of the embedding.
    - Go's [int] and [uint] are 64 bits wide; integers are modelled in [Z].
    - [error] is a nilable interface: a value of type [option error],
      [None] being [nil].
    - A function that returns [(value, err)] is modelled as returning the
      pair, so that a variable [err] can be read later, exactly as the
      source does.
    - The collaborators (dispatcher, datastore, namespace manager) are
      interfaces whose implementations live outside this file; they are
      section variables.  Calls to them are recorded in an event trace.
    - A [ReduceableLookupFunc] is a deferred computation that sends one
      [LookupResult] on a channel.  It is modelled as a computation in the
      monad [M] below; goroutines started by a combinator are run in the
      order of the request list, and the order in which their results are
      received, where the source leaves it to the scheduler (shared
      channels of [LookupAll] and [LookupExclude]), is an explicit
      parameter [arrival].  Every goroutine runs until it sends, also
      when the combinator returns before reading its channel; what a
      request sends after its first value is never received.
    - The subtractions of the source do not wrap where they occur:
      [req.Limit - objSet.Length()] is computed when
      [0 <= objSet.Length() < req.Limit]; the integer type of
      [DepthRemaining] is declared outside this file, and its decrement is
      taken in [Z].
    - The context is never cancelled (the [ctx.Done()] branches are not
      taken) and the debug tracer, a write-only diagnostic sink, is left
      out. *)

From Stdlib Require Import String List ZArith Bool Lia Permutation.
Import ListNotations.
Open Scope string_scope.
Open Scope list_scope.
Open Scope Z_scope.

Set Implicit Arguments.

(* ================================================================== *)
(** * Data model *)
(* ================================================================== *)

(** [v0.ObjectAndRelation] *)
Record ObjectAndRelation : Type := mkONR {
  Namespace : string;
  ObjectId : string;
  Relation : string
}.

(** [v0.RelationReference] *)
Record RelationReference : Type := mkRef {
  RefNamespace : string;
  RefRelation : string
}.

(** [v0.RelationTuple]: the object side and the subject ([User]) side. *)
Record RelationTuple : Type := mkTuple {
  ObjectAndRelationOf : ObjectAndRelation;
  User : ObjectAndRelation
}.

(** The revision is an opaque snapshot token. *)
Definition Revision := Z.

(** Errors: the ones this file creates, and the ones of the collaborators. *)
Inductive error : Type :=
| ErrRelationNotFound (relation namespace : string)
| ErrUnknownRewriteKind (namespace relation : string)
| ErrUnknownSetOperationChild
| ErrUnexpectedNamespace
| ErrInvalidNamespace (resolved : ObjectAndRelation) (namespace : string)
| ErrRequestCanceled
| ErrMaxDepth
| ErrExternal (msg : string).

Definition Ellipsis : string := "...".

Definition ONR_eqb (a b : ObjectAndRelation) : bool :=
  String.eqb (Namespace a) (Namespace b) &&
  String.eqb (ObjectId a) (ObjectId b) &&
  String.eqb (Relation a) (Relation b).

(* ------------------------------------------------------------------ *)
(** ** ONRSet ([pkg/tuple], outside this file) *)

(** Modelled from the spec: [tuple.ONRSet] and its methods ([Add],
    [Update], [Has], [Length], [AsSlice], [Intersect], [Subtract]) belong
    to package [pkg/tuple], not to lookup.go.  The specification describes
    a set of ONRs with structural equality on the three fields, an [add]
    that tells whether the element is new, and iteration in insertion
    order; it is modelled as a duplicate-free list in insertion order. *)
Definition ONRSet := list ObjectAndRelation.

Definition NewONRSet : ONRSet := [].

Definition Has (s : ONRSet) (onr : ObjectAndRelation) : bool :=
  existsb (ONR_eqb onr) s.

Definition Add (s : ONRSet) (onr : ObjectAndRelation) : ONRSet * bool :=
  if Has s onr then (s, false) else (s ++ [onr], true).

Definition Update (s : ONRSet) (onrs : list ObjectAndRelation) : ONRSet :=
  fold_left (fun acc onr => fst (Add acc onr)) onrs s.

Definition Length (s : ONRSet) : Z := Z.of_nat (length s).

Definition AsSlice (s : ONRSet) : list ObjectAndRelation := s.

Definition Intersect (s other : ONRSet) : ONRSet :=
  filter (fun onr => Has other onr) s.

Definition Subtract (s other : ONRSet) : ONRSet :=
  filter (fun onr => negb (Has other onr)) s.

(** Modelled from the spec: the type of [DirectStack] and [TTUStack],
    with its methods [With] and [Has], is declared outside lookup.go.  The
    specification describes an immutable set of relation references;
    [with] returns an extended copy and lookup compares namespace and
    relation only, never the object id. *)
Definition Stack := list ObjectAndRelation.

Definition sameRelation (a b : ObjectAndRelation) : bool :=
  String.eqb (Namespace a) (Namespace b) &&
  String.eqb (Relation a) (Relation b).

Definition StackHas (s : Stack) (onr : ObjectAndRelation) : bool :=
  existsb (sameRelation onr) s.

Definition StackWith (s : Stack) (onr : ObjectAndRelation) : Stack :=
  if StackHas s onr then s else s ++ [onr].

(* ------------------------------------------------------------------ *)
(** ** Requests and results *)

Record LookupRequest : Type := mkRequest {
  TargetONR : ObjectAndRelation;
  StartRelation : RelationReference;
  Limit : Z;
  AtRevision : Revision;
  DepthRemaining : Z;
  DirectStack : Stack;
  TTUStack : Stack
}.

Record LookupResult : Type := mkResult {
  ResolvedObjects : list ObjectAndRelation;
  Err : option error
}.

(** [LookupResult{Err: err}] and [LookupResult{ResolvedObjects: l}]. *)
Definition resultErr (err : option error) : LookupResult := mkResult [] err.
Definition resultObjects (l : list ObjectAndRelation) : LookupResult :=
  mkResult l None.

(* ------------------------------------------------------------------ *)
(** ** Schema *)

(** The rewrite tree of a relation.  [Rewrite_Unknown] and [Child_Unknown]
    stand for the [default] branches of the two type switches. *)
Inductive UsersetRewrite : Type :=
| Rewrite_Union (so : list SetOperationChild)
| Rewrite_Intersection (so : list SetOperationChild)
| Rewrite_Exclusion (so : list SetOperationChild)
| Rewrite_Unknown
with SetOperationChild : Type :=
| Child_XThis
| Child_ComputedUserset (relation : string)
| Child_UsersetRewrite (rewrite : UsersetRewrite)
| Child_TupleToUserset (tupleset computedUserset : string)
| Child_Unknown.

Record RelationDef : Type := mkRelation {
  Name : string;
  UsersetRewriteOf : option UsersetRewrite
}.

(** [v0.NamespaceDefinition]: the list of its relations. *)
Definition NamespaceDefinition := list RelationDef.

Inductive AllowedDirectRelation : Type :=
| UnknownIfRelationAllowed
| DirectRelationValid
| DirectRelationNotValid.

Definition isValid (a : AllowedDirectRelation) : bool :=
  match a with DirectRelationValid => true | _ => false end.

(** [namespace.NamespaceTypeSystem], through the three queries used. *)
Record NamespaceTypeSystem : Type := mkTypeSystem {
  IsAllowedDirectRelation :
    string -> string -> string -> AllowedDirectRelation * option error;
  AllowedDirectRelations : string -> list RelationReference * option error;
  HasRelation : string -> bool
}.

(* ------------------------------------------------------------------ *)
(** ** Datastore iterators *)

(** A tuple iterator: the tuples that [Next] yields, each with the value
    [Err()] has after that call, and the value [Err()] has once [Next] has
    returned [nil]. *)
Record TupleIterator : Type := mkIterator {
  Items : list (RelationTuple * option error);
  ErrAtEnd : option error
}.

(* ================================================================== *)
(** * Effects: the trace of collaborator calls, panics *)
(* ================================================================== *)

Inductive Event : Type :=
| EvReadNamespace (namespace : string)
| EvReverseQuery (subject : ObjectAndRelation) (rev : Revision)
    (namespace relation : string)
| EvQueryTuples (namespace : string) (rev : Revision) (relation : string)
    (usersets : list ObjectAndRelation) (limit : Z)
| EvDispatch (req : LookupRequest).

Definition Trace := list Event.

(** The outcome of a computation: a value and the events it produced, in
    order; a panic; or the loop of [lookup] running out of its fuel (which
    never happens, see [lookup_total]). *)
Inductive Outcome (A : Type) : Type :=
| Done (a : A) (evs : Trace)
| Panicked (msg : string) (evs : Trace)
| OutOfFuel.

Arguments Panicked {A} msg evs.
Arguments OutOfFuel {A}.

Definition M (A : Type) := Outcome A.

Definition ret {A} (a : A) : M A := Done a [].

Definition bind {A B} (m : M A) (f : A -> M B) : M B :=
  match m with
  | Done a e1 =>
      match f a with
      | Done b e2 => Done b (e1 ++ e2)
      | Panicked msg e2 => Panicked msg (e1 ++ e2)
      | OutOfFuel => OutOfFuel
      end
  | Panicked msg e1 => Panicked msg e1
  | OutOfFuel => OutOfFuel
  end.

Definition emit (e : Event) : M unit := Done tt [e].

Definition panic {A} (msg : string) : M A := Panicked msg [].

Notation "x <- m ;; k" := (bind m (fun x => k))
  (at level 61, m at next level, right associativity).
Notation "m ;;; k" := (bind m (fun _ => k))
  (at level 61, right associativity).

(** A deferred lookup: running it yields the one result it sends. *)
Definition ReduceableLookupFunc := M LookupResult.

(* ================================================================== *)
(** * Pure helpers of lookup.go *)
(* ================================================================== *)

Definition maxUint : Z := 2 ^ 64 - 1.
Definition noLimit : Z := Z.shiftr maxUint 1.

(** The conversion [uint64(n)] of an [int]. *)
Definition uint64 (n : Z) : Z := n mod 2 ^ 64.

(** [limitedSlice]; [None] is the panic of [slice[0:limit]] for a negative
    [limit]. *)
Definition limitedSlice (slice : list ObjectAndRelation) (limit : Z)
  : option (list ObjectAndRelation) :=
  if Z.of_nat (length slice) >? limit then
    if limit <? 0 then None else Some (firstn (Z.to_nat limit) slice)
  else Some slice.

Definition limitedResult (slice : list ObjectAndRelation) (limit : Z)
  : M LookupResult :=
  match limitedSlice slice limit with
  | Some l => ret (resultObjects l)
  | None => panic "slice bounds out of range"
  end.

Fixpoint findRelation (nsdef : NamespaceDefinition) (relationName : string)
  : option RelationDef :=
  match nsdef with
  | [] => None
  | relation :: rest =>
      if String.eqb (Name relation) relationName then Some relation
      else findRelation rest relationName
  end.

(** The function [ResolvedObjects] of the source; the name without suffix
    is the field of [LookupResult]. *)
Definition ResolvedObjectsFn (resolved : list ObjectAndRelation)
  : ReduceableLookupFunc :=
  ret (resultObjects resolved).

Definition Resolved (resolved : ObjectAndRelation) : ReduceableLookupFunc :=
  ret (resultObjects [resolved]).

(** [ResolveError] panics when handed a nil error. *)
Definition ResolveError (err : option error) : M ReduceableLookupFunc :=
  match err with
  | None => panic "Given nil error to ResolveError"
  | Some e => ret (ret (resultErr (Some e)))
  end.

(* ================================================================== *)
(** * The combinators *)
(* ================================================================== *)

(** Every request of a combinator is started as a goroutine. *)
Fixpoint runAll (requests : list ReduceableLookupFunc)
  : M (list LookupResult) :=
  match requests with
  | [] => ret []
  | req :: rest =>
      result <- req ;;
      results <- runAll rest ;;
      ret (result :: results)
  end.

Definition LookupOne (request : ReduceableLookupFunc) : M LookupResult :=
  request.

(** The receive loop of [LookupAny]: one channel per request, read in the
    order of the requests. *)
Fixpoint anyLoop (limit : Z) (results : list LookupResult) (objects : ONRSet)
  : M LookupResult :=
  match results with
  | [] => limitedResult (AsSlice objects) limit
  | result :: rest =>
      match Err result with
      | Some e => ret (resultErr (Some e))
      | None =>
          let objects := Update objects (ResolvedObjects result) in
          if Length objects >=? limit
          then limitedResult (AsSlice objects) limit
          else anyLoop limit rest objects
      end
  end.

Definition LookupAny (limit : Z) (requests : list ReduceableLookupFunc)
  : M LookupResult :=
  results <- runAll requests ;;
  anyLoop limit results NewONRSet.

(** The receive loop of [LookupAll]; [first] is [i == 0]. *)
Fixpoint allLoop (arrived : list LookupResult) (first : bool)
  (objSet : ONRSet) : LookupResult :=
  match arrived with
  | [] => mkResult (AsSlice objSet) None
  | result :: rest =>
      match Err result with
      | Some _ => result
      | None =>
          let subSet := Update NewONRSet (ResolvedObjects result) in
          let objSet := if first then subSet else Intersect objSet subSet in
          if Length objSet =? 0 then mkResult [] None
          else allLoop rest false objSet
      end
  end.

(** The receive loop of [LookupExclude]; a result is tagged [true] when it
    comes from the base channel. *)
Fixpoint excludeLoop (limit : Z) (arrived : list (bool * LookupResult))
  (objSet excSet : ONRSet) : M LookupResult :=
  match arrived with
  | [] => limitedResult (AsSlice (Subtract objSet excSet)) limit
  | (isBase, result) :: rest =>
      match Err result with
      | Some _ => ret result
      | None =>
          if isBase
          then excludeLoop limit rest
                 (Update objSet (ResolvedObjects result)) excSet
          else excludeLoop limit rest objSet
                 (Update excSet (ResolvedObjects result))
      end
  end.

Section Combinators.

(** The order in which the results sent on a shared channel are
    received: any permutation of them. *)
Variable arrival : forall A : Type, list A -> list A.

Definition LookupAll (limit : Z) (requests : list ReduceableLookupFunc)
  : M LookupResult :=
  match requests with
  | [] => ret (mkResult [] None)
  | _ =>
      results <- runAll requests ;;
      ret (allLoop (arrival results) true NewONRSet)
  end.

Definition LookupExclude (limit : Z) (requests : list ReduceableLookupFunc)
  : M LookupResult :=
  match requests with
  | [] => panic "makechan: size out of range"
  | baseReq :: others =>
      base <- baseReq ;;
      subs <- runAll others ;;
      excludeLoop limit
        (arrival ((true, base) :: map (fun sub => (false, sub)) subs))
        NewONRSet NewONRSet
  end.

End Combinators.

(* ================================================================== *)
(** * The collaborators *)
(* ================================================================== *)

(** [Dispatcher]: routes a sub-request and returns its result. *)
Record Dispatcher : Type := mkDispatcher {
  Lookup : LookupRequest -> LookupResult
}.

(** [datastore.GraphDatastore]: the two query builders, each applied to
    the arguments of its builder chain and executed. *)
Record GraphDatastore : Type := mkDatastore {
  (** [ReverseQueryTuplesFromSubject(subject, revision).
        WithObjectRelation(namespace, relation).Execute(ctx)] *)
  ReverseQueryTuplesFromSubject :
    ObjectAndRelation -> Revision -> string -> string ->
    TupleIterator * option error;
  (** [QueryTuples(namespace, revision).WithRelation(relation).
        WithUsersets(usersets).Limit(limit).Execute(ctx)] *)
  QueryTuples :
    string -> Revision -> string -> list ObjectAndRelation -> Z ->
    TupleIterator * option error
}.

(** [namespace.Manager] *)
Record NamespaceManager : Type := mkManager {
  ReadNamespaceAndTypes :
    string -> NamespaceDefinition * NamespaceTypeSystem * option error
}.

Record concurrentLookup : Type := mkConcurrentLookup {
  cl_d : Dispatcher;
  cl_ds : GraphDatastore;
  cl_nsm : NamespaceManager
}.

(* ================================================================== *)
(** * Iterator loops *)
(* ================================================================== *)

(** How a [for tpl := it.Next(); tpl != nil; tpl = it.Next()] loop ends:
    by a [return] after sending [result], or by leaving the loop with the
    collected objects and the value [it.Err()] then has. *)
Inductive IterExit : Type :=
| IterReturn (result : LookupResult)
| IterDone (objects : ONRSet) (itErr : option error).

(** The loop shared by the three tuple loops.  [body] is what the loop does
    with a tuple once [it.Err()] is known to be nil: an error to send, or
    the ONR to add. *)
Fixpoint drain (limit : Z) (body : RelationTuple -> error + ObjectAndRelation)
  (items : list (RelationTuple * option error)) (errAtEnd : option error)
  (objects : ONRSet) : IterExit :=
  match items with
  | [] => IterDone objects errAtEnd
  | (tpl, itErr) :: rest =>
      match itErr with
      | Some _ => IterReturn (resultErr itErr)
      | None =>
          match body tpl with
          | inl e => IterReturn (resultErr (Some e))
          | inr onr =>
              let objects := fst (Add objects onr) in
              if Length objects >=? limit then IterDone objects itErr
              else drain limit body rest errAtEnd objects
          end
      end
  end.

Definition addObject (tpl : RelationTuple) : error + ObjectAndRelation :=
  inr (ObjectAndRelationOf tpl).

(** The result the reader of an unbuffered channel observes when the
    goroutine sends [result] now: the first value sent, a second send
    blocking for ever. *)
Definition observe (sent : option LookupResult) (result : LookupResult)
  : LookupResult :=
  match sent with
  | Some first => first
  | None => result
  end.

(** The loop of [processTupleToUserset] that collects the usersets of the
    tupleset query. *)
Inductive UsersetsExit : Type :=
| UsersetsStop (observed : LookupResult)
| UsersetsDone (usersets : list ObjectAndRelation)
    (sent : option LookupResult).

Fixpoint collectUsersets (typeSystem : NamespaceTypeSystem)
  (tupleset : string) (resolved : list ObjectAndRelation)
  (usersets : list ObjectAndRelation) (sent : option LookupResult)
  : UsersetsExit :=
  match resolved with
  | [] => UsersetsDone usersets sent
  | resolvedObj :: rest =>
      let '(allowedDirect, err) :=
        IsAllowedDirectRelation typeSystem tupleset
          (Namespace resolvedObj) (Relation resolvedObj) in
      match err with
      | Some _ => UsersetsStop (observe sent (resultErr err))
      | None =>
          let allowedRelations :=
            if isValid allowedDirect then [Relation resolvedObj] else [] in
          let userset allowedRelation :=
            mkONR (Namespace resolvedObj) (ObjectId resolvedObj)
              allowedRelation in
          if negb (String.eqb (Relation resolvedObj) Ellipsis) then
            let '(allowedEllipsis, err) :=
              IsAllowedDirectRelation typeSystem tupleset
                (Namespace resolvedObj) Ellipsis in
            match err, sent with
            | Some _, Some first => UsersetsStop first
            | _, _ =>
                (* the error is sent, and the loop body goes on *)
                let sent :=
                  match err with
                  | Some _ => Some (resultErr err)
                  | None => sent
                  end in
                let allowedRelations :=
                  if isValid allowedEllipsis
                  then allowedRelations ++ [Ellipsis]
                  else allowedRelations in
                collectUsersets typeSystem tupleset rest
                  (usersets ++ map userset allowedRelations) sent
            end
          else
            collectUsersets typeSystem tupleset rest
              (usersets ++ map userset allowedRelations) sent
      end
  end.

(** The loop of [lookupComputed] that rewrites the found ONRs. *)
Fixpoint rewriteResolved (req : LookupRequest)
  (resolved : list ObjectAndRelation)
  (rewrittenResolved : list ObjectAndRelation)
  : error + list ObjectAndRelation :=
  match resolved with
  | [] => inr rewrittenResolved
  | r :: rest =>
      if negb (String.eqb (Namespace r) (RefNamespace (StartRelation req)))
      then inl (ErrInvalidNamespace r (RefNamespace (StartRelation req)))
      else rewriteResolved req rest
             (rewrittenResolved ++
              [mkONR (Namespace r) (ObjectId r)
                 (RefRelation (StartRelation req))])
  end.

(** What a function does at the end of one of its loops: it has returned
    [f], or it goes on with [a]. *)
Inductive Flow (A : Type) : Type :=
| Returned (f : ReduceableLookupFunc)
| Fallthrough (a : A).

Arguments Returned {A} f.

(** The last loop of [lookup]: the objects that are new to [objSet] are
    added to it and to [toCheck]. *)
Fixpoint addNew (objs : list ObjectAndRelation) (objSet toCheck : ONRSet)
  : ONRSet * ONRSet :=
  match objs with
  | [] => (objSet, toCheck)
  | obj :: rest =>
      let '(objSet', isNew) := Add objSet obj in
      if isNew then addNew rest objSet' (fst (Add toCheck obj))
      else addNew rest objSet' toCheck
  end.

(** The key under which a relation is kept in a stack. *)
Definition stackKey (namespace relation : string) : ObjectAndRelation :=
  mkONR namespace "" relation.

(* ================================================================== *)
(** * The lookup handler *)
(* ================================================================== *)

Section Handler.

Variable arrival : forall A : Type, list A -> list A.
Variable cl : concurrentLookup.

(** [dispatch]: the deferred call of the dispatcher. *)
Definition dispatch (req : LookupRequest) : ReduceableLookupFunc :=
  emit (EvDispatch req) ;;;
  ret (Lookup (cl_d cl) req).

(* ---------------------------------------------------------------- *)
(** ** lookupDirect *)

(** The request that queries the tuples of the target ONR itself. *)
Definition directRequest (req : LookupRequest) : ReduceableLookupFunc :=
  emit (EvReverseQuery (TargetONR req) (AtRevision req)
          (RefNamespace (StartRelation req))
          (RefRelation (StartRelation req))) ;;;
  let '(it, err) :=
    ReverseQueryTuplesFromSubject (cl_ds cl) (TargetONR req)
      (AtRevision req) (RefNamespace (StartRelation req))
      (RefRelation (StartRelation req)) in
  match err with
  | Some _ => ret (resultErr err)
  | None =>
      match drain (Limit req) addObject (Items it) (ErrAtEnd it)
              NewONRSet with
      | IterReturn result => ret result
      | IterDone objects itErr =>
          match itErr with
          | Some _ =>
              (* [LookupResult{Err: err}]: the source sends [err], the
                 variable assigned by [Execute], not [it.Err()] *)
              ret (resultErr err)
          | None => ret (resultObjects (AsSlice objects))
          end
      end
  end.

(** The three [continue]s of the loop over the allowed direct types. *)
Definition skipAllowedDirectType (req : LookupRequest) (directStack : Stack)
  (allowedDirectType : RelationReference) : bool :=
  String.eqb (RefRelation allowedDirectType) Ellipsis
  || (String.eqb (RefNamespace allowedDirectType)
        (RefNamespace (StartRelation req))
      && String.eqb (RefRelation allowedDirectType)
           (RefRelation (StartRelation req)))
  || StackHas directStack
       (stackKey (RefNamespace allowedDirectType)
          (RefRelation allowedDirectType)).

Definition inferredLookupRequest (req : LookupRequest) (directStack : Stack)
  (allowedDirectType : RelationReference) : LookupRequest :=
  {| TargetONR := TargetONR req;
     StartRelation := mkRef (RefNamespace allowedDirectType)
                        (RefRelation allowedDirectType);
     Limit := noLimit;
     AtRevision := AtRevision req;
     DepthRemaining := DepthRemaining req - 1;
     DirectStack := directStack;
     TTUStack := TTUStack req |}.

(** The request that dispatches on an inferred relation and then looks
    the found objects up in the start relation. *)
Definition inferredRequest (req : LookupRequest) (directStack : Stack)
  (allowedDirectType : RelationReference) : ReduceableLookupFunc :=
  let inferredRequest :=
    dispatch (inferredLookupRequest req directStack allowedDirectType) in
  result <- LookupAny noLimit [inferredRequest] ;;
  match Err result with
  | Some _ => ret result
  | None =>
      if 0 <? Z.of_nat (length (ResolvedObjects result)) then
        emit (EvQueryTuples (RefNamespace (StartRelation req))
                (AtRevision req) (RefRelation (StartRelation req))
                (ResolvedObjects result) (uint64 (Limit req))) ;;;
        let '(it, err) :=
          QueryTuples (cl_ds cl) (RefNamespace (StartRelation req))
            (AtRevision req) (RefRelation (StartRelation req))
            (ResolvedObjects result) (uint64 (Limit req)) in
        match err with
        | Some _ => ret (resultErr err)
        | None =>
            match drain (Limit req) addObject (Items it) (ErrAtEnd it)
                    NewONRSet with
            | IterReturn result => ret result
            | IterDone objects _ => ret (resultObjects (AsSlice objects))
            end
        end
      else ret (resultObjects (AsSlice NewONRSet))
  end.

Definition lookupDirect (req : LookupRequest)
  (typeSystem : NamespaceTypeSystem) : M ReduceableLookupFunc :=
  let '(isDirectAllowed, err) :=
    IsAllowedDirectRelation typeSystem (RefRelation (StartRelation req))
      (Namespace (TargetONR req)) (Relation (TargetONR req)) in
  match err with
  | Some _ => ResolveError err
  | None =>
      let requests :=
        if isValid isDirectAllowed then [directRequest req] else [] in
      let '(allowedDirect, err) :=
        AllowedDirectRelations typeSystem
          (RefRelation (StartRelation req)) in
      match err with
      | Some _ => ResolveError err
      | None =>
          let directStack :=
            StackWith (DirectStack req)
              (stackKey (RefNamespace (StartRelation req))
                 (RefRelation (StartRelation req))) in
          let requests :=
            requests ++
            map (inferredRequest req directStack)
              (filter
                 (fun t => negb (skipAllowedDirectType req directStack t))
                 allowedDirect) in
          if (length requests =? 0)%nat
          then ret (ResolvedObjectsFn [])
          else ret (LookupAny (Limit req) requests)
      end
  end.

(* ---------------------------------------------------------------- *)
(** ** lookupComputed *)

Definition computedLookupRequest (req : LookupRequest) (cu : string)
  : LookupRequest :=
  {| TargetONR := TargetONR req;
     StartRelation := mkRef (RefNamespace (StartRelation req)) cu;
     Limit := Limit req;
     AtRevision := AtRevision req;
     DepthRemaining := DepthRemaining req - 1;
     DirectStack :=
       StackWith (DirectStack req)
         (stackKey (RefNamespace (StartRelation req))
            (RefRelation (StartRelation req)));
     TTUStack := TTUStack req |}.

Definition lookupComputed (req : LookupRequest) (cu : string)
  : M ReduceableLookupFunc :=
  result <- LookupOne (dispatch (computedLookupRequest req cu)) ;;
  match Err result with
  | Some _ => ResolveError (Err result)
  | None =>
      match rewriteResolved req (ResolvedObjects result) [] with
      | inl e => ResolveError (Some e)
      | inr rewrittenResolved => ret (ResolvedObjectsFn rewrittenResolved)
      end
  end.

(* ---------------------------------------------------------------- *)
(** ** processTupleToUserset *)

Definition ttuLookupRequest (req : LookupRequest) (cu : string)
  (onr : ObjectAndRelation) (directRelation : RelationReference)
  : LookupRequest :=
  {| TargetONR := TargetONR req;
     StartRelation := mkRef (RefNamespace directRelation) cu;
     Limit := noLimit;
     AtRevision := AtRevision req;
     DepthRemaining := DepthRemaining req - 1;
     DirectStack := DirectStack req;
     TTUStack := StackWith (TTUStack req) onr |}.

(** What the tupleset loop does with a tuple. *)
Definition addTuplesetObject (req : LookupRequest) (tpl : RelationTuple)
  : error + ObjectAndRelation :=
  if negb (String.eqb (Namespace (ObjectAndRelationOf tpl))
             (RefNamespace (StartRelation req)))
  then inl ErrUnexpectedNamespace
  else inr (mkONR (RefNamespace (StartRelation req))
              (ObjectId (ObjectAndRelationOf tpl))
              (RefRelation (StartRelation req))).

(** The request of one accessible namespace of the computed userset. *)
Definition ttuRequest (req : LookupRequest)
  (typeSystem : NamespaceTypeSystem) (tupleset cu : string)
  (onr : ObjectAndRelation) (directRelation : RelationReference)
  : ReduceableLookupFunc :=
  let computedUsersetRequest :=
    dispatch (ttuLookupRequest req cu onr directRelation) in
  result <- LookupAny noLimit [computedUsersetRequest] ;;
  match Err result with
  | Some _ => ret result
  | None =>
      if (length (ResolvedObjects result) =? 0)%nat then ret result
      else
        match collectUsersets typeSystem tupleset
                (ResolvedObjects result) [] None with
        | UsersetsStop observed => ret observed
        | UsersetsDone usersets sent =>
            if 0 <? Z.of_nat (length usersets) then
              emit (EvQueryTuples (RefNamespace (StartRelation req))
                      (AtRevision req) tupleset usersets
                      (uint64 (Limit req))) ;;;
              let '(it, err) :=
                QueryTuples (cl_ds cl) (RefNamespace (StartRelation req))
                  (AtRevision req) tupleset usersets
                  (uint64 (Limit req)) in
              match err with
              | Some _ => ret (observe sent (resultErr err))
              | None =>
                  match drain (Limit req) (addTuplesetObject req)
                          (Items it) (ErrAtEnd it) NewONRSet with
                  | IterReturn result => ret (observe sent result)
                  | IterDone objects _ =>
                      ret (observe sent (resultObjects (AsSlice objects)))
                  end
              end
            else ret (observe sent (resultObjects (AsSlice NewONRSet)))
        end
  end.

(** The loop over the direct relations of the tupleset; [namespaces] is
    the set of the namespaces already dispatched to. *)
Fixpoint ttuLoop (req : LookupRequest) (typeSystem : NamespaceTypeSystem)
  (tupleset cu : string) (onr : ObjectAndRelation)
  (tuplesetDirectRelations : list RelationReference)
  (namespaces : list string) (requests : list ReduceableLookupFunc)
  : M (Flow (list ReduceableLookupFunc)) :=
  match tuplesetDirectRelations with
  | [] => ret (Fallthrough requests)
  | directRelation :: rest =>
      if existsb (String.eqb (RefNamespace directRelation)) namespaces
      then ttuLoop req typeSystem tupleset cu onr rest namespaces requests
      else
        emit (EvReadNamespace (RefNamespace directRelation)) ;;;
        let '(_, directRelTypeSystem, err) :=
          ReadNamespaceAndTypes (cl_nsm cl)
            (RefNamespace directRelation) in
        match err with
        | Some _ => f <- ResolveError err ;; ret (Returned f)
        | None =>
            if negb (HasRelation directRelTypeSystem cu)
            then ttuLoop req typeSystem tupleset cu onr rest namespaces
                   requests
            else ttuLoop req typeSystem tupleset cu onr rest
                   (RefNamespace directRelation :: namespaces)
                   (requests ++
                    [ttuRequest req typeSystem tupleset cu onr
                       directRelation])
        end
  end.

Definition processTupleToUserset (req : LookupRequest)
  (typeSystem : NamespaceTypeSystem) (tupleset cu : string)
  : M ReduceableLookupFunc :=
  let onr := stackKey (RefNamespace (StartRelation req))
               (RefRelation (StartRelation req)) in
  if StackHas (TTUStack req) onr then ret (ResolvedObjectsFn [])
  else
    let '(tuplesetDirectRelations, err) :=
      AllowedDirectRelations typeSystem tupleset in
    match err with
    | Some _ => ResolveError err
    | None =>
        flow <- ttuLoop req typeSystem tupleset cu onr
                  tuplesetDirectRelations [] [] ;;
        match flow with
        | Returned f => ret f
        | Fallthrough requests =>
            if (length requests =? 0)%nat
            then ret (ResolvedObjectsFn [])
            else ret (LookupAny (Limit req) requests)
        end
    end.

(* ---------------------------------------------------------------- *)
(** ** processRewrite and processSetOperation *)

Definition LookupReducer :=
  Z -> list ReduceableLookupFunc -> M LookupResult.

(** [processSetOperation], with the call of [processRewrite] on a nested
    rewrite as a parameter; [requests] are the requests of the children
    already seen. *)
Fixpoint processChildren
  (processRewrite : UsersetRewrite -> M ReduceableLookupFunc)
  (req : LookupRequest) (typeSystem : NamespaceTypeSystem)
  (children : list SetOperationChild) (reducer : LookupReducer)
  (requests : list ReduceableLookupFunc) : M ReduceableLookupFunc :=
  match children with
  | [] => ret (reducer (Limit req) requests)
  | child :: rest =>
      match child with
      | Child_XThis =>
          r <- lookupDirect req typeSystem ;;
          processChildren processRewrite req typeSystem rest reducer
            (requests ++ [r])
      | Child_ComputedUserset cu =>
          r <- lookupComputed req cu ;;
          processChildren processRewrite req typeSystem rest reducer
            (requests ++ [r])
      | Child_UsersetRewrite rewrite =>
          r <- processRewrite rewrite ;;
          processChildren processRewrite req typeSystem rest reducer
            (requests ++ [r])
      | Child_TupleToUserset tupleset cu =>
          r <- processTupleToUserset req typeSystem tupleset cu ;;
          processChildren processRewrite req typeSystem rest reducer
            (requests ++ [r])
      | Child_Unknown => ResolveError (Some ErrUnknownSetOperationChild)
      end
  end.

Fixpoint processRewrite (req : LookupRequest)
  (typeSystem : NamespaceTypeSystem) (usr : UsersetRewrite)
  {struct usr} : M ReduceableLookupFunc :=
  match usr with
  | Rewrite_Union so =>
      processChildren (processRewrite req typeSystem) req typeSystem so
        LookupAny []
  | Rewrite_Intersection so =>
      processChildren (processRewrite req typeSystem) req typeSystem so
        (LookupAll arrival) []
  | Rewrite_Exclusion so =>
      processChildren (processRewrite req typeSystem) req typeSystem so
        (LookupExclude arrival) []
  | Rewrite_Unknown =>
      ResolveError
        (Some (ErrUnknownRewriteKind (RefNamespace (StartRelation req))
                 (RefRelation (StartRelation req))))
  end.

Definition processSetOperation (req : LookupRequest)
  (typeSystem : NamespaceTypeSystem) (so : list SetOperationChild)
  (reducer : LookupReducer) : M ReduceableLookupFunc :=
  processChildren (processRewrite req typeSystem) req typeSystem so
    reducer [].

(* ---------------------------------------------------------------- *)
(** ** lookup *)

Definition isTarget (req : LookupRequest) (obj : ObjectAndRelation)
  : bool :=
  String.eqb (Namespace obj) (Namespace (TargetONR req))
  && String.eqb (Relation obj) (Relation (TargetONR req))
  && String.eqb (ObjectId obj) (ObjectId (TargetONR req)).

Definition closureLookupRequest (req : LookupRequest) (objSet : ONRSet)
  (obj : ObjectAndRelation) : LookupRequest :=
  {| TargetONR := obj;
     StartRelation := StartRelation req;
     Limit := Limit req - Length objSet;
     AtRevision := AtRevision req;
     DepthRemaining := DepthRemaining req - 1;
     DirectStack := DirectStack req;
     TTUStack := TTUStack req |}.

(** The [for] loop of [lookup].  [err] is the variable of that name of
    [lookup], assigned by [ReadNamespaceAndTypes]. *)
Fixpoint closureLoop (fuel : nat) (req : LookupRequest)
  (err : option error) (objSet toCheck : ONRSet) : M (Flow ONRSet) :=
  match fuel with
  | O => OutOfFuel
  | S fuel =>
      if (Length toCheck =? 0) || (Length objSet >=? Limit req)
      then ret (Fallthrough objSet)
      else
        let requests :=
          map (fun obj => dispatch (closureLookupRequest req objSet obj))
            (filter (fun obj => negb (isTarget req obj))
               (AsSlice toCheck)) in
        if (length requests =? 0)%nat then ret (Fallthrough objSet)
        else
          result <- LookupAny (Limit req) requests ;;
          match Err result with
          | Some _ =>
              (* [return ResolveError(err)]: the source passes [err], not
                 [result.Err] *)
              f <- ResolveError err ;; ret (Returned f)
          | None =>
              let '(objSet, toCheck) :=
                addNew (ResolvedObjects result) objSet NewONRSet in
              closureLoop fuel req err objSet toCheck
          end
  end.

(** Enough fuel for the loop: each round but the last adds an object to
    [objSet], whose length stays below the limit. *)
Definition closureFuel (req : LookupRequest) : nat :=
  S (S (Z.to_nat (Limit req))).

Definition lookup (req : LookupRequest) : M ReduceableLookupFunc :=
  let objSet := NewONRSet in
  let objSet :=
    if String.eqb (RefNamespace (StartRelation req))
         (Namespace (TargetONR req))
       && String.eqb (RefRelation (StartRelation req))
            (Relation (TargetONR req))
    then fst (Add objSet (TargetONR req))
    else objSet in
  emit (EvReadNamespace (RefNamespace (StartRelation req))) ;;;
  let '(nsdef, typeSystem, err) :=
    ReadNamespaceAndTypes (cl_nsm cl) (RefNamespace (StartRelation req)) in
  match err with
  | Some _ => ResolveError err
  | None =>
      match findRelation nsdef (RefRelation (StartRelation req)) with
      | None =>
          ResolveError
            (Some (ErrRelationNotFound (RefRelation (StartRelation req))
                     (RefNamespace (StartRelation req))))
      | Some relation =>
          request <-
            match UsersetRewriteOf relation with
            | Some rewrite => processRewrite req typeSystem rewrite
            | None => lookupDirect req typeSystem
            end ;;
          result <- LookupAny (Limit req) [request] ;;
          match Err result with
          | Some _ => ResolveError (Err result)
          | None =>
              let objSet := Update objSet (ResolvedObjects result) in
              flow <- closureLoop (closureFuel req) req err objSet objSet ;;
              match flow with
              | Returned f => ret f
              | Fallthrough objSet =>
                  match limitedSlice (AsSlice objSet) (Limit req) with
                  | Some resolved => ret (ResolvedObjectsFn resolved)
                  | None => panic "slice bounds out of range"
                  end
              end
          end
      end
  end.

(** Modelled from the spec: the implementation of [Dispatcher.Lookup]
    that routes a request to this handler is outside lookup.go.  The
    specification (section 6) has it honour [depth_remaining], failing
    with a depth-exceeded error when it is zero; otherwise the lookup of
    the handler is driven under [one]. *)
Definition dispatcherLookup (req : LookupRequest) : M LookupResult :=
  if DepthRemaining req =? 0 then ret (resultErr (Some ErrMaxDepth))
  else request <- lookup req ;; LookupOne request.

End Handler.

(* ================================================================== *)
(** * Specification predicates *)
(* ================================================================== *)

(** [post m Phi]: if [m] ends with a value, the value and the events
    satisfy [Phi]; [m] does not run out of fuel. *)
Definition post {A} (m : M A) (Phi : A -> Trace -> Prop) : Prop :=
  match m with
  | Done a evs => Phi a evs
  | Panicked _ _ => True
  | OutOfFuel => False
  end.

(** A request is good: its events satisfy [Q] and, under the assumption
    [H] on the collaborators, the objects of a successful result satisfy
    [P]. *)
Definition good (Q : Event -> Prop) (H : Prop)
  (P : ObjectAndRelation -> Prop) (f : ReduceableLookupFunc) : Prop :=
  post f (fun res evs =>
            Forall Q evs /\
            (H -> Err res = None -> Forall P (ResolvedObjects res))).

(** A handler is good: so are the events of the construction and the
    request it returns. *)
Definition goodHandler (Q : Event -> Prop) (H : Prop)
  (P : ObjectAndRelation -> Prop) (m : M ReduceableLookupFunc) : Prop :=
  post m (fun f evs => Forall Q evs /\ good Q H P f).

(** The ONR is one of the start relation of the request. *)
Definition ofStartRelation (req : LookupRequest) (o : ObjectAndRelation)
  : Prop :=
  Namespace o = RefNamespace (StartRelation req) /\
  Relation o = RefRelation (StartRelation req).

(** What every call made on behalf of [req] carries: the revision of the
    request and, for a dispatched sub-request, one unit of depth less. *)
Definition callOf (req : LookupRequest) (e : Event) : Prop :=
  match e with
  | EvReadNamespace _ => True
  | EvReverseQuery _ rev _ _ => rev = AtRevision req
  | EvQueryTuples _ rev _ _ _ => rev = AtRevision req
  | EvDispatch sub =>
      DepthRemaining sub = DepthRemaining req - 1 /\
      AtRevision sub = AtRevision req
  end.

Definition isDatastoreQuery (e : Event) : bool :=
  match e with
  | EvReverseQuery _ _ _ _ | EvQueryTuples _ _ _ _ _ => true
  | _ => false
  end.

Definition isDispatch (e : Event) : bool :=
  match e with
  | EvDispatch _ => true
  | _ => false
  end.

(** The scheduler only reorders what was sent. *)
Definition arrivalPermutes (arrival : forall A : Type, list A -> list A)
  : Prop :=
  forall (A : Type) (l : list A), Permutation (arrival A l) l.

(** The datastore honours the object filter of its two queries: the
    tuples it yields are tuples of the namespace and relation asked for. *)
Definition datastoreFilters (ds : GraphDatastore) : Prop :=
  (forall subject rev ns rel tpl itErr,
      In (tpl, itErr)
        (Items (fst (ReverseQueryTuplesFromSubject ds subject rev ns rel))) ->
      Namespace (ObjectAndRelationOf tpl) = ns /\
      Relation (ObjectAndRelationOf tpl) = rel) /\
  (forall ns rev rel usersets limit tpl itErr,
      In (tpl, itErr)
        (Items (fst (QueryTuples ds ns rev rel usersets limit))) ->
      Namespace (ObjectAndRelationOf tpl) = ns /\
      Relation (ObjectAndRelationOf tpl) = rel).

(** The dispatcher returns ONRs of the start relation of the request it
    is given (the invariant of the claim, for the sub-requests). *)
Definition dispatcherInvariant (d : Dispatcher) : Prop :=
  forall sub,
    Err (Lookup d sub) = None ->
    Forall (ofStartRelation sub) (ResolvedObjects (Lookup d sub)).

(** The claim on depth, as it is stated for [lookup]: at depth zero it
    returns the depth-exceeded error and queries no datastore. *)
Definition depthGuardClaim (arrival : forall A : Type, list A -> list A)
  (cl : concurrentLookup) (req : LookupRequest) : Prop :=
  DepthRemaining req = 0 ->
  exists evs,
    lookup arrival cl req = Done (ret (resultErr (Some ErrMaxDepth))) evs /\
    existsb isDatastoreQuery evs = false.

(** The claim on the direct stack, as it is stated: with the start
    relation in the direct stack, the direct handler dispatches nothing
    and resolves to the empty set. *)
Definition directStackClaim (cl : concurrentLookup) (req : LookupRequest)
  (typeSystem : NamespaceTypeSystem) : Prop :=
  StackHas (DirectStack req)
    (stackKey (RefNamespace (StartRelation req))
       (RefRelation (StartRelation req))) = true ->
  exists evs,
    lookupDirect cl req typeSystem = Done (Done (resultObjects []) evs) [] /\
    existsb isDispatch evs = false.


(** The claim on iterator errors, for the request of the direct branch:
    when the tuple loop is left with an error of the iterator pending,
    the result carries that error. *)
Definition iteratorErrorClaim (cl : concurrentLookup) (req : LookupRequest)
  : Prop :=
  forall it objects e,
    ReverseQueryTuplesFromSubject (cl_ds cl) (TargetONR req) (AtRevision req)
      (RefNamespace (StartRelation req)) (RefRelation (StartRelation req))
    = (it, None) ->
    drain (Limit req) addObject (Items it) (ErrAtEnd it) NewONRSet
    = IterDone objects (Some e) ->
    exists evs, directRequest cl req = Done (resultErr (Some e)) evs.

(** The claim on the error of the closure loop: [lookup] returns the
    error of the round. *)
Definition closureErrorClaim (arrival : forall A : Type, list A -> list A)
  (cl : concurrentLookup) (req : LookupRequest) (e : error) : Prop :=
  exists evs, lookup arrival cl req = Done (ret (resultErr (Some e))) evs.

(** The intersection of the object sets of a list of results. *)
Definition inAll (results : list LookupResult) (o : ObjectAndRelation)
  : Prop :=
  forall r, In r results -> In o (ResolvedObjects r).

(** A result is good: under [H], its objects satisfy [P] when it is not
    an error. *)
Definition goodResult (H : Prop) (P : ObjectAndRelation -> Prop)
  (res : LookupResult) : Prop :=
  H -> Err res = None -> Forall P (ResolvedObjects res).

(** What [collectUsersets] has sent, if anything, is an error. *)
Definition sentError (sent : option LookupResult) : Prop :=
  forall first, sent = Some first -> Err first <> None.

(** The measure that decreases at each round of the loop. *)
Definition closureMeasure (req : LookupRequest) (objSet toCheck : ONRSet)
  : nat :=
  (Z.to_nat (Limit req - Length objSet)
   + match toCheck with [] => 0 | _ :: _ => 1 end)%nat.

(** Induction on a rewrite tree, with the hypothesis on every nested
    rewrite of a set operation. *)
Section RewriteInduction.

Variable R : UsersetRewrite -> Prop.

Definition childHolds (child : SetOperationChild) : Prop :=
  match child with
  | Child_UsersetRewrite rewrite => R rewrite
  | _ => True
  end.

Hypothesis R_union : forall so, Forall childHolds so -> R (Rewrite_Union so).
Hypothesis R_intersection :
  forall so, Forall childHolds so -> R (Rewrite_Intersection so).
Hypothesis R_exclusion :
  forall so, Forall childHolds so -> R (Rewrite_Exclusion so).
Hypothesis R_unknown : R Rewrite_Unknown.

Fixpoint rewrite_induction (usr : UsersetRewrite) : R usr :=
  let children :=
    fix children (so : list SetOperationChild) : Forall childHolds so :=
      match so with
      | [] => Forall_nil childHolds
      | child :: rest =>
          Forall_cons child
            (match child return childHolds child with
             | Child_UsersetRewrite rewrite => rewrite_induction rewrite
             | _ => I
             end)
            (children rest)
      end in
  match usr with
  | Rewrite_Union so => R_union (children so)
  | Rewrite_Intersection so => R_intersection (children so)
  | Rewrite_Exclusion so => R_exclusion (children so)
  | Rewrite_Unknown => R_unknown
  end.

End RewriteInduction.

(** What [lookupDirect] may call: the reverse query of the target, the
    dispatch of an allowed direct type that is not skipped, and the query
    of the objects found for it. *)
Definition directStackOf (req : LookupRequest) : Stack :=
  StackWith (DirectStack req)
    (stackKey (RefNamespace (StartRelation req))
       (RefRelation (StartRelation req))).

Definition directCall (allowedDirect : list RelationReference)
  (req : LookupRequest) (e : Event) : Prop :=
  match e with
  | EvReadNamespace _ => False
  | EvReverseQuery subject rev ns rel =>
      subject = TargetONR req /\ rev = AtRevision req /\
      ns = RefNamespace (StartRelation req) /\
      rel = RefRelation (StartRelation req)
  | EvQueryTuples ns rev rel _ limit =>
      ns = RefNamespace (StartRelation req) /\ rev = AtRevision req /\
      rel = RefRelation (StartRelation req) /\ limit = uint64 (Limit req)
  | EvDispatch sub =>
      exists allowedDirectType,
        In allowedDirectType allowedDirect /\
        skipAllowedDirectType req (directStackOf req) allowedDirectType
        = false /\
        sub = inferredLookupRequest req (directStackOf req)
                allowedDirectType
  end.

(** What the good requests of a rewrite assume of the collaborators. *)
Definition allGood (arrival : forall A : Type, list A -> list A)
  (cl : concurrentLookup) : Prop :=
  arrivalPermutes arrival /\ datastoreFilters (cl_ds cl).

Definition goodReducer (arrival : forall A : Type, list A -> list A)
  (cl : concurrentLookup) (req : LookupRequest) (reducer : LookupReducer)
  : Prop :=
  forall limit requests,
    Forall (good (callOf req) (allGood arrival cl) (ofStartRelation req))
      requests ->
    good (callOf req) (allGood arrival cl) (ofStartRelation req)
      (reducer limit requests).

(** The object set of [lookup] before the structural pass. *)
Definition selfMatch (req : LookupRequest) : ONRSet :=
  if String.eqb (RefNamespace (StartRelation req)) (Namespace (TargetONR req))
     && String.eqb (RefRelation (StartRelation req))
          (Relation (TargetONR req))
  then fst (Add NewONRSet (TargetONR req))
  else NewONRSet.

(* ------------------------------------------------------------------ *)
(** ** Predicates for the properties of the code *)

(** The object set that the loop of [LookupAny] has built from [objects]
    after it has received [results]. *)
Definition unionFrom (objects : ONRSet) (results : list LookupResult)
  : ONRSet :=
  fold_left (fun acc result => Update acc (ResolvedObjects result))
    results objects.

Definition unionOf (results : list LookupResult) : ONRSet :=
  unionFrom NewONRSet results.

Definition succeeded (result : LookupResult) : Prop := Err result = None.

(** The computation ends, its trace satisfies [T], the events before a
    panic included, and a value it returns satisfies [Phi]; [traced] is
    the case of a trace whose events all satisfy [Q]. *)
Definition tracedBy (T : Trace -> Prop) {A} (m : M A) (Phi : A -> Prop)
  : Prop :=
  match m with
  | Done a evs => T evs /\ Phi a
  | Panicked _ evs => T evs
  | OutOfFuel => False
  end.

Definition traced (Q : Event -> Prop) {A} (m : M A) (Phi : A -> Prop)
  : Prop :=
  tracedBy (Forall Q) m Phi.

(** All the events of a computation satisfy [Q]. *)
Definition calls (Q : Event -> Prop) {A} (m : M A) : Prop :=
  traced Q m (fun _ => True).

(** All the events of a handler satisfy [Q], and so do the events of the
    request it returns. *)
Definition callsHandler (Q : Event -> Prop) (m : M ReduceableLookupFunc)
  : Prop :=
  traced Q m (fun f => calls Q f).

(** The events of a computation, those before a panic included. *)
Definition eventsOf {A} (m : M A) : Trace :=
  match m with
  | Done _ evs | Panicked _ evs => evs
  | OutOfFuel => []
  end.

(** The targets of the sub-requests dispatched in a trace. *)
Definition dispatchTargets (evs : Trace) : list ObjectAndRelation :=
  flat_map (fun e => match e with
                     | EvDispatch sub => [TargetONR sub]
                     | _ => []
                     end) evs.

(** The ONR that [lookupComputed] returns for a resolved one. *)
Definition rewrittenONR (req : LookupRequest) (r : ObjectAndRelation)
  : ObjectAndRelation :=
  mkONR (Namespace r) (ObjectId r) (RefRelation (StartRelation req)).

(** The sub-requests that the handlers of the rewrite build for [req]:
    for an allowed direct type that is not skipped, for a computed
    userset, and for a tuple-to-userset when the start relation is not in
    the TTU stack. *)
Definition handlerRequestOf (req sub : LookupRequest) : Prop :=
  (exists allowedDirectType,
      skipAllowedDirectType req (directStackOf req) allowedDirectType
      = false /\
      sub = inferredLookupRequest req (directStackOf req)
              allowedDirectType)
  \/ (exists cu, sub = computedLookupRequest req cu)
  \/ (exists cu directRelation,
         StackHas (TTUStack req)
           (stackKey (RefNamespace (StartRelation req))
              (RefRelation (StartRelation req))) = false /\
         sub = ttuLookupRequest req cu
                 (stackKey (RefNamespace (StartRelation req))
                    (RefRelation (StartRelation req))) directRelation).

(** The sub-requests that the closure loop of [lookup] builds: for an
    object found that is not the target, while the limit is not
    reached. *)
Definition closureRequestOf (req sub : LookupRequest) : Prop :=
  exists objSet obj,
    Length objSet < Limit req /\
    isTarget req obj = false /\
    sub = closureLookupRequest req objSet obj.

Definition subRequestOf (req sub : LookupRequest) : Prop :=
  handlerRequestOf req sub \/ closureRequestOf req sub.

(** The calls made for [req], with [R] for the sub-requests dispatched:
    a reverse query is on the target and the start relation, a tuple
    query is on the start namespace with usersets to look for and the
    limit of the request, both at the revision of the request. *)
Definition callWith (R : LookupRequest -> Prop) (req : LookupRequest)
  (e : Event) : Prop :=
  match e with
  | EvReadNamespace _ => True
  | EvReverseQuery subject rev ns rel =>
      subject = TargetONR req /\ rev = AtRevision req /\
      ns = RefNamespace (StartRelation req) /\
      rel = RefRelation (StartRelation req)
  | EvQueryTuples ns rev _ usersets limit =>
      ns = RefNamespace (StartRelation req) /\ rev = AtRevision req /\
      usersets <> [] /\ limit = uint64 (Limit req)
  | EvDispatch sub => R sub
  end.

(** The calls of the handlers of the rewrite, and the calls of
    [lookup]. *)
Definition handlerCall (req : LookupRequest) : Event -> Prop :=
  callWith (handlerRequestOf req) req.

Definition lookupCall (req : LookupRequest) : Event -> Prop :=
  callWith (subRequestOf req) req.




(** The targets, other than the target of [req], of the sub-requests
    dispatched in a trace. *)
Definition closureTargets (req : LookupRequest) (evs : Trace)
  : list ObjectAndRelation :=
  filter (fun t => negb (isTarget req t)) (dispatchTargets evs).

(** The trace of a closure loop started on [objSet] and [toCheck]: no
    target is dispatched to twice, none is the target of the request, and
    each one is to be checked or is new to [objSet]. *)
Definition closureTrace (req : LookupRequest) (objSet toCheck : ONRSet)
  (evs : Trace) : Prop :=
  NoDup (dispatchTargets evs) /\
  forall t,
    In t (dispatchTargets evs) ->
    isTarget req t = false /\ (In t toCheck \/ ~ In t objSet).

(** The trace of [lookup]: the calls of the handlers of the rewrite,
    then the calls of the closure loop. *)
Definition lookupTrace (req : LookupRequest) (evs : Trace) : Prop :=
  exists e1 e2,
    evs = e1 ++ e2 /\
    Forall (handlerCall req) e1 /\
    Forall (lookupCall req) e2 /\
    exists objSet toCheck, closureTrace req objSet toCheck e2.

(** The computation returns a value that satisfies [Phi]: it neither
    panics nor runs out of fuel. *)
Definition returning {A} (m : M A) (Phi : A -> Prop) : Prop :=
  match m with
  | Done a _ => Phi a
  | Panicked _ _ | OutOfFuel => False
  end.

Definition returns {A} (m : M A) : Prop := returning m (fun _ => True).

(** A handler returns a request that returns a result. *)
Definition returnsHandler (m : M ReduceableLookupFunc) : Prop :=
  returning m (fun f => returns f).

(** Every exclusion of the rewrite has a child: [LookupExclude] takes
    its first request as the base. *)
Inductive exclusionsHaveBase : UsersetRewrite -> Prop :=
| hasBase_union so :
    (forall rewrite,
        In (Child_UsersetRewrite rewrite) so -> exclusionsHaveBase rewrite) ->
    exclusionsHaveBase (Rewrite_Union so)
| hasBase_intersection so :
    (forall rewrite,
        In (Child_UsersetRewrite rewrite) so -> exclusionsHaveBase rewrite) ->
    exclusionsHaveBase (Rewrite_Intersection so)
| hasBase_exclusion so :
    so <> [] ->
    (forall rewrite,
        In (Child_UsersetRewrite rewrite) so -> exclusionsHaveBase rewrite) ->
    exclusionsHaveBase (Rewrite_Exclusion so)
| hasBase_unknown : exclusionsHaveBase Rewrite_Unknown.

(** A userset that [collectUsersets] may build from a resolved object:
    the object with its own relation or with the ellipsis, the relation
    being an allowed direct relation of the tupleset. *)
Definition usersetOf (typeSystem : NamespaceTypeSystem) (tupleset : string)
  (resolved : list ObjectAndRelation) (userset : ObjectAndRelation) : Prop :=
  exists resolvedObj,
    In resolvedObj resolved /\
    Namespace userset = Namespace resolvedObj /\
    ObjectId userset = ObjectId resolvedObj /\
    (Relation userset = Relation resolvedObj \/
     Relation userset = Ellipsis) /\
    isValid (fst (IsAllowedDirectRelation typeSystem tupleset
                    (Namespace userset) (Relation userset))) = true.

(* ================================================================== *)
(** * A schema, a datastore and requests to evaluate the handler on *)
(* ================================================================== *)

Module Fixture.

Definition alice : ObjectAndRelation := mkONR "user" "alice" Ellipsis.
Definition doc1 : ObjectAndRelation := mkONR "document" "1" "viewer".
Definition doc2 : ObjectAndRelation := mkONR "document" "2" "viewer".

(** An iterator over a list of tuples that never fails. *)
Definition iteratorOf (tuples : list RelationTuple) : TupleIterator :=
  mkIterator (map (fun tpl => (tpl, None)) tuples) None.

Definition matches (ns rel : string) (tpl : RelationTuple) : bool :=
  String.eqb (Namespace (ObjectAndRelationOf tpl)) ns
  && String.eqb (Relation (ObjectAndRelationOf tpl)) rel.

(** A datastore over a list of tuples. *)
Definition memDatastore (tuples : list RelationTuple) : GraphDatastore :=
  {| ReverseQueryTuplesFromSubject := fun subject _ ns rel =>
       (iteratorOf
          (filter (fun tpl => ONR_eqb (User tpl) subject
                              && matches ns rel tpl) tuples), None);
     QueryTuples := fun ns _ rel usersets limit =>
       (iteratorOf
          (firstn (Z.to_nat limit)
             (filter (fun tpl => existsb (ONR_eqb (User tpl)) usersets
                                 && matches ns rel tpl) tuples)), None) |}.

(** [document { relation viewer: user | group#member;
                relation parent: folder;
                relation reader = viewer;
                relation read = viewer + parent->read }] *)
Definition tsDocument : NamespaceTypeSystem :=
  {| IsAllowedDirectRelation := fun rel ns subjectRel =>
       (if (String.eqb rel "viewer" && String.eqb ns "user"
            || String.eqb rel "parent" && String.eqb ns "folder")
           && String.eqb subjectRel Ellipsis
        then DirectRelationValid else DirectRelationNotValid, None);
     AllowedDirectRelations := fun rel =>
       (if String.eqb rel "viewer"
        then [mkRef "user" Ellipsis; mkRef "group" "member"]
        else if String.eqb rel "parent" then [mkRef "folder" Ellipsis]
        else [],
        None);
     HasRelation := fun rel =>
       String.eqb rel "viewer" || String.eqb rel "parent"
       || String.eqb rel "reader" || String.eqb rel "read" |}.

Definition nsDocument : NamespaceDefinition :=
  [ mkRelation "viewer" None;
    mkRelation "parent" None;
    mkRelation "reader"
      (Some (Rewrite_Union [Child_ComputedUserset "viewer"]));
    mkRelation "read"
      (Some (Rewrite_Union [Child_ComputedUserset "viewer";
                            Child_TupleToUserset "parent" "read"])) ].

(** [folder { relation read: user }] *)
Definition tsFolder : NamespaceTypeSystem :=
  {| IsAllowedDirectRelation := fun rel ns subjectRel =>
       (if String.eqb rel "read" && String.eqb ns "user"
           && String.eqb subjectRel Ellipsis
        then DirectRelationValid else DirectRelationNotValid, None);
     AllowedDirectRelations := fun rel =>
       (if String.eqb rel "read" then [mkRef "user" Ellipsis] else [], None);
     HasRelation := fun rel => String.eqb rel "read" |}.

Definition nsFolder : NamespaceDefinition := [ mkRelation "read" None ].

Definition tsUnknown : NamespaceTypeSystem :=
  {| IsAllowedDirectRelation := fun _ _ _ =>
       (UnknownIfRelationAllowed, Some (ErrExternal "unknown namespace"));
     AllowedDirectRelations := fun _ =>
       ([], Some (ErrExternal "unknown namespace"));
     HasRelation := fun _ => false |}.

Definition nsm : NamespaceManager :=
  {| ReadNamespaceAndTypes := fun ns =>
       if String.eqb ns "document" then (nsDocument, tsDocument, None)
       else if String.eqb ns "folder" then (nsFolder, tsFolder, None)
       else ([], tsUnknown, Some (ErrExternal "unknown namespace")) |}.

Definition folderF : ObjectAndRelation := mkONR "folder" "f" "read".

(** alice views the documents 1 and 2 and reads the folder f, which is
    the parent of the document 3. *)
Definition tuples : list RelationTuple :=
  [ mkTuple doc1 alice;
    mkTuple doc2 alice;
    mkTuple folderF alice;
    mkTuple (mkONR "document" "3" "parent") (mkONR "folder" "f" Ellipsis) ].

Definition isRequest (ns rel : string) (sub : LookupRequest) : bool :=
  String.eqb (RefNamespace (StartRelation sub)) ns
  && String.eqb (RefRelation (StartRelation sub)) rel
  && ONR_eqb (TargetONR sub) alice.

(** A dispatcher that answers from a table: what alice reaches through
    [folder#read] and through [document#viewer]; nothing else. *)
Definition dTable : Dispatcher :=
  {| Lookup := fun sub =>
       if isRequest "folder" "read" sub then resultObjects [folderF]
       else if isRequest "document" "viewer" sub
            then resultObjects [doc1; doc2]
            else resultObjects [] |}.

(** A dispatcher that fails on the sub-requests for the namespace
    [document]. *)
Definition dFails : Dispatcher :=
  {| Lookup := fun sub =>
       if String.eqb (RefNamespace (StartRelation sub)) "document"
       then resultErr (Some (ErrExternal "unavailable"))
       else resultObjects [] |}.

Definition cl : concurrentLookup :=
  mkConcurrentLookup dTable (memDatastore tuples) nsm.
Definition clFails : concurrentLookup :=
  mkConcurrentLookup dFails (memDatastore tuples) nsm.

(** Results are received in the order of the requests. *)
Definition inOrder : forall A : Type, list A -> list A := fun _ l => l.

(** Who can view which documents: alice, up to ten of them. *)
Definition reqViewer : LookupRequest :=
  {| TargetONR := alice;
     StartRelation := mkRef "document" "viewer";
     Limit := 10;
     AtRevision := 0;
     DepthRemaining := 5;
     DirectStack := [];
     TTUStack := [] |}.

(** Which documents alice can read, through [viewer] or through the
    parent folder. *)
Definition reqRead : LookupRequest :=
  {| TargetONR := alice;
     StartRelation := mkRef "document" "read";
     Limit := 10;
     AtRevision := 0;
     DepthRemaining := 5;
     DirectStack := [];
     TTUStack := [] |}.

(** Which documents the viewers of document 1 can view: the start
    relation is the relation of the target. *)
Definition reqSelf : LookupRequest :=
  {| TargetONR := doc1;
     StartRelation := mkRef "document" "viewer";
     Limit := 10;
     AtRevision := 0;
     DepthRemaining := 5;
     DirectStack := [];
     TTUStack := [] |}.

(** The same request, at depth zero. *)
Definition reqDepthZero : LookupRequest :=
  {| TargetONR := alice;
     StartRelation := mkRef "document" "viewer";
     Limit := 10;
     AtRevision := 0;
     DepthRemaining := 0;
     DirectStack := [];
     TTUStack := [] |}.

(** The same request, reached through its own start relation: the start
    relation is in the direct stack and in the TTU stack. *)
Definition reqInStacks : LookupRequest :=
  {| TargetONR := alice;
     StartRelation := mkRef "document" "viewer";
     Limit := 10;
     AtRevision := 0;
     DepthRemaining := 5;
     DirectStack := [stackKey "document" "viewer"];
     TTUStack := [stackKey "document" "viewer"] |}.

(** Who of the members of a group can view which documents, asked on
    behalf of [group#member]: that relation is in the direct stack. *)
Definition reqGroupInStack : LookupRequest :=
  {| TargetONR := mkONR "group" "eng" "member";
     StartRelation := mkRef "document" "viewer";
     Limit := 10;
     AtRevision := 0;
     DepthRemaining := 4;
     DirectStack := [stackKey "group" "member"];
     TTUStack := [] |}.

(** A datastore whose reverse query yields one tuple and then fails. *)
Definition connectionLost : error := ErrExternal "connection lost".

Definition dsFailsAtEnd : GraphDatastore :=
  {| ReverseQueryTuplesFromSubject := fun _ _ _ _ =>
       (mkIterator [(mkTuple doc1 alice, None)] (Some connectionLost), None);
     QueryTuples := fun _ _ _ _ _ => (iteratorOf [], None) |}.

Definition clFailsAtEnd : concurrentLookup :=
  mkConcurrentLookup dTable dsFailsAtEnd nsm.

(** Two requests that resolve the same two documents. *)
Definition twoDocuments : ReduceableLookupFunc :=
  ResolvedObjectsFn [doc1; doc2].
Definition twoDocumentsReversed : ReduceableLookupFunc :=
  ResolvedObjectsFn [doc2; doc1].

(** A request that resolves nothing, and one that fails. *)
Definition nothing : ReduceableLookupFunc := ResolvedObjectsFn [].
Definition failing : ReduceableLookupFunc :=
  ret (resultErr (Some connectionLost)).

End Fixture.

(* ================================================================== *)
(** * Lemmas on ONR sets *)
(* ================================================================== *)

Lemma ONR_eqb_eq (a b : ObjectAndRelation) : ONR_eqb a b = true <-> a = b.
Proof.
  unfold ONR_eqb. destruct a as [n1 o1 r1], b as [n2 o2 r2]; simpl.
  rewrite !andb_true_iff, !String.eqb_eq. split.
  - intros [[-> ->] ->]. reflexivity.
  - intros E. injection E as -> -> ->. auto.
Qed.

Lemma ONR_eqb_refl (a : ObjectAndRelation) : ONR_eqb a a = true.
Proof. apply ONR_eqb_eq. reflexivity. Qed.

Lemma Has_In (s : ONRSet) (o : ObjectAndRelation) : Has s o = true <-> In o s.
Proof.
  unfold Has. rewrite existsb_exists. split.
  - intros [x [Hx E]]. apply ONR_eqb_eq in E. subst. exact Hx.
  - intros Hin. exists o. split; [exact Hin | apply ONR_eqb_refl].
Qed.

Lemma Has_false (s : ONRSet) (o : ObjectAndRelation) :
  Has s o = false <-> ~ In o s.
Proof.
  rewrite <- Has_In. destruct (Has s o); split; congruence.
Qed.

Lemma Add_In (s : ONRSet) (o x : ObjectAndRelation) :
  In x (fst (Add s o)) <-> In x s \/ x = o.
Proof.
  unfold Add. destruct (Has s o) eqn:E; simpl.
  - apply Has_In in E. split; [auto | intros [?| ->]; auto].
  - rewrite in_app_iff. simpl. intuition.
Qed.

Lemma Add_NoDup (s : ONRSet) (o : ObjectAndRelation) :
  NoDup s -> NoDup (fst (Add s o)).
Proof.
  intros Hs. unfold Add. destruct (Has s o) eqn:E; simpl; [exact Hs|].
  apply Has_false in E.
  apply NoDup_app; [exact Hs | repeat constructor; simpl; tauto |].
  intros a Ha [<-|[]]. exact (E Ha).
Qed.

Lemma Add_extends (s : ONRSet) (o : ObjectAndRelation) :
  exists ext, fst (Add s o) = s ++ ext.
Proof.
  unfold Add. destruct (Has s o); simpl.
  - exists []. now rewrite app_nil_r.
  - now exists [o].
Qed.

Lemma Update_In (l : list ObjectAndRelation) :
  forall (s : ONRSet) x, In x (Update s l) <-> In x s \/ In x l.
Proof.
  unfold Update. induction l as [|o l IH]; intros s x; simpl.
  - tauto.
  - rewrite IH, Add_In. intuition.
Qed.

Lemma Update_NoDup (l : list ObjectAndRelation) :
  forall s : ONRSet, NoDup s -> NoDup (Update s l).
Proof.
  unfold Update. induction l as [|o l IH]; intros s Hs; simpl.
  - exact Hs.
  - apply IH, Add_NoDup, Hs.
Qed.

Lemma Update_extends (l : list ObjectAndRelation) :
  forall s : ONRSet, exists ext, Update s l = s ++ ext.
Proof.
  unfold Update. induction l as [|o l IH]; intros s; simpl.
  - exists []. now rewrite app_nil_r.
  - destruct (Add_extends s o) as [e1 E1]. rewrite E1.
    destruct (IH (s ++ e1)) as [e2 E2]. rewrite E2.
    exists (e1 ++ e2). now rewrite app_assoc.
Qed.



Lemma Intersect_In (s other : ONRSet) (x : ObjectAndRelation) :
  In x (Intersect s other) <-> In x s /\ In x other.
Proof. unfold Intersect. now rewrite filter_In, Has_In. Qed.

Lemma Subtract_In (s other : ONRSet) (x : ObjectAndRelation) :
  In x (Subtract s other) <-> In x s /\ ~ In x other.
Proof.
  unfold Subtract. now rewrite filter_In, negb_true_iff, Has_false.
Qed.

Lemma filter_NoDup {A} (p : A -> bool) (l : list A) :
  NoDup l -> NoDup (filter p l).
Proof.
  induction 1 as [|a l Ha Hl IH]; simpl; [constructor|].
  destruct (p a); [|exact IH].
  constructor; [|exact IH]. rewrite filter_In. tauto.
Qed.

Lemma firstn_In_incl {A} (n : nat) (l : list A) (x : A) :
  In x (firstn n l) -> In x l.
Proof.
  revert l. induction n as [|n IH]; intros [|a l]; simpl; try tauto.
  intros [->|Hin]; auto.
Qed.

Lemma firstn_NoDup {A} (n : nat) (l : list A) :
  NoDup l -> NoDup (firstn n l).
Proof.
  revert l. induction n as [|n IH]; intros l Hl; simpl; [constructor|].
  destruct Hl as [|a l Ha Hl]; constructor.
  - intros Hin. apply Ha. eapply firstn_In_incl; eauto.
  - now apply IH.
Qed.

(** ** limitedSlice *)

Lemma limitedSlice_Some (slice : list ObjectAndRelation) (limit : Z) l :
  limitedSlice slice limit = Some l ->
  l = firstn (Z.to_nat limit) slice /\ Z.of_nat (length l) <= limit.
Proof.
  unfold limitedSlice.
  destruct (Z.gtb_spec (Z.of_nat (length slice)) limit) as [Hgt|Hle].
  - destruct (Z.ltb_spec limit 0) as [|Hpos]; [discriminate|].
    intros [= <-]. split; [reflexivity|].
    rewrite length_firstn. lia.
  - intros [= <-]. split; [|exact Hle].
    symmetry. apply firstn_all2. lia.
Qed.

Lemma limitedSlice_nonneg (slice : list ObjectAndRelation) (limit : Z) :
  0 <= limit ->
  limitedSlice slice limit = Some (firstn (Z.to_nat limit) slice).
Proof.
  intros Hpos. unfold limitedSlice.
  destruct (Z.gtb_spec (Z.of_nat (length slice)) limit) as [Hgt|Hle].
  - destruct (Z.ltb_spec limit 0); [lia | reflexivity].
  - f_equal. symmetry. apply firstn_all2. lia.
Qed.

Lemma limitedSlice_neg (slice : list ObjectAndRelation) (limit : Z) :
  limit < 0 -> limitedSlice slice limit = None.
Proof.
  intros Hneg. unfold limitedSlice.
  destruct (Z.gtb_spec (Z.of_nat (length slice)) limit) as [Hgt|Hle];
    [|lia].
  destruct (Z.ltb_spec limit 0); [reflexivity | lia].
Qed.

(* ================================================================== *)
(** * Reasoning on computations *)
(* ================================================================== *)

Arguments post {A} m Phi : simpl never.
Arguments bind {A B} m f : simpl never.
Arguments ret {A} a : simpl never.
Arguments emit e : simpl never.
Arguments panic {A} msg : simpl never.

Lemma post_ret {A} (a : A) (Phi : A -> Trace -> Prop) :
  Phi a [] -> post (ret a) Phi.
Proof. exact (fun H => H). Qed.

Lemma post_emit (e : Event) (Phi : unit -> Trace -> Prop) :
  Phi tt [e] -> post (emit e) Phi.
Proof. exact (fun H => H). Qed.

Lemma post_panic {A} (msg : string) (Phi : A -> Trace -> Prop) :
  post (panic msg) Phi.
Proof. exact I. Qed.

Lemma post_bind {A B} (m : M A) (f : A -> M B) (Phi : B -> Trace -> Prop) :
  post m (fun a e1 => post (f a) (fun b e2 => Phi b (e1 ++ e2))) ->
  post (bind m f) Phi.
Proof.
  unfold post, bind. destruct m as [a e1|msg e1|]; [|trivial|trivial].
  destruct (f a); trivial.
Qed.

Lemma post_mono {A} (m : M A) (Phi Psi : A -> Trace -> Prop) :
  (forall a evs, Phi a evs -> Psi a evs) -> post m Phi -> post m Psi.
Proof. unfold post. destruct m; auto. Qed.

Lemma post_Done {A} (m : M A) (Phi : A -> Trace -> Prop) a evs :
  post m Phi -> m = Done a evs -> Phi a evs.
Proof. intros Hp ->. exact Hp. Qed.

Lemma post_ResolveError (err : option error)
  (Phi : ReduceableLookupFunc -> Trace -> Prop) :
  (forall e, err = Some e -> Phi (ret (resultErr (Some e))) []) ->
  post (ResolveError err) Phi.
Proof.
  intros Hphi. destruct err as [e|]; unfold ResolveError.
  - apply post_ret. now apply Hphi.
  - apply post_panic.
Qed.

Lemma bind_Done {A B} (m : M A) (f : A -> M B) b evs :
  bind m f = Done b evs ->
  exists a e1 e2, m = Done a e1 /\ f a = Done b e2 /\ evs = e1 ++ e2.
Proof.
  unfold bind. destruct m as [a e1|msg e1|]; try discriminate.
  destruct (f a) as [b' e2|msg e2|] eqn:E; try discriminate.
  intros [= <- <-]. now exists a, e1, e2.
Qed.

(** A request that sends an error is good, whatever is asked of the
    objects. *)
Lemma good_error Q H P (res : LookupResult) :
  Err res <> None -> good Q H P (ret res).
Proof.
  intros Hne. split; [constructor|]. intros _ E. contradiction.
Qed.

Lemma good_objects Q (H : Prop) (P : ObjectAndRelation -> Prop) l :
  (H -> Forall P l) -> good Q H P (ret (resultObjects l)).
Proof. intros Hl. split; [constructor|]. intros h _. exact (Hl h). Qed.

Lemma good_weaken Q (H H' : Prop) P f :
  (H' -> H) -> good Q H P f -> good Q H' P f.
Proof.
  intros Himp. unfold good. apply post_mono.
  intros res evs [Hev Hres]. split; auto.
Qed.

Lemma goodHandler_weaken Q (H H' : Prop) P m :
  (H' -> H) -> goodHandler Q H P m -> goodHandler Q H' P m.
Proof.
  intros Himp. unfold goodHandler. apply post_mono.
  intros f evs [Hev Hf]. split; [exact Hev|].
  eapply good_weaken; eauto.
Qed.

Lemma goodHandler_ResolveError Q H P (err : option error) :
  goodHandler Q H P (ResolveError err).
Proof.
  apply post_ResolveError. intros e _. split; [constructor|].
  apply good_error. discriminate.
Qed.

Lemma Forall_Update (P : ObjectAndRelation -> Prop) (s : ONRSet) l :
  Forall P s -> Forall P l -> Forall P (Update s l).
Proof.
  rewrite !Forall_forall. intros Hs Hl x Hx.
  apply Update_In in Hx. destruct Hx; auto.
Qed.

Lemma Forall_limitedSlice (P : ObjectAndRelation -> Prop) slice limit l :
  limitedSlice slice limit = Some l -> Forall P slice -> Forall P l.
Proof.
  intros E. apply limitedSlice_Some in E. destruct E as [-> _].
  rewrite !Forall_forall. intros Hs x Hx. eauto using firstn_In_incl.
Qed.

(* ------------------------------------------------------------------ *)
(** ** The combinators keep requests good *)

Section GoodCombinators.

Variable Q : Event -> Prop.
Variable H : Prop.
Variable P : ObjectAndRelation -> Prop.

Lemma runAll_good (requests : list ReduceableLookupFunc) :
  Forall (good Q H P) requests ->
  post (runAll requests)
    (fun results evs => Forall Q evs /\ Forall (goodResult H P) results).
Proof.
  induction 1 as [|f requests Hf _ IH]; simpl.
  - apply post_ret. split; constructor.
  - apply post_bind. revert Hf. unfold good. apply post_mono.
    intros res e1 [He1 Hres].
    apply post_bind. revert IH. apply post_mono.
    intros results e2 [He2 Hresults].
    apply post_ret. rewrite app_nil_r. split.
    + apply Forall_app. split; assumption.
    + constructor; assumption.
Qed.

Lemma limitedResult_good (objects : ONRSet) (limit : Z) :
  (H -> Forall P objects) ->
  post (limitedResult (AsSlice objects) limit)
    (fun res evs => evs = [] /\ (goodResult H P) res).
Proof.
  intros Hobj. unfold limitedResult.
  destruct (limitedSlice (AsSlice objects) limit) as [l|] eqn:E;
    [|exact I].
  apply post_ret. split; [reflexivity|]. intros h _. simpl.
  eapply Forall_limitedSlice; eauto.
Qed.

Lemma anyLoop_good (limit : Z) (results : list LookupResult) :
  Forall (goodResult H P) results ->
  forall objects : ONRSet,
    (H -> Forall P objects) ->
    post (anyLoop limit results objects)
      (fun res evs => evs = [] /\ (goodResult H P) res).
Proof.
  induction 1 as [|result results Hres _ IH]; intros objects Hobj; simpl.
  - now apply limitedResult_good.
  - destruct (Err result) as [e|] eqn:E.
    + apply post_ret. split; [reflexivity|]. intros _ Hn. discriminate.
    + assert (Hup : H -> Forall P (Update objects (ResolvedObjects result))).
      { intros h. apply Forall_Update; auto. }
      destruct (Length _ >=? limit).
      * now apply limitedResult_good.
      * now apply IH.
Qed.

Lemma LookupAny_good (limit : Z) (requests : list ReduceableLookupFunc) :
  Forall (good Q H P) requests -> good Q H P (LookupAny limit requests).
Proof.
  intros Hreq. unfold good, LookupAny. apply post_bind.
  generalize (runAll_good Hreq). apply post_mono.
  intros results e1 [He1 Hresults].
  generalize (@anyLoop_good limit results Hresults NewONRSet
                (fun _ => Forall_nil P)).
  apply post_mono. intros res e2 [-> Hres]. rewrite app_nil_r.
  split; assumption.
Qed.

Lemma Forall_Intersect (s other : ONRSet) :
  Forall P s -> Forall P (Intersect s other).
Proof.
  rewrite !Forall_forall. intros Hs x Hx.
  apply Intersect_In in Hx. now apply Hs.
Qed.

Lemma Forall_Subtract (s other : ONRSet) :
  Forall P s -> Forall P (Subtract s other).
Proof.
  rewrite !Forall_forall. intros Hs x Hx.
  apply Subtract_In in Hx. now apply Hs.
Qed.

Lemma allLoop_good (arrived : list LookupResult) :
  Forall (goodResult H P) arrived ->
  forall (first : bool) (objSet : ONRSet),
    (H -> Forall P objSet) ->
    (goodResult H P) (allLoop arrived first objSet).
Proof.
  induction 1 as [|result arrived Hres _ IH]; intros first objSet Hobj;
    simpl.
  - intros h _. simpl. auto.
  - destruct (Err result) as [e|] eqn:E; [exact Hres|].
    match goal with |- context [Length ?s =? 0] => set (objSet' := s) end.
    assert (Hobj' : H -> Forall P objSet').
    { intros h. subst objSet'. destruct first.
      - apply Forall_Update; [constructor | auto].
      - apply Forall_Intersect; auto. }
    destruct (Length objSet' =? 0).
    + intros _ _. constructor.
    + now apply IH.
Qed.

Lemma excludeLoop_good (limit : Z) (arrived : list (bool * LookupResult)) :
  Forall (fun tagged => (goodResult H P) (snd tagged)) arrived ->
  forall objSet excSet : ONRSet,
    (H -> Forall P objSet) ->
    post (excludeLoop limit arrived objSet excSet)
      (fun res evs => evs = [] /\ (goodResult H P) res).
Proof.
  induction 1 as [|[isBase result] arrived Hres _ IH];
    intros objSet excSet Hobj; simpl.
  - apply limitedResult_good. intros h. apply Forall_Subtract; auto.
  - simpl in Hres. destruct (Err result) as [e|] eqn:E.
    + apply post_ret. split; [reflexivity | exact Hres].
    + destruct isBase; apply IH; auto.
      intros h. apply Forall_Update; auto.
Qed.

Variable arrival : forall A : Type, list A -> list A.
Hypothesis arrival_ok : H -> arrivalPermutes arrival.

Lemma arrival_Forall {A} (R : A -> Prop) (l : list A) :
  Forall (fun x => H -> R x) l -> Forall (fun x => H -> R x) (arrival l).
Proof.
  intros Hl. rewrite Forall_forall in *. intros x Hx h.
  apply Hl; [|exact h].
  eapply Permutation_in; [apply (arrival_ok h) | exact Hx].
Qed.

Lemma LookupAll_good (limit : Z) (requests : list ReduceableLookupFunc) :
  Forall (good Q H P) requests ->
  good Q H P (LookupAll arrival limit requests).
Proof.
  intros Hreq. unfold good, LookupAll.
  destruct requests as [|f requests].
  - apply post_ret. split; constructor.
  - apply post_bind. generalize (runAll_good Hreq). apply post_mono.
    intros results e1 [He1 Hresults]. apply post_ret.
    rewrite app_nil_r. split; [exact He1|].
    apply allLoop_good; [|constructor].
    apply arrival_Forall with (R := fun r => Err r = None -> _).
    exact Hresults.
Qed.

Lemma LookupExclude_good (limit : Z)
  (requests : list ReduceableLookupFunc) :
  Forall (good Q H P) requests ->
  good Q H P (LookupExclude arrival limit requests).
Proof.
  intros Hreq. unfold good, LookupExclude.
  destruct requests as [|f requests]; [exact I|].
  inversion Hreq as [|? ? Hf Hrest]; subst.
  apply post_bind. revert Hf. unfold good. apply post_mono.
  intros base e1 [He1 Hbase].
  apply post_bind. generalize (runAll_good Hrest). apply post_mono.
  intros subs e2 [He2 Hsubs].
  assert (Harr : Forall (fun tagged => (goodResult H P) (snd tagged))
                   (arrival ((true, base)
                             :: map (fun sub => (false, sub)) subs))).
  { apply arrival_Forall
      with (R := fun tagged => Err (snd tagged) = None -> _).
    constructor; [exact Hbase|].
    rewrite Forall_map. exact Hsubs. }
  generalize (@excludeLoop_good limit _ Harr NewONRSet NewONRSet
                (fun _ => Forall_nil P)).
  apply post_mono. intros res e3 [-> Hres]. rewrite app_nil_r.
  split; [|exact Hres]. apply Forall_app. now split.
Qed.

End GoodCombinators.

(* ================================================================== *)
(** * The loops *)
(* ================================================================== *)

Ltac mstep :=
  lazymatch goal with
  | |- post (bind _ _) _ => apply post_bind
  | |- post (ret _) _ => apply post_ret
  | |- post (emit _) _ => apply post_emit
  | |- post (panic _) _ => apply post_panic
  end;
  cbv beta.

(** A [drain] loop that returns has sent an error; one that ends has
    collected ONRs that the body made. *)
Lemma drain_spec (P : ObjectAndRelation -> Prop) (limit : Z)
  (body : RelationTuple -> error + ObjectAndRelation)
  (errAtEnd : option error) (items : list (RelationTuple * option error)) :
  (forall tpl itErr onr,
      In (tpl, itErr) items -> body tpl = inr onr -> P onr) ->
  forall objects : ONRSet,
    Forall P objects ->
    match drain limit body items errAtEnd objects with
    | IterReturn result => Err result <> None
    | IterDone objects' _ => Forall P objects'
    end.
Proof.
  induction items as [|[tpl itErr] items IH]; intros Hbody objects Hobj;
    simpl.
  - exact Hobj.
  - destruct itErr as [e|]; [simpl; discriminate|].
    destruct (body tpl) as [e|onr] eqn:Eb; [simpl; discriminate|].
    assert (Hadd : Forall P (fst (Add objects onr))).
    { rewrite Forall_forall in *. intros x Hx. apply Add_In in Hx.
      destruct Hx as [Hx| ->]; [auto|].
      apply (Hbody tpl None); [left; reflexivity | exact Eb]. }
    destruct (Length _ >=? limit); [exact Hadd|].
    apply IH; [|exact Hadd].
    intros tpl' e' onr' Hin. apply (Hbody tpl' e'). now right.
Qed.

(** A [drain] loop only ends with an error of the iterator pending when
    the iterator was exhausted. *)
Lemma drain_pending (limit : Z)
  (body : RelationTuple -> error + ObjectAndRelation)
  (errAtEnd : option error) (items : list (RelationTuple * option error)) :
  forall (objects objects' : ONRSet) e,
    drain limit body items errAtEnd objects = IterDone objects' (Some e) ->
    errAtEnd = Some e.
Proof.
  induction items as [|[tpl itErr] items IH]; intros objects objects' e;
    simpl.
  - now intros [= _ ->].
  - destruct itErr; [discriminate|].
    destruct (body tpl); [discriminate|].
    destruct (Length _ >=? limit); [discriminate|]. apply IH.
Qed.

Lemma observe_error (sent : option LookupResult) (result : LookupResult) :
  sentError sent -> Err (observe sent result) = None ->
  sent = None /\ Err result = None.
Proof.
  intros Hs. destruct sent as [first|]; simpl; [|auto].
  intros E. now destruct (Hs first eq_refl).
Qed.

Lemma collectUsersets_spec (typeSystem : NamespaceTypeSystem)
  (tupleset : string) (resolved : list ObjectAndRelation) :
  forall usersets sent,
    sentError sent ->
    match collectUsersets typeSystem tupleset resolved usersets sent with
    | UsersetsStop observed => Err observed <> None
    | UsersetsDone _ sent' => sentError sent'
    end.
Proof.
  induction resolved as [|r resolved IH]; intros usersets sent Hs; simpl.
  - exact Hs.
  - destruct (IsAllowedDirectRelation typeSystem tupleset (Namespace r)
                (Relation r)) as [allowedDirect err].
    destruct err as [e|].
    + destruct sent as [first|]; simpl; [now apply Hs | discriminate].
    + destruct (negb (Relation r =? Ellipsis)%string); [|now apply IH].
      destruct (IsAllowedDirectRelation typeSystem tupleset (Namespace r)
                  Ellipsis) as [allowedEllipsis err].
      destruct err as [e|].
      * destruct sent as [first|]; [now apply Hs|].
        apply IH. intros first [= <-]. discriminate.
      * destruct sent as [first|]; now apply IH.
Qed.

Lemma rewriteResolved_spec (req : LookupRequest)
  (resolved : list ObjectAndRelation) :
  forall rewritten out,
    rewriteResolved req resolved rewritten = inr out ->
    Forall (ofStartRelation req) rewritten ->
    Forall (ofStartRelation req) out.
Proof.
  induction resolved as [|r resolved IH]; intros rewritten out; simpl.
  - now intros [= <-].
  - destruct (String.eqb_spec (Namespace r)
                (RefNamespace (StartRelation req))) as [E|]; simpl;
      [|discriminate].
    intros Hrw Hacc. eapply IH; [exact Hrw|].
    apply Forall_app. split; [exact Hacc|].
    constructor; [|constructor]. split; [exact E | reflexivity].
Qed.

(** ** The loop of [lookup] *)

Lemma addNew_length (objs : list ObjectAndRelation) :
  forall (objSet toCheck os tc : ONRSet),
    addNew objs objSet toCheck = (os, tc) ->
    (length objSet <= length os)%nat /\
    (length tc + length objSet <= length os + length toCheck)%nat.
Proof.
  induction objs as [|obj objs IH]; intros objSet toCheck os tc; simpl.
  - intros [= <- <-]. lia.
  - unfold Add at 1. destruct (Has objSet obj).
    + apply IH.
    + intros E. apply IH in E. rewrite length_app in E. simpl in E.
      assert (length (fst (Add toCheck obj)) <= S (length toCheck))%nat.
      { unfold Add. destruct (Has toCheck obj); simpl;
          [|rewrite length_app; simpl]; lia. }
      lia.
Qed.

Lemma addNew_objSet (objs : list ObjectAndRelation) :
  forall (objSet toCheck : ONRSet),
    fst (addNew objs objSet toCheck) = Update objSet objs.
Proof.
  unfold Update.
  induction objs as [|obj objs IH]; intros objSet toCheck; simpl.
  - reflexivity.
  - destruct (Add objSet obj) as [objSet' isNew]. simpl.
    destruct isNew; apply IH.
Qed.

Section ClosureLoop.

Variable arrival : forall A : Type, list A -> list A.
Variable cl : concurrentLookup.
Variable req : LookupRequest.
Variable err : option error.
Variable Q : Event -> Prop.
Variable H : Prop.
Variable P : ObjectAndRelation -> Prop.
Variable Inv : ONRSet -> Prop.

Hypothesis dispatch_good :
  forall objSet obj,
    good Q H P (dispatch cl (closureLookupRequest req objSet obj)).
Hypothesis Inv_Update :
  forall objSet objs,
    Inv objSet -> (H -> Forall P objs) -> Inv (Update objSet objs).

Lemma closureLoop_spec (fuel : nat) :
  forall objSet toCheck : ONRSet,
    (closureMeasure req objSet toCheck < fuel)%nat ->
    Inv objSet ->
    post (closureLoop cl fuel req err objSet toCheck)
      (fun flow evs =>
         Forall Q evs /\
         match flow with
         | Fallthrough os => Inv os
         | Returned f =>
             exists e, err = Some e /\ f = ret (resultErr (Some e))
         end).
Proof.
  induction fuel as [|fuel IH]; intros objSet toCheck Hfuel Hinv;
    [lia|].
  cbn [closureLoop].
  destruct (Z.eqb_spec (Length toCheck) 0) as [Hempty|Hnonempty];
    cbn [orb].
  { mstep. split; [constructor | exact Hinv]. }
  destruct (Z.geb_spec (Length objSet) (Limit req)) as [Hfull|Hroom].
  { mstep. split; [constructor | exact Hinv]. }
  match goal with |- context [(length ?l =? 0)%nat] =>
    set (requests := l) end.
  destruct (length requests =? 0)%nat.
  { mstep. split; [constructor | exact Hinv]. }
  mstep.
  assert (Hreq : Forall (good Q H P) requests).
  { subst requests. rewrite Forall_map. apply Forall_forall.
    intros obj _. apply dispatch_good. }
  generalize (LookupAny_good (Limit req) Hreq). apply post_mono.
  intros result e1 [He1 Hres].
  destruct (Err result) as [e|] eqn:E.
  - mstep. apply post_ResolveError. intros e' ->. mstep.
    rewrite !app_nil_r. split; [exact He1|]. now exists e'.
  - destruct (addNew (ResolvedObjects result) objSet NewONRSet)
      as [os tc] eqn:Enew.
    pose proof (addNew_length _ _ _ Enew) as [Hlen1 Hlen2].
    pose proof (addNew_objSet (ResolvedObjects result) objSet NewONRSet)
      as Hos.
    rewrite Enew in Hos. simpl in Hos.
    assert (Hmeasure : (closureMeasure req os tc < fuel)%nat).
    { unfold closureMeasure, Length in *. simpl in Hlen2.
      destruct toCheck; [simpl in Hnonempty; lia|].
      destruct tc; simpl in *; lia. }
    assert (Hinv' : Inv os).
    { rewrite Hos. apply Inv_Update; [exact Hinv|].
      intros h. now apply Hres. }
    generalize (IH os tc Hmeasure Hinv'). apply post_mono.
    intros flow e2 [He2 Hflow]. split; [|exact Hflow].
    apply Forall_app. now split.
Qed.

End ClosureLoop.

(* ================================================================== *)
(** * The handlers return good requests *)
(* ================================================================== *)

Section GoodDirect.

Variable cl : concurrentLookup.
Variable req : LookupRequest.
Variable Q : Event -> Prop.
Variable allowedDirect : list RelationReference.

Hypothesis Q_direct : forall e, directCall allowedDirect req e -> Q e.

Lemma dispatch_event (sub : LookupRequest) :
  Q (EvDispatch sub) ->
  good Q True (fun _ => True) (dispatch cl sub).
Proof.
  intros Hq. unfold good, dispatch. mstep. mstep. mstep.
  split.
  - repeat constructor; assumption.
  - intros _ _. apply Forall_forall. trivial.
Qed.

Lemma LookupAny_dispatch_event (limit : Z) (sub : LookupRequest) :
  Q (EvDispatch sub) ->
  post (LookupAny limit [dispatch cl sub]) (fun _ evs => Forall Q evs).
Proof.
  intros Hq.
  assert (Hgood : Forall (good Q True (fun _ => True)) [dispatch cl sub]).
  { constructor; [|constructor]. now apply dispatch_event. }
  generalize (LookupAny_good limit Hgood). apply post_mono.
  now intros res evs [Hev _].
Qed.

Lemma directRequest_good :
  good Q (datastoreFilters (cl_ds cl)) (ofStartRelation req)
    (directRequest cl req).
Proof.
  unfold good, directRequest. mstep. mstep.
  pose proof (@drain_spec (ofStartRelation req) (Limit req) addObject
                (ErrAtEnd (fst (ReverseQueryTuplesFromSubject (cl_ds cl)
                   (TargetONR req) (AtRevision req)
                   (RefNamespace (StartRelation req))
                   (RefRelation (StartRelation req)))))
                (Items (fst (ReverseQueryTuplesFromSubject (cl_ds cl)
                   (TargetONR req) (AtRevision req)
                   (RefNamespace (StartRelation req))
                   (RefRelation (StartRelation req)))))) as Hspec.
  pose proof (fun h : datastoreFilters (cl_ds cl) =>
                proj1 h (TargetONR req) (AtRevision req)
                  (RefNamespace (StartRelation req))
                  (RefRelation (StartRelation req))) as Hfilter.
  destruct (ReverseQueryTuplesFromSubject _ _ _ _ _) as [it err].
  simpl in Hspec, Hfilter.
  assert (Hdrain : datastoreFilters (cl_ds cl) ->
            match drain (Limit req) addObject (Items it) (ErrAtEnd it)
                    NewONRSet with
            | IterReturn result => Err result <> None
            | IterDone objects _ => Forall (ofStartRelation req) objects
            end).
  { intros h. apply Hspec; [|constructor].
    intros tpl itErr onr Hin [= <-]. exact (Hfilter h _ _ Hin). }
  clear Hspec Hfilter.
  assert (Hev : Forall Q
            ([EvReverseQuery (TargetONR req) (AtRevision req)
                (RefNamespace (StartRelation req))
                (RefRelation (StartRelation req))] ++ [])).
  { constructor; [|constructor]. apply Q_direct. simpl. auto. }
  destruct err as [e|].
  { mstep. split; [exact Hev|]. intros _ [=]. }
  destruct (drain _ _ _ _ _) as [result|objects itErr].
  - mstep. split; [exact Hev|]. intros h Hn. destruct (Hdrain h Hn).
  - destruct itErr as [e|]; mstep; (split; [exact Hev|]); intros h _.
    + constructor.
    + exact (Hdrain h).
Qed.

Lemma inferredRequest_good (allowedDirectType : RelationReference) :
  In allowedDirectType allowedDirect ->
  skipAllowedDirectType req (directStackOf req) allowedDirectType = false ->
  good Q (datastoreFilters (cl_ds cl)) (ofStartRelation req)
    (inferredRequest cl req (directStackOf req) allowedDirectType).
Proof.
  intros Hallowed Hskip. unfold good, inferredRequest. mstep.
  assert (Hq : Q (EvDispatch (inferredLookupRequest req (directStackOf req)
                                allowedDirectType))).
  { apply Q_direct. simpl. now exists allowedDirectType. }
  generalize (@LookupAny_dispatch_event noLimit _ Hq).
  apply post_mono. intros result e1 He1.
  destruct (Err result) as [e|] eqn:E.
  { mstep. rewrite app_nil_r. split; [exact He1|]. congruence. }
  destruct (0 <? Z.of_nat (length (ResolvedObjects result))).
  2:{ mstep. rewrite app_nil_r. split; [exact He1|].
      intros _ _. constructor. }
  mstep. mstep.
  pose proof (@drain_spec (ofStartRelation req) (Limit req) addObject
                (ErrAtEnd (fst (QueryTuples (cl_ds cl)
                   (RefNamespace (StartRelation req)) (AtRevision req)
                   (RefRelation (StartRelation req))
                   (ResolvedObjects result) (uint64 (Limit req)))))
                (Items (fst (QueryTuples (cl_ds cl)
                   (RefNamespace (StartRelation req)) (AtRevision req)
                   (RefRelation (StartRelation req))
                   (ResolvedObjects result) (uint64 (Limit req))))))
    as Hspec.
  pose proof (fun h : datastoreFilters (cl_ds cl) =>
                proj2 h (RefNamespace (StartRelation req)) (AtRevision req)
                  (RefRelation (StartRelation req))
                  (ResolvedObjects result) (uint64 (Limit req)))
    as Hfilter.
  destruct (QueryTuples _ _ _ _ _ _) as [it err].
  simpl in Hspec, Hfilter.
  assert (Hdrain : datastoreFilters (cl_ds cl) ->
            match drain (Limit req) addObject (Items it) (ErrAtEnd it)
                    NewONRSet with
            | IterReturn result => Err result <> None
            | IterDone objects _ => Forall (ofStartRelation req) objects
            end).
  { intros h. apply Hspec; [|constructor].
    intros tpl itErr onr Hin [= <-]. exact (Hfilter h _ _ Hin). }
  clear Hspec Hfilter.
  assert (Hev : Forall Q
            (e1 ++
             [EvQueryTuples (RefNamespace (StartRelation req))
                (AtRevision req) (RefRelation (StartRelation req))
                (ResolvedObjects result) (uint64 (Limit req))] ++ [])).
  { apply Forall_app. split; [exact He1|].
    constructor; [|constructor]. apply Q_direct. simpl. auto. }
  destruct err as [e|].
  { mstep. split; [exact Hev|]. intros _ [=]. }
  destruct (drain _ _ _ _ _) as [result'|objects itErr].
  - mstep. split; [exact Hev|]. intros h Hn. destruct (Hdrain h Hn).
  - mstep. split; [exact Hev|]. intros h _. exact (Hdrain h).
Qed.

(** The handler itself calls nobody; the request it returns makes the
    calls of [directCall] only. *)
Lemma lookupDirect_spec (typeSystem : NamespaceTypeSystem) :
  allowedDirect
  = fst (AllowedDirectRelations typeSystem
           (RefRelation (StartRelation req))) ->
  post (lookupDirect cl req typeSystem)
    (fun f evs =>
       evs = [] /\
       good Q (datastoreFilters (cl_ds cl)) (ofStartRelation req) f).
Proof.
  intros Hallowed. unfold lookupDirect. fold (directStackOf req).
  destruct (IsAllowedDirectRelation _ _ _ _) as [isDirectAllowed err].
  destruct err as [e|].
  { apply post_ResolveError. intros e' _. split; [reflexivity|].
    apply good_error. discriminate. }
  destruct (AllowedDirectRelations _ _) as [allowed err].
  simpl in Hallowed. subst allowed.
  destruct err as [e|].
  { apply post_ResolveError. intros e' _. split; [reflexivity|].
    apply good_error. discriminate. }
  match goal with |- context [(length ?l =? 0)%nat] =>
    set (requests := l) end.
  assert (Hreq : Forall (good Q (datastoreFilters (cl_ds cl))
                           (ofStartRelation req)) requests).
  { subst requests. apply Forall_app. split.
    - destruct (isValid isDirectAllowed); repeat constructor.
      apply directRequest_good.
    - rewrite Forall_map. apply Forall_forall. intros t Ht.
      apply filter_In in Ht. destruct Ht as [Hin Ht].
      apply negb_true_iff in Ht. now apply inferredRequest_good. }
  destruct (length requests =? 0)%nat; mstep; (split; [reflexivity|]).
  - apply good_objects. constructor.
  - now apply LookupAny_good.
Qed.

End GoodDirect.

Lemma callOf_directCall (allowedDirect : list RelationReference)
  (req : LookupRequest) (e : Event) :
  directCall allowedDirect req e -> callOf req e.
Proof.
  destruct e as [ns|subject rev ns rel|ns rev rel usersets limit|sub];
    simpl; try tauto.
  intros [t [_ [_ ->]]]. split; reflexivity.
Qed.

Section GoodHandlers.

Variable arrival : forall A : Type, list A -> list A.
Variable cl : concurrentLookup.
Variable req : LookupRequest.

(** A dispatched sub-request whose depth and revision are right is a
    good request, when nothing is asked of its objects. *)
Lemma dispatch_calls (sub : LookupRequest) :
  DepthRemaining sub = DepthRemaining req - 1 ->
  AtRevision sub = AtRevision req ->
  good (callOf req) True (fun _ => True) (dispatch cl sub).
Proof. intros Hd Hr. apply dispatch_event. now split. Qed.

Lemma LookupAny_dispatch_calls (limit : Z) (sub : LookupRequest) :
  DepthRemaining sub = DepthRemaining req - 1 ->
  AtRevision sub = AtRevision req ->
  post (LookupAny limit [dispatch cl sub])
    (fun _ evs => Forall (callOf req) evs).
Proof. intros Hd Hr. apply LookupAny_dispatch_event. now split. Qed.

Lemma lookupDirect_good (typeSystem : NamespaceTypeSystem) :
  goodHandler (callOf req) (datastoreFilters (cl_ds cl))
    (ofStartRelation req) (lookupDirect cl req typeSystem).
Proof.
  generalize (@lookupDirect_spec cl req (callOf req) _
                (@callOf_directCall _ req) typeSystem eq_refl).
  unfold goodHandler. apply post_mono.
  intros f evs [-> Hf]. split; [constructor | exact Hf].
Qed.

Lemma lookupComputed_good (cu : string) :
  goodHandler (callOf req) True (ofStartRelation req)
    (lookupComputed cl req cu).
Proof.
  unfold goodHandler, lookupComputed, LookupOne. mstep.
  generalize (@dispatch_calls (computedLookupRequest req cu)
                eq_refl eq_refl).
  unfold good. apply post_mono. intros result e1 [He1 _].
  destruct (Err result) as [e|].
  { apply post_ResolveError. intros e' _. rewrite app_nil_r.
    split; [exact He1|]. apply good_error. discriminate. }
  destruct (rewriteResolved req (ResolvedObjects result) [])
    as [e|rewritten] eqn:Erw.
  { apply post_ResolveError. intros e' _. rewrite app_nil_r.
    split; [exact He1|]. apply good_error. discriminate. }
  mstep. rewrite app_nil_r. split; [exact He1|].
  apply good_objects. intros _.
  eapply rewriteResolved_spec; [exact Erw | constructor].
Qed.

Lemma ttuRequest_good (typeSystem : NamespaceTypeSystem)
  (tupleset cu : string) (onr : ObjectAndRelation)
  (directRelation : RelationReference) :
  good (callOf req) True (ofStartRelation req)
    (ttuRequest cl req typeSystem tupleset cu onr directRelation).
Proof.
  unfold good, ttuRequest. mstep.
  generalize (@LookupAny_dispatch_calls noLimit
                (ttuLookupRequest req cu onr directRelation)
                eq_refl eq_refl).
  apply post_mono. intros result e1 He1.
  destruct (Err result) as [e|] eqn:E.
  { mstep. rewrite app_nil_r. split; [exact He1|]. congruence. }
  destruct (length (ResolvedObjects result) =? 0)%nat eqn:Elen.
  { mstep. rewrite app_nil_r. split; [exact He1|]. intros _ _.
    apply Nat.eqb_eq in Elen.
    destruct (ResolvedObjects result); [constructor | discriminate]. }
  pose proof (@collectUsersets_spec typeSystem tupleset
                (ResolvedObjects result) [] None) as Hcollect.
  destruct (collectUsersets _ _ _ _ _) as [observed|usersets sent].
  { mstep. rewrite app_nil_r. split; [exact He1|]. intros _ Hn.
    destruct Hcollect; [intros first [=] | exact Hn]. }
  assert (Hsent : sentError sent).
  { apply Hcollect. intros first [=]. }
  clear Hcollect.
  destruct (0 <? Z.of_nat (length usersets)).
  2:{ mstep. rewrite app_nil_r. split; [exact He1|]. intros _ Hn.
      apply observe_error in Hn; [|exact Hsent].
      destruct Hn as [-> _]. constructor. }
  mstep. mstep.
  destruct (QueryTuples _ _ _ _ _ _) as [it err].
  assert (Hev : Forall (callOf req)
            (e1 ++
             [EvQueryTuples (RefNamespace (StartRelation req))
                (AtRevision req) tupleset usersets
                (uint64 (Limit req))] ++ [])).
  { apply Forall_app. split; [exact He1|]. repeat constructor. }
  destruct err as [e|].
  { mstep. split; [exact Hev|]. intros _ Hn.
    apply observe_error in Hn; [|exact Hsent].
    destruct Hn as [_ [=]]. }
  pose proof (@drain_spec (ofStartRelation req) (Limit req)
                (addTuplesetObject req) (ErrAtEnd it) (Items it))
    as Hdrain.
  specialize (Hdrain
    (fun tpl itErr onr' _ (Hb : addTuplesetObject req tpl = inr onr') =>
       ltac:(unfold addTuplesetObject in Hb;
             destruct (negb _) in Hb; [discriminate|];
             injection Hb as <-; split; reflexivity))
    NewONRSet (Forall_nil _)).
  destruct (drain _ _ _ _ _) as [result'|objects itErr].
  - mstep. split; [exact Hev|]. intros _ Hn.
    apply observe_error in Hn; [|exact Hsent].
    destruct Hn as [_ Hn]. destruct (Hdrain Hn).
  - mstep. split; [exact Hev|]. intros _ Hn.
    apply observe_error in Hn; [|exact Hsent].
    destruct Hn as [-> _]. exact Hdrain.
Qed.

Lemma ttuLoop_good (typeSystem : NamespaceTypeSystem)
  (tupleset cu : string) (onr : ObjectAndRelation)
  (tuplesetDirectRelations : list RelationReference) :
  forall namespaces requests,
    Forall (good (callOf req) True (ofStartRelation req)) requests ->
    post (ttuLoop cl req typeSystem tupleset cu onr
            tuplesetDirectRelations namespaces requests)
      (fun flow evs =>
         Forall (callOf req) evs /\
         match flow with
         | Returned f => good (callOf req) True (ofStartRelation req) f
         | Fallthrough requests' =>
             Forall (good (callOf req) True (ofStartRelation req))
               requests'
         end).
Proof.
  induction tuplesetDirectRelations as [|directRelation rest IH];
    intros namespaces requests Hreq; cbn [ttuLoop].
  - mstep. split; [constructor | exact Hreq].
  - destruct (existsb _ namespaces); [now apply IH|].
    mstep. mstep.
    destruct (ReadNamespaceAndTypes _ _) as [[nsdef directRelTypeSystem] err].
    destruct err as [e|].
    + mstep. apply post_ResolveError. intros e' _. mstep.
      split; [repeat constructor|]. apply good_error. discriminate.
    + assert (Hcons : forall (flow : Flow (list ReduceableLookupFunc)) evs,
                Forall (callOf req) evs /\
                match flow with
                | Returned f =>
                    good (callOf req) True (ofStartRelation req) f
                | Fallthrough requests' =>
                    Forall (good (callOf req) True (ofStartRelation req))
                      requests'
                end ->
                Forall (callOf req)
                  ([EvReadNamespace (RefNamespace directRelation)] ++ evs)
                /\
                match flow with
                | Returned f =>
                    good (callOf req) True (ofStartRelation req) f
                | Fallthrough requests' =>
                    Forall (good (callOf req) True (ofStartRelation req))
                      requests'
                end).
      { intros flow evs [Hev Hflow]. split; [|exact Hflow].
        constructor; [exact I | exact Hev]. }
      destruct (negb (HasRelation directRelTypeSystem cu)).
      * generalize (IH namespaces requests Hreq). apply post_mono.
        exact Hcons.
      * eapply post_mono; [exact Hcons|]. apply IH.
        apply Forall_app. split; [exact Hreq|].
        constructor; [apply ttuRequest_good | constructor].
Qed.

Lemma processTupleToUserset_good (typeSystem : NamespaceTypeSystem)
  (tupleset cu : string) :
  goodHandler (callOf req) True (ofStartRelation req)
    (processTupleToUserset cl req typeSystem tupleset cu).
Proof.
  unfold goodHandler, processTupleToUserset.
  destruct (StackHas _ _).
  { mstep. split; [constructor|]. apply good_objects. constructor. }
  destruct (AllowedDirectRelations _ _) as [tuplesetDirectRelations err].
  destruct err as [e|]; [apply goodHandler_ResolveError|].
  mstep.
  generalize (@ttuLoop_good typeSystem tupleset cu
                (stackKey (RefNamespace (StartRelation req))
                   (RefRelation (StartRelation req)))
                tuplesetDirectRelations [] [] (Forall_nil _)).
  apply post_mono. intros flow e1 [He1 Hflow].
  destruct flow as [f|requests].
  - mstep. rewrite app_nil_r. split; assumption.
  - destruct (length requests =? 0)%nat; mstep; rewrite app_nil_r;
      (split; [exact He1|]).
    + apply good_objects. constructor.
    + now apply LookupAny_good.
Qed.

(** ** Rewrites *)

Lemma processChildren_good
  (rec : UsersetRewrite -> M ReduceableLookupFunc)
  (typeSystem : NamespaceTypeSystem) (reducer : LookupReducer)
  (children : list SetOperationChild) :
  goodReducer arrival cl req reducer ->
  Forall (childHolds
            (fun rewrite =>
               goodHandler (callOf req) (allGood arrival cl)
                 (ofStartRelation req)
                 (rec rewrite))) children ->
  forall requests,
    Forall (good (callOf req) (allGood arrival cl) (ofStartRelation req))
      requests ->
    goodHandler (callOf req) (allGood arrival cl) (ofStartRelation req)
      (processChildren cl rec req typeSystem children reducer requests).
Proof.
  intros Hreducer. induction 1 as [|child rest Hchild _ IH];
    intros requests Hreq; cbn [processChildren].
  - unfold goodHandler. mstep. split; [constructor|].
    now apply Hreducer.
  - assert (Hstep : forall m : M ReduceableLookupFunc,
              goodHandler (callOf req) (allGood arrival cl)
                (ofStartRelation req) m ->
              goodHandler (callOf req) (allGood arrival cl)
                (ofStartRelation req)
                (r <- m ;;
                 processChildren cl rec req typeSystem rest reducer
                   (requests ++ [r]))).
    { intros m Hm. unfold goodHandler. mstep. revert Hm.
      unfold goodHandler at 1. apply post_mono. intros r e1 [He1 Hr].
      assert (Hreq' : Forall (good (callOf req) (allGood arrival cl)
                                (ofStartRelation req)) (requests ++ [r])).
      { apply Forall_app. split; [exact Hreq|]. now repeat constructor. }
      generalize (IH _ Hreq'). unfold goodHandler at 1. apply post_mono.
      intros f e2 [He2 Hf]. split; [|exact Hf].
      apply Forall_app. now split. }
    destruct child as [|cu|rewrite|tupleset cu|].
    + apply Hstep. eapply goodHandler_weaken; [|apply lookupDirect_good].
      now intros [_ h].
    + apply Hstep. eapply goodHandler_weaken; [|apply lookupComputed_good].
      trivial.
    + apply Hstep. exact Hchild.
    + apply Hstep.
      eapply goodHandler_weaken; [|apply processTupleToUserset_good].
      trivial.
    + apply goodHandler_ResolveError.
Qed.

Lemma processRewrite_good (typeSystem : NamespaceTypeSystem)
  (usr : UsersetRewrite) :
  goodHandler (callOf req) (allGood arrival cl) (ofStartRelation req)
    (processRewrite arrival cl req typeSystem usr).
Proof.
  induction usr as [so IH|so IH|so IH|] using rewrite_induction;
    cbn [processRewrite].
  - apply processChildren_good; [|exact IH | constructor].
    intros limit requests. apply LookupAny_good.
  - apply processChildren_good; [|exact IH | constructor].
    intros limit requests. apply LookupAll_good. now intros [h _].
  - apply processChildren_good; [|exact IH | constructor].
    intros limit requests. apply LookupExclude_good. now intros [h _].
  - apply goodHandler_ResolveError.
Qed.

End GoodHandlers.

(* ================================================================== *)
(** * The driver *)
(* ================================================================== *)

Section Driver.

Variable arrival : forall A : Type, list A -> list A.
Variable cl : concurrentLookup.
Variable req : LookupRequest.

Variable H : Prop.
Variable Inv : ONRSet -> Prop.

Hypothesis H_allGood : H -> allGood arrival cl.
Hypothesis H_dispatcher :
  forall sub,
    StartRelation sub = StartRelation req ->
    H -> Err (Lookup (cl_d cl) sub) = None ->
    Forall (ofStartRelation req) (ResolvedObjects (Lookup (cl_d cl) sub)).
Hypothesis Inv_selfMatch : Inv (selfMatch req).
Hypothesis Inv_Update :
  forall objSet objs,
    Inv objSet -> (H -> Forall (ofStartRelation req) objs) ->
    Inv (Update objSet objs).

Lemma closure_dispatch_good (objSet : ONRSet) (obj : ObjectAndRelation) :
  good (callOf req) H (ofStartRelation req)
    (dispatch cl (closureLookupRequest req objSet obj)).
Proof.
  unfold good, dispatch. mstep. mstep. mstep. split.
  - repeat constructor.
  - now apply H_dispatcher.
Qed.

Lemma closureFuel_enough (objSet toCheck : ONRSet) :
  (closureMeasure req objSet toCheck < closureFuel req)%nat.
Proof.
  unfold closureMeasure, closureFuel, Length.
  destruct toCheck; lia.
Qed.

(** [lookup] returns at once the result it has computed: an error, or the
    objects of a set that satisfies the invariant, cut at the limit.  All
    the calls it makes are calls of the request. *)
Lemma lookup_spec :
  post (lookup arrival cl req)
    (fun f evs =>
       Forall (callOf req) evs /\
       exists res,
         f = ret res /\
         (Err res = None ->
          exists objSet,
            Inv objSet /\
            limitedSlice (AsSlice objSet) (Limit req)
            = Some (ResolvedObjects res))).
Proof.
  unfold lookup. fold (selfMatch req). mstep. mstep.
  destruct (ReadNamespaceAndTypes _ _) as [[nsdef typeSystem] err].
  assert (Herror : forall e evs,
            Forall (callOf req) evs ->
            Forall (callOf req) evs /\
            exists res,
              ret (resultErr (Some e)) = ret res /\
              (Err res = None ->
               exists objSet,
                 Inv objSet /\
                 limitedSlice (AsSlice objSet) (Limit req)
                 = Some (ResolvedObjects res))).
  { intros e evs Hev. split; [exact Hev|].
    exists (resultErr (Some e)). split; [reflexivity | discriminate]. }
  destruct err as [e|].
  { apply post_ResolveError. intros e' _. apply Herror.
    repeat constructor. }
  destruct (findRelation nsdef _) as [relation|].
  2:{ apply post_ResolveError. intros e' _. apply Herror.
      repeat constructor. }
  mstep.
  assert (Hhandler :
            goodHandler (callOf req) (allGood arrival cl)
              (ofStartRelation req)
              match UsersetRewriteOf relation with
              | Some rewrite => processRewrite arrival cl req typeSystem rewrite
              | None => lookupDirect cl req typeSystem
              end).
  { destruct (UsersetRewriteOf relation) as [rewrite|].
    - apply processRewrite_good.
    - eapply goodHandler_weaken; [|apply lookupDirect_good].
      now intros [_ h]. }
  revert Hhandler. unfold goodHandler at 1. apply post_mono.
  intros request e1 [He1 Hrequest]. mstep.
  assert (Hrequests : Forall (good (callOf req) (allGood arrival cl)
                                (ofStartRelation req)) [request]).
  { now repeat constructor. }
  generalize (LookupAny_good (Limit req) Hrequests). apply post_mono.
  intros result e2 [He2 Hresult].
  assert (Hev : Forall (callOf req)
                  ([EvReadNamespace (RefNamespace (StartRelation req))]
                   ++ e1 ++ e2)).
  { constructor; [exact I|]. apply Forall_app. now split. }
  destruct (Err result) as [e|] eqn:E.
  { apply post_ResolveError. intros e' _. rewrite app_nil_r.
    now apply Herror. }
  mstep.
  assert (Hinv : Inv (Update (selfMatch req) (ResolvedObjects result))).
  { apply Inv_Update; [exact Inv_selfMatch|]. intros h.
    apply Hresult; [now apply H_allGood | reflexivity]. }
  generalize (@closureLoop_spec cl req None (callOf req) H
                (ofStartRelation req) Inv closure_dispatch_good Inv_Update
                (closureFuel req)
                (Update (selfMatch req) (ResolvedObjects result))
                (Update (selfMatch req) (ResolvedObjects result))
                (closureFuel_enough _ _) Hinv).
  apply post_mono. intros flow e3 [He3 Hflow].
  destruct flow as [f|objSet].
  { destruct Hflow as [e [[=] _]]. }
  destruct (limitedSlice (AsSlice objSet) (Limit req)) as [resolved|] eqn:El;
    [|mstep].
  mstep. rewrite app_nil_r. split.
  - replace ([EvReadNamespace (RefNamespace (StartRelation req))]
             ++ e1 ++ e2 ++ e3)
      with (([EvReadNamespace (RefNamespace (StartRelation req))]
             ++ e1 ++ e2) ++ e3)
      by (now rewrite <- !app_assoc).
    apply Forall_app. now split.
  - exists (resultObjects resolved). split; [reflexivity|].
    intros _. exists objSet. now split.
Qed.

End Driver.

(* ================================================================== *)
(** * Properties of the specification *)
(* ================================================================== *)

(** [lookup] ends with a value or with a panic: its loop never runs out
    of fuel. *)
Lemma lookup_total arrival cl (req : LookupRequest) :
  lookup arrival cl req <> OutOfFuel.
Proof.
  pose proof (@lookup_spec arrival cl req False (fun _ => True)
                (fun h => False_ind _ h)
                (fun _ _ h => False_ind _ h) I (fun _ _ _ _ => I)) as Hs.
  intros E. rewrite E in Hs. exact Hs.
Qed.

Lemma selfMatch_NoDup (req : LookupRequest) : NoDup (selfMatch req).
Proof.
  unfold selfMatch. destruct (_ && _); [|constructor].
  apply Add_NoDup. constructor.
Qed.

(** C1. Every ONR of the resolved list of a successful lookup is an ONR
    of the start relation of the request: its namespace and its relation
    are the ones of [start_relation].  This holds for [lookup] when the
    datastore honours the object filter of its queries and the dispatcher
    answers the sub-requests within the same invariant; the
    computed-userset handler and the tuple-to-userset handler give their
    ONRs the start relation by themselves, whatever the collaborators
    return. *)
Theorem C1_resolved_objects_of_start_relation
  (arrival : forall A : Type, list A -> list A) (cl : concurrentLookup)
  (req : LookupRequest) :
  (arrivalPermutes arrival ->
   datastoreFilters (cl_ds cl) ->
   dispatcherInvariant (cl_d cl) ->
   forall f evs res evs',
     lookup arrival cl req = Done f evs ->
     f = Done res evs' ->
     Err res = None ->
     Forall (ofStartRelation req) (ResolvedObjects res))
  /\
  (forall cu f evs res evs',
     lookupComputed cl req cu = Done f evs ->
     f = Done res evs' ->
     Err res = None ->
     Forall (ofStartRelation req) (ResolvedObjects res))
  /\
  (forall typeSystem tupleset cu f evs res evs',
     processTupleToUserset cl req typeSystem tupleset cu = Done f evs ->
     f = Done res evs' ->
     Err res = None ->
     Forall (ofStartRelation req) (ResolvedObjects res)).
Proof.
  split; [|split].
  - intros Harrival Hds Hd f evs res evs' Hlookup Hf Hok.
    pose proof (@lookup_spec arrival cl req
                  (allGood arrival cl /\ dispatcherInvariant (cl_d cl))
                  (Forall (ofStartRelation req))) as Hs.
    rewrite Hlookup in Hs.
    destruct Hs as [_ [res' [Hret Hres]]].
    + tauto.
    + intros sub Hstart [_ Hdisp] Hn.
      specialize (Hdisp sub Hn). unfold ofStartRelation in *.
      now rewrite Hstart in Hdisp.
    + unfold selfMatch.
      destruct (String.eqb_spec (RefNamespace (StartRelation req))
                  (Namespace (TargetONR req))) as [Ens|]; [|constructor].
      destruct (String.eqb_spec (RefRelation (StartRelation req))
                  (Relation (TargetONR req))) as [Erel|]; [|constructor].
      simpl. repeat constructor; congruence.
    + intros objSet objs Hobj Hobjs. apply Forall_Update; [exact Hobj|].
      apply Hobjs. split; [split|]; assumption.
    + subst f. injection Hret as <- _.
      destruct (Hres Hok) as [objSet [Hinv Hslice]].
      eapply Forall_limitedSlice; eauto.
  - intros cu f evs res evs' Hcomputed Hf Hok.
    pose proof (lookupComputed_good cl req cu) as Hg.
    unfold goodHandler in Hg. rewrite Hcomputed in Hg.
    destruct Hg as [_ Hg]. unfold good in Hg. rewrite Hf in Hg.
    now apply Hg.
  - intros typeSystem tupleset cu f evs res evs' Httu Hf Hok.
    pose proof (processTupleToUserset_good cl req typeSystem tupleset cu)
      as Hg.
    unfold goodHandler in Hg. rewrite Httu in Hg.
    destruct Hg as [_ Hg]. unfold good in Hg. rewrite Hf in Hg.
    now apply Hg.
Qed.

(** C2. The resolved list of a successful lookup holds no ONR twice and
    has at most [limit] elements. *)
Theorem C2_resolved_distinct_within_limit
  (arrival : forall A : Type, list A -> list A) (cl : concurrentLookup)
  (req : LookupRequest) f evs res evs' :
  lookup arrival cl req = Done f evs ->
  f = Done res evs' ->
  Err res = None ->
  NoDup (ResolvedObjects res) /\
  Z.of_nat (length (ResolvedObjects res)) <= Limit req.
Proof.
  intros Hlookup Hf Hok.
  pose proof (@lookup_spec arrival cl req False (@NoDup ObjectAndRelation)
                (fun h => False_ind _ h)
                (fun _ _ h => False_ind _ h) (selfMatch_NoDup req)
                (fun objSet objs Hnd _ => Update_NoDup objs Hnd)) as Hs.
  rewrite Hlookup in Hs. destruct Hs as [_ [res' [Hret Hres]]].
  subst f. injection Hret as <- _.
  destruct (Hres Hok) as [objSet [Hnd Hslice]].
  apply limitedSlice_Some in Hslice. destruct Hslice as [Hfirst Hlen].
  split; [|exact Hlen]. rewrite Hfirst. now apply firstn_NoDup.
Qed.


(** C3 fails for [lookup] as it is written: at depth zero the handler
    runs as at any other depth.  Here it queries the datastore and
    resolves the two documents of alice. *)
Lemma C3_counterexample :
  ~ depthGuardClaim Fixture.inOrder Fixture.cl Fixture.reqDepthZero
  /\ exists evs,
       lookup Fixture.inOrder Fixture.cl Fixture.reqDepthZero
       = Done (ret (resultObjects [Fixture.doc1; Fixture.doc2])) evs
       /\ existsb isDatastoreQuery evs = true.
Proof.
  split.
  - intros Hclaim. destruct (Hclaim eq_refl) as [evs [E _]].
    vm_compute in E. discriminate E.
  - eexists. split; vm_compute; reflexivity.
Qed.

(** C3, amended.  The depth is guarded by the dispatcher, not by the
    handler: a dispatcher that honours [depth_remaining] answers a request
    at depth zero with the depth-exceeded error before the handler runs,
    so without any call to a collaborator; and the handler hands every
    sub-request to the dispatcher with one unit of depth less than its
    own request. *)
Theorem C3_depth_guarded_by_dispatcher
  (arrival : forall A : Type, list A -> list A) (cl : concurrentLookup)
  (req : LookupRequest) :
  (DepthRemaining req = 0 ->
   dispatcherLookup arrival cl req = Done (resultErr (Some ErrMaxDepth)) [])
  /\
  (0 < DepthRemaining req ->
   forall f evs sub,
     lookup arrival cl req = Done f evs ->
     In (EvDispatch sub) evs ->
     DepthRemaining sub = DepthRemaining req - 1).
Proof.
  split.
  - intros Hdepth. unfold dispatcherLookup. now rewrite Hdepth.
  - intros _ f evs sub Hlookup Hin.
    pose proof (@lookup_spec arrival cl req False (fun _ => True)
                  (fun h => False_ind _ h)
                  (fun _ _ h => False_ind _ h) I (fun _ _ _ _ => I)) as Hs.
    rewrite Hlookup in Hs. destruct Hs as [Hev _].
    rewrite Forall_forall in Hev. exact (proj1 (Hev _ Hin)).
Qed.

(** When a round of the loop of [lookup] gets an error from [LookupAny],
    the handler calls [ResolveError] on the variable [err] of
    [ReadNamespaceAndTypes], which is nil at that point: it panics. *)
Lemma closureLoop_error_panics (cl : concurrentLookup) (fuel : nat)
  (req : LookupRequest) (objSet toCheck : ONRSet) result e evs :
  (Length toCheck =? 0) || (Length objSet >=? Limit req) = false ->
  filter (fun obj => negb (isTarget req obj)) (AsSlice toCheck) <> [] ->
  LookupAny (Limit req)
    (map (fun obj => dispatch cl (closureLookupRequest req objSet obj))
       (filter (fun obj => negb (isTarget req obj)) (AsSlice toCheck)))
  = Done result evs ->
  Err result = Some e ->
  closureLoop cl (S fuel) req None objSet toCheck
  = Panicked "Given nil error to ResolveError" evs.
Proof.
  intros Hhead Hnonempty Hany Herr. cbn [closureLoop]. rewrite Hhead.
  destruct (filter _ (AsSlice toCheck)) as [|obj rest] eqn:Ef;
    [contradiction|].
  cbn [map length Nat.eqb]. cbn [map] in Hany. rewrite Hany.
  unfold bind. rewrite Herr. unfold ResolveError, panic.
  now rewrite app_nil_r.
Qed.

(** C4 is what the handler should do, and does not: when the dispatcher
    fails the sub-request of the first round of the loop, [lookup] panics
    instead of returning the error of the round. *)
Theorem C4_closure_error_panics :
  (exists evs,
     lookup Fixture.inOrder Fixture.clFails Fixture.reqViewer
     = Panicked "Given nil error to ResolveError" evs)
  /\ ~ closureErrorClaim Fixture.inOrder Fixture.clFails Fixture.reqViewer
         (ErrExternal "unavailable").
Proof.
  split.
  - eexists. vm_compute. reflexivity.
  - intros [evs E]. vm_compute in E. discriminate E.
Qed.

(** C5. When the start relation of the request is in its TTU stack, the
    tuple-to-userset handler returns at once a request that resolves to
    the empty set without an error; neither the handler nor that request
    calls a collaborator, so no sub-lookup is dispatched. *)
Theorem C5_ttu_cycle_cut (cl : concurrentLookup) (req : LookupRequest)
  (typeSystem : NamespaceTypeSystem) (tupleset cu : string) :
  StackHas (TTUStack req)
    (stackKey (RefNamespace (StartRelation req))
       (RefRelation (StartRelation req))) = true ->
  processTupleToUserset cl req typeSystem tupleset cu
  = Done (Done (mkResult [] None) []) [].
Proof.
  intros Hstack. unfold processTupleToUserset. now rewrite Hstack.
Qed.

Lemma C5_ttu_cycle_cut_witness :
  processTupleToUserset Fixture.cl Fixture.reqInStacks Fixture.tsDocument
    "parent" "viewer"
  = Done (Done (mkResult [] None) []) [].
Proof.
  apply (@C5_ttu_cycle_cut Fixture.cl Fixture.reqInStacks
           Fixture.tsDocument "parent" "viewer").
  reflexivity.
Defined.

(** ** The direct stack *)

Lemma StackHas_With_false (s : Stack) (key x : ObjectAndRelation) :
  StackHas (StackWith s key) x = false -> StackHas s x = false.
Proof.
  unfold StackWith. destruct (StackHas s key); [trivial|].
  unfold StackHas. rewrite existsb_app. now intros [E _]%orb_false_iff.
Qed.

Lemma skipAllowedDirectType_false (req : LookupRequest)
  (t : RelationReference) :
  skipAllowedDirectType req (directStackOf req) t = false ->
  RefRelation t <> Ellipsis /\
  t <> StartRelation req /\
  StackHas (DirectStack req) (stackKey (RefNamespace t) (RefRelation t))
  = false.
Proof.
  unfold skipAllowedDirectType.
  intros [[Hell Hsame]%orb_false_iff Hstack]%orb_false_iff.
  split; [|split].
  - now apply String.eqb_neq.
  - intros ->. now rewrite !String.eqb_refl in Hsame.
  - eapply StackHas_With_false. exact Hstack.
Qed.

Lemma filter_none {A} (p : A -> bool) (l : list A) :
  forallb p l = true -> filter (fun x => negb (p x)) l = [].
Proof.
  induction l as [|a l IH]; simpl; [reflexivity|].
  intros [Ha Hl]%andb_true_iff. rewrite Ha. simpl. now apply IH.
Qed.

(** C6 fails as it is stated: with the start relation [document#viewer]
    in its direct stack, the direct handler still dispatches the inferred
    sub-lookup of [group#member], which is not in the stack, and resolves
    the documents of alice. *)
Lemma C6_counterexample :
  ~ directStackClaim Fixture.cl Fixture.reqInStacks Fixture.tsDocument
  /\ exists evs,
       lookupDirect Fixture.cl Fixture.reqInStacks Fixture.tsDocument
       = Done (Done (resultObjects [Fixture.doc1; Fixture.doc2]) evs) []
       /\ In (EvDispatch
                (inferredLookupRequest Fixture.reqInStacks
                   (directStackOf Fixture.reqInStacks)
                   (mkRef "group" "member"))) evs.
Proof.
  split.
  - intros Hclaim. destruct (Hclaim eq_refl) as [evs [E _]].
    vm_compute in E. discriminate E.
  - eexists. split; [vm_compute; reflexivity|].
    right. left. reflexivity.
Qed.

(** C6, amended.  What the direct stack cuts is the allowed direct subject
    type, not the start relation: every inferred sub-lookup that the direct
    handler dispatches is for an allowed type that is not the ellipsis,
    differs from the start relation and is absent from the direct stack;
    a type that is skipped raises no error, and when the target is not a
    direct subject and every allowed type is skipped, the handler resolves
    to the empty set without calling a collaborator. *)
Theorem C6_direct_stack_cuts_allowed_types (cl : concurrentLookup)
  (req : LookupRequest) (typeSystem : NamespaceTypeSystem) :
  (forall f evs0 res evs sub,
     lookupDirect cl req typeSystem = Done f evs0 ->
     f = Done res evs ->
     In (EvDispatch sub) (evs0 ++ evs) ->
     exists t,
       In t (fst (AllowedDirectRelations typeSystem
                    (RefRelation (StartRelation req)))) /\
       sub = inferredLookupRequest req (directStackOf req) t /\
       RefRelation t <> Ellipsis /\
       t <> StartRelation req /\
       StackHas (DirectStack req)
         (stackKey (RefNamespace t) (RefRelation t)) = false)
  /\
  (snd (IsAllowedDirectRelation typeSystem (RefRelation (StartRelation req))
          (Namespace (TargetONR req)) (Relation (TargetONR req))) = None ->
   isValid
     (fst (IsAllowedDirectRelation typeSystem
             (RefRelation (StartRelation req))
             (Namespace (TargetONR req)) (Relation (TargetONR req))))
   = false ->
   snd (AllowedDirectRelations typeSystem (RefRelation (StartRelation req)))
   = None ->
   forallb (skipAllowedDirectType req (directStackOf req))
     (fst (AllowedDirectRelations typeSystem
             (RefRelation (StartRelation req)))) = true ->
   lookupDirect cl req typeSystem = Done (Done (mkResult [] None) []) []).
Proof.
  split.
  - intros f evs0 res evs sub Hdirect Hf Hin.
    pose proof (@lookupDirect_spec cl req (directCall _ req) _
                  (fun e h => h) typeSystem eq_refl) as Hs.
    rewrite Hdirect in Hs. destruct Hs as [-> Hgood].
    unfold good in Hgood. rewrite Hf in Hgood. destruct Hgood as [Hev _].
    rewrite Forall_forall in Hev.
    destruct (Hev _ Hin) as [t [Hallowed [Hskip ->]]].
    exists t. split; [exact Hallowed|]. split; [reflexivity|].
    now apply skipAllowedDirectType_false.
  - intros Herr1 Hinvalid Herr2 Hskip. unfold lookupDirect.
    fold (directStackOf req).
    destruct (IsAllowedDirectRelation typeSystem _ _ _)
      as [isDirectAllowed err1].
    destruct (AllowedDirectRelations typeSystem _) as [allowedDirect err2].
    simpl in Herr1, Hinvalid, Herr2, Hskip. subst err1 err2.
    rewrite Hinvalid. simpl.
    now rewrite (filter_none _ _ Hskip).
Qed.

Lemma C6_direct_stack_cuts_allowed_types_witness :
  (exists t,
     In t (fst (AllowedDirectRelations Fixture.tsDocument
                  (RefRelation (StartRelation Fixture.reqInStacks)))) /\
     inferredLookupRequest Fixture.reqInStacks
       (directStackOf Fixture.reqInStacks) (mkRef "group" "member")
     = inferredLookupRequest Fixture.reqInStacks
         (directStackOf Fixture.reqInStacks) t /\
     RefRelation t <> Ellipsis /\
     t <> StartRelation Fixture.reqInStacks /\
     StackHas (DirectStack Fixture.reqInStacks)
       (stackKey (RefNamespace t) (RefRelation t)) = false)
  /\
  lookupDirect Fixture.cl Fixture.reqGroupInStack Fixture.tsDocument
  = Done (Done (mkResult [] None) []) [].
Proof.
  split.
  - eapply (proj1 (@C6_direct_stack_cuts_allowed_types Fixture.cl
                     Fixture.reqInStacks Fixture.tsDocument)).
    + vm_compute. reflexivity.
    + reflexivity.
    + vm_compute. right. left. reflexivity.
  - apply (proj2 (@C6_direct_stack_cuts_allowed_types Fixture.cl
                    Fixture.reqGroupInStack Fixture.tsDocument));
      reflexivity.
Defined.

(** ** The combinators on one input and on none *)







(** ** Errors of the iterators *)

(** An error of the iterator that shows with a tuple is sent. *)
Lemma drain_error_with_tuple (limit : Z)
  (body : RelationTuple -> error + ObjectAndRelation)
  (tpl : RelationTuple) (e : error)
  (rest : list (RelationTuple * option error)) (errAtEnd : option error)
  (objects : ONRSet) :
  drain limit body ((tpl, Some e) :: rest) errAtEnd objects
  = IterReturn (resultErr (Some e)).
Proof. reflexivity. Qed.

(** The request of the direct branch tests the error of the iterator
    after its loop, and then sends the variable [err] of [Execute], which
    is nil there: the result is an empty success. *)
Lemma directRequest_drops_pending_error (cl : concurrentLookup)
  (req : LookupRequest) it objects e :
  ReverseQueryTuplesFromSubject (cl_ds cl) (TargetONR req) (AtRevision req)
    (RefNamespace (StartRelation req)) (RefRelation (StartRelation req))
  = (it, None) ->
  drain (Limit req) addObject (Items it) (ErrAtEnd it) NewONRSet
  = IterDone objects (Some e) ->
  directRequest cl req
  = Done (mkResult [] None)
      [EvReverseQuery (TargetONR req) (AtRevision req)
         (RefNamespace (StartRelation req))
         (RefRelation (StartRelation req))].
Proof.
  intros Hquery Hdrain. unfold directRequest.
  rewrite Hquery, Hdrain. reflexivity.
Qed.

(** The error that the ellipsis check of [processTupleToUserset] sends
    first is the result that is observed, whatever the loop does next. *)
Lemma collectUsersets_sent (typeSystem : NamespaceTypeSystem)
  (tupleset : string) (resolved : list ObjectAndRelation) :
  forall usersets first,
    match collectUsersets typeSystem tupleset resolved usersets
            (Some first) with
    | UsersetsStop observed => observed = first
    | UsersetsDone _ sent => sent = Some first
    end.
Proof.
  induction resolved as [|r resolved IH]; intros usersets first; simpl.
  - reflexivity.
  - destruct (IsAllowedDirectRelation typeSystem tupleset (Namespace r)
                (Relation r)) as [allowedDirect err].
    destruct err as [e|]; [reflexivity|].
    destruct (negb (Relation r =? Ellipsis)%string); [|apply IH].
    destruct (IsAllowedDirectRelation typeSystem tupleset (Namespace r)
                Ellipsis) as [allowedEllipsis err].
    destruct err as [e|]; [reflexivity | apply IH].
Qed.

(** The loop of the inferred branch has no test of the iterator after
    it: an error pending when the loop is left is ignored, and the objects
    collected so far are sent as a success. *)
Lemma inferredRequest_ignores_pending_error (cl : concurrentLookup)
  (req : LookupRequest) (directStack : Stack) (t : RelationReference)
  result evs it objects e :
  LookupAny noLimit
    [dispatch cl (inferredLookupRequest req directStack t)]
  = Done result evs ->
  Err result = None ->
  ResolvedObjects result <> [] ->
  QueryTuples (cl_ds cl) (RefNamespace (StartRelation req)) (AtRevision req)
    (RefRelation (StartRelation req)) (ResolvedObjects result)
    (uint64 (Limit req))
  = (it, None) ->
  drain (Limit req) addObject (Items it) (ErrAtEnd it) NewONRSet
  = IterDone objects (Some e) ->
  inferredRequest cl req directStack t
  = Done (resultObjects (AsSlice objects))
      (evs ++
       [EvQueryTuples (RefNamespace (StartRelation req)) (AtRevision req)
          (RefRelation (StartRelation req)) (ResolvedObjects result)
          (uint64 (Limit req))]).
Proof.
  intros Hany Herr Hne Hquery Hdrain. unfold inferredRequest.
  rewrite Hany. unfold bind at 1. rewrite Herr.
  destruct (ResolvedObjects result) as [|o rest] eqn:Eres; [contradiction|].
  cbn [length Z.of_nat Z.ltb Z.compare].
  rewrite Hquery, Hdrain. reflexivity.
Qed.

(** C9 is what the handler should do, and does not: the reverse query of
    the direct branch yields one tuple and then fails; the request of the
    branch sends an empty success, and so does [lookup]. *)
Theorem C9_iterator_error_dropped :
  ~ iteratorErrorClaim Fixture.clFailsAtEnd Fixture.reqViewer
  /\ (exists evs,
        directRequest Fixture.clFailsAtEnd Fixture.reqViewer
        = Done (mkResult [] None) evs)
  /\ (exists evs,
        lookup Fixture.inOrder Fixture.clFailsAtEnd Fixture.reqViewer
        = Done (ret (mkResult [] None)) evs).
Proof.
  split; [|split].
  - intros Hclaim.
    destruct (Hclaim _ [Fixture.doc1] Fixture.connectionLost eq_refl eq_refl)
      as [evs E].
    vm_compute in E. discriminate E.
  - eexists.
    exact (@directRequest_drops_pending_error Fixture.clFailsAtEnd
             Fixture.reqViewer _ [Fixture.doc1] Fixture.connectionLost
             eq_refl eq_refl).
  - eexists. vm_compute. reflexivity.
Qed.

(** ** LookupAll *)

Lemma inAll_cons (r : LookupResult) (results : list LookupResult) o :
  inAll (r :: results) o <-> In o (ResolvedObjects r) /\ inAll results o.
Proof.
  unfold inAll. simpl. split.
  - intros Hall. split; [apply Hall; now left|].
    intros r' Hr'. apply Hall. now right.
  - intros [Hr Hall] r' [<-|Hr']; auto.
Qed.

Lemma inAll_Permutation (l l' : list LookupResult) o :
  Permutation l l' -> inAll l o <-> inAll l' o.
Proof.
  intros Hperm. unfold inAll. split; intros Hall r Hr; apply Hall.
  - eapply Permutation_in; [apply Permutation_sym|]; eauto.
  - eapply Permutation_in; eauto.
Qed.

Lemma Length_zero (s : ONRSet) : (Length s =? 0) = true <-> s = [].
Proof.
  unfold Length. rewrite Z.eqb_eq. destruct s; simpl; split;
    (reflexivity || discriminate || lia).
Qed.

(** After the first result, the loop of [LookupAll] intersects. *)
Lemma allLoop_intersects (arrived : list LookupResult) :
  Forall (fun r => Err r = None) arrived ->
  forall objSet : ONRSet,
    NoDup objSet ->
    Err (allLoop arrived false objSet) = None /\
    NoDup (ResolvedObjects (allLoop arrived false objSet)) /\
    forall o,
      In o (ResolvedObjects (allLoop arrived false objSet)) <->
      In o objSet /\ inAll arrived o.
Proof.
  induction 1 as [|r arrived Hr _ IH]; intros objSet Hnd; simpl.
  - split; [reflexivity | split; [exact Hnd | intros o; split]].
    + intros Ho. split; [exact Ho | intros r []].
    + tauto.
  - rewrite Hr.
    set (objSet' := Intersect objSet (Update NewONRSet (ResolvedObjects r))).
    assert (Hin' : forall o, In o objSet' <->
                             In o objSet /\ In o (ResolvedObjects r)).
    { intros o. unfold objSet'. rewrite Intersect_In, Update_In.
      simpl. tauto. }
    destruct (Length objSet' =? 0) eqn:Elen.
    + apply Length_zero in Elen. simpl.
      split; [reflexivity | split; [constructor | intros o; split]].
      * contradiction.
      * intros [Ho Hall]. apply inAll_cons in Hall.
        destruct Hall as [Hor _].
        assert (Hx : In o objSet') by (apply Hin'; tauto).
        rewrite Elen in Hx. exact Hx.
    + assert (Hnd' : NoDup objSet').
      { unfold objSet', Intersect. now apply filter_NoDup. }
      destruct (IH objSet' Hnd') as [Herr [Hnodup Hiff]].
      split; [exact Herr | split; [exact Hnodup | intros o; split]].
      * intros Ho. apply Hiff in Ho. rewrite Hin' in Ho.
        rewrite inAll_cons. tauto.
      * intros [Ho Hall]. apply inAll_cons in Hall. apply Hiff.
        rewrite Hin'. tauto.
Qed.

Lemma allLoop_first (r : LookupResult) (arrived : list LookupResult)
  (objSet : ONRSet) :
  Forall (fun r => Err r = None) (r :: arrived) ->
  Err (allLoop (r :: arrived) true objSet) = None /\
  NoDup (ResolvedObjects (allLoop (r :: arrived) true objSet)) /\
  forall o,
    In o (ResolvedObjects (allLoop (r :: arrived) true objSet)) <->
    inAll (r :: arrived) o.
Proof.
  intros Hall. inversion Hall as [|? ? Hr Harrived]; subst. simpl.
  rewrite Hr. set (subSet := Update NewONRSet (ResolvedObjects r)).
  assert (Hin : forall o, In o subSet <-> In o (ResolvedObjects r)).
  { intros o. unfold subSet. rewrite Update_In. simpl. tauto. }
  assert (Hnd : NoDup subSet).
  { unfold subSet. apply Update_NoDup. constructor. }
  destruct (Length subSet =? 0) eqn:Elen.
  - apply Length_zero in Elen. simpl.
    split; [reflexivity | split; [constructor | intros o; split]].
    + contradiction.
    + intros Ho. apply inAll_cons in Ho. destruct Ho as [Ho _].
      apply Hin in Ho. rewrite Elen in Ho. exact Ho.
  - destruct (allLoop_intersects Harrived Hnd) as [Herr [Hnodup Hiff]].
    split; [exact Herr | split; [exact Hnodup | intros o; split]].
    + intros Ho. apply Hiff in Ho. rewrite Hin in Ho.
      apply inAll_cons. exact Ho.
    + intros Ho. apply inAll_cons in Ho. apply Hiff.
      now rewrite Hin.
Qed.

Lemma runAll_length (requests : list ReduceableLookupFunc) :
  forall results evs,
    runAll requests = Done results evs -> length results = length requests.
Proof.
  induction requests as [|f requests IH]; intros results evs; cbn [runAll].
  - unfold ret. now intros [= <- _].
  - intros E. apply bind_Done in E.
    destruct E as [result [e1 [e2 [_ [E _]]]]].
    apply bind_Done in E.
    destruct E as [rest [e3 [e4 [Hrest [E _]]]]].
    unfold ret in E. injection E as <- _. simpl.
    f_equal. eapply IH. exact Hrest.
Qed.

(** C10. Whatever the limit and whatever the order in which the results
    arrive, [LookupAll] of requests that all succeed returns, without an
    error and without duplicates, exactly the ONRs that are in the result
    of every request: the limit never cuts the list. *)
Theorem C10_lookupAll_full_intersection
  (arrival : forall A : Type, list A -> list A) (limit : Z)
  (requests : list ReduceableLookupFunc) results evs :
  arrivalPermutes arrival ->
  runAll requests = Done results evs ->
  Forall (fun r => Err r = None) results ->
  exists res,
    LookupAll arrival limit requests = Done res evs /\
    Err res = None /\
    NoDup (ResolvedObjects res) /\
    (forall o,
        In o (ResolvedObjects res) <-> requests <> [] /\ inAll results o) /\
    (forall limit',
        LookupAll arrival limit' requests
        = LookupAll arrival limit requests).
Proof.
  intros Hperm Hrun Hok. destruct requests as [|f requests].
  - cbn [runAll] in Hrun. unfold ret in Hrun. injection Hrun as <- <-.
    exists (mkResult [] None). simpl.
    split; [reflexivity|]. split; [reflexivity|].
    split; [constructor|]. split; [|reflexivity].
    intros o. split; [contradiction | now intros [Hne _]].
  - pose proof (runAll_length _ Hrun) as Hlen.
    set (requests' := f :: requests) in *.
    assert (Harr : exists r arrived, arrival _ results = r :: arrived).
    { destruct (arrival _ results) as [|r arrived] eqn:E; [|eauto].
      pose proof (Permutation_length (Hperm _ results)) as Hl.
      rewrite E, Hlen in Hl. discriminate Hl. }
    destruct Harr as [r [arrived Harr]].
    assert (Hok' : Forall (fun r => Err r = None) (r :: arrived)).
    { rewrite <- Harr. rewrite Forall_forall in *. intros x Hx.
      apply Hok. eapply Permutation_in; [apply Hperm | exact Hx]. }
    destruct (allLoop_first NewONRSet Hok') as [Herr [Hnd Hiff]].
    exists (allLoop (r :: arrived) true NewONRSet).
    split; [|split; [exact Herr | split; [exact Hnd | split]]].
    + unfold LookupAll, requests'. fold requests'. rewrite Hrun.
      unfold bind, ret. now rewrite Harr, app_nil_r.
    + intros o. split.
      * intros Ho. split; [discriminate|]. apply Hiff in Ho.
        eapply inAll_Permutation; [|exact Ho]. rewrite <- Harr.
        apply Permutation_sym, Hperm.
      * intros [_ Hall]. apply Hiff. rewrite <- Harr.
        eapply inAll_Permutation; [apply Hperm | exact Hall].
    + reflexivity.
Qed.

(* ================================================================== *)
(** * The properties at work on the fixture *)
(* ================================================================== *)

Lemma inOrder_permutes : arrivalPermutes Fixture.inOrder.
Proof. intros A l. apply Permutation_refl. Qed.

Lemma memDatastore_filters (tuples : list RelationTuple) :
  datastoreFilters (Fixture.memDatastore tuples).
Proof.
  assert (Hm : forall ns rel tpl,
             Fixture.matches ns rel tpl = true ->
             Namespace (ObjectAndRelationOf tpl) = ns /\
             Relation (ObjectAndRelationOf tpl) = rel).
  { intros ns rel tpl [Hns Hrel]%andb_true_iff.
    now apply String.eqb_eq in Hns, Hrel. }
  split.
  - intros subject rev ns rel tpl itErr Hin. simpl in Hin.
    apply in_map_iff in Hin. destruct Hin as [tpl' [[= -> _] Hin]].
    apply filter_In in Hin. destruct Hin as [_ [_ Hmatch]%andb_true_iff].
    now apply Hm.
  - intros ns rev rel usersets limit tpl itErr Hin. simpl in Hin.
    apply in_map_iff in Hin. destruct Hin as [tpl' [[= -> _] Hin]].
    apply firstn_In_incl in Hin.
    apply filter_In in Hin. destruct Hin as [_ [_ Hmatch]%andb_true_iff].
    now apply Hm.
Qed.

Lemma dTable_invariant : dispatcherInvariant Fixture.dTable.
Proof.
  assert (Hreq : forall ns rel sub,
             Fixture.isRequest ns rel sub = true ->
             RefNamespace (StartRelation sub) = ns /\
             RefRelation (StartRelation sub) = rel).
  { intros ns rel sub [[Hns Hrel]%andb_true_iff _]%andb_true_iff.
    now apply String.eqb_eq in Hns, Hrel. }
  intros sub _. simpl.
  destruct (Fixture.isRequest "folder" "read" sub) eqn:E1.
  { destruct (Hreq _ _ _ E1) as [Hns Hrel].
    repeat constructor; simpl; congruence. }
  destruct (Fixture.isRequest "document" "viewer" sub) eqn:E2.
  { destruct (Hreq _ _ _ E2) as [Hns Hrel].
    repeat constructor; simpl; congruence. }
  constructor.
Qed.

Lemma C1_resolved_objects_of_start_relation_witness :
  Forall (ofStartRelation Fixture.reqRead)
    (ResolvedObjects
       (resultObjects [mkONR "document" "1" "read";
                       mkONR "document" "2" "read";
                       mkONR "document" "3" "read"]))
  /\ Forall (ofStartRelation Fixture.reqRead)
       (ResolvedObjects
          (resultObjects [mkONR "document" "1" "read";
                          mkONR "document" "2" "read"]))
  /\ Forall (ofStartRelation Fixture.reqRead)
       (ResolvedObjects (resultObjects [mkONR "document" "3" "read"])).
Proof.
  pose proof (@C1_resolved_objects_of_start_relation Fixture.inOrder
                Fixture.cl Fixture.reqRead) as [Hlookup [Hcomputed Httu]].
  split; [|split].
  - eapply (Hlookup inOrder_permutes
              (memDatastore_filters Fixture.tuples) dTable_invariant).
    + vm_compute. reflexivity.
    + reflexivity.
    + reflexivity.
  - eapply (Hcomputed "viewer").
    + vm_compute. reflexivity.
    + reflexivity.
    + reflexivity.
  - eapply (Httu Fixture.tsDocument "parent" "read").
    + vm_compute. reflexivity.
    + vm_compute. reflexivity.
    + reflexivity.
Defined.

Lemma C2_resolved_distinct_within_limit_witness :
  NoDup (ResolvedObjects (resultObjects [Fixture.doc1; Fixture.doc2]))
  /\ Z.of_nat
       (length (ResolvedObjects (resultObjects [Fixture.doc1; Fixture.doc2])))
     <= Limit Fixture.reqViewer.
Proof.
  eapply (@C2_resolved_distinct_within_limit Fixture.inOrder Fixture.cl
            Fixture.reqViewer).
  - vm_compute. reflexivity.
  - reflexivity.
  - reflexivity.
Defined.

Lemma C3_depth_guarded_by_dispatcher_witness :
  dispatcherLookup Fixture.inOrder Fixture.cl Fixture.reqDepthZero
  = Done (resultErr (Some ErrMaxDepth)) []
  /\ DepthRemaining
       (closureLookupRequest Fixture.reqViewer
          [Fixture.doc1; Fixture.doc2] Fixture.doc1)
     = DepthRemaining Fixture.reqViewer - 1.
Proof.
  pose proof (@C3_depth_guarded_by_dispatcher Fixture.inOrder Fixture.cl
                Fixture.reqDepthZero) as [Hguard _].
  pose proof (@C3_depth_guarded_by_dispatcher Fixture.inOrder Fixture.cl
                Fixture.reqViewer) as [_ Hsub].
  split.
  - apply Hguard. reflexivity.
  - eapply Hsub.
    + reflexivity.
    + vm_compute. reflexivity.
    + right. right. right. left. reflexivity.
Defined.


Lemma C10_lookupAll_full_intersection_witness :
  exists res,
    LookupAll Fixture.inOrder 1
      [Fixture.twoDocuments; Fixture.twoDocumentsReversed]
    = Done res [] /\
    Err res = None /\
    NoDup (ResolvedObjects res) /\
    (forall o,
        In o (ResolvedObjects res) <->
        [Fixture.twoDocuments; Fixture.twoDocumentsReversed] <> [] /\
        inAll [resultObjects [Fixture.doc1; Fixture.doc2];
               resultObjects [Fixture.doc2; Fixture.doc1]] o) /\
    (forall limit',
        LookupAll Fixture.inOrder limit'
          [Fixture.twoDocuments; Fixture.twoDocumentsReversed]
        = LookupAll Fixture.inOrder 1
            [Fixture.twoDocuments; Fixture.twoDocumentsReversed]).
Proof.
  apply (@C10_lookupAll_full_intersection Fixture.inOrder 1
           [Fixture.twoDocuments; Fixture.twoDocumentsReversed]
           [resultObjects [Fixture.doc1; Fixture.doc2];
            resultObjects [Fixture.doc2; Fixture.doc1]] []).
  - exact inOrder_permutes.
  - reflexivity.
  - repeat constructor.
Defined.

(** The intersection above holds two documents although the limit is 1. *)
Example lookupAll_exceeds_limit :
  LookupAll Fixture.inOrder 1
    [Fixture.twoDocuments; Fixture.twoDocumentsReversed]
  = Done (resultObjects [Fixture.doc1; Fixture.doc2]) [].
Proof. vm_compute. reflexivity. Qed.

(** ** The scenarios of the specification *)

(** Direct lookup: alice views the documents 1 and 2. *)
Example scenario_direct_lookup :
  exists evs,
    lookup Fixture.inOrder Fixture.cl Fixture.reqViewer
    = Done (ResolvedObjectsFn [Fixture.doc1; Fixture.doc2]) evs.
Proof. eexists. vm_compute. reflexivity. Qed.

(** Union rewrite with a tuple-to-userset child: alice reads the
    documents she views and the document whose parent folder she reads. *)
Example scenario_ttu_closure :
  exists evs,
    lookup Fixture.inOrder Fixture.cl Fixture.reqRead
    = Done (ResolvedObjectsFn [mkONR "document" "1" "read";
                               mkONR "document" "2" "read";
                               mkONR "document" "3" "read"]) evs.
Proof. eexists. vm_compute. reflexivity. Qed.

(** Self-match: the target is resolved first, and alone when nobody else
    reaches it. *)
Example scenario_self_match :
  exists evs,
    lookup Fixture.inOrder Fixture.cl Fixture.reqSelf
    = Done (ResolvedObjectsFn [Fixture.doc1]) evs.
Proof. eexists. vm_compute. reflexivity. Qed.

(** A negative limit makes the final truncation panic. *)
Example scenario_negative_limit :
  exists evs,
    lookup Fixture.inOrder Fixture.cl
      {| TargetONR := Fixture.alice;
         StartRelation := mkRef "document" "viewer";
         Limit := -1;
         AtRevision := 0;
         DepthRemaining := 5;
         DirectStack := [];
         TTUStack := [] |}
    = Panicked "slice bounds out of range" evs.
Proof. eexists. vm_compute. reflexivity. Qed.

(** With the limit 0 the final truncation leaves nothing, the target
    included. *)
Example scenario_limit_zero :
  exists evs,
    lookup Fixture.inOrder Fixture.cl
      {| TargetONR := Fixture.doc1;
         StartRelation := mkRef "document" "viewer";
         Limit := 0;
         AtRevision := 0;
         DepthRemaining := 5;
         DirectStack := [];
         TTUStack := [] |}
    = Done (ResolvedObjectsFn []) evs.
Proof. eexists. vm_compute. reflexivity. Qed.

(** [any] cuts at the limit what [all] does not. *)
Example lookupAny_cuts_at_limit :
  LookupAny 1 [Fixture.twoDocuments; Fixture.twoDocumentsReversed]
  = Done (resultObjects [Fixture.doc1]) [].
Proof. vm_compute. reflexivity. Qed.

(* ================================================================== *)
(** * Further properties of the code *)
(* ================================================================== *)

(** ** limitedSlice and findRelation *)

(** X1. [limitedSlice] panics exactly when the limit is negative, whatever
    the slice, the empty one included; otherwise it returns the first
    [limit] elements of the slice, all of them when there are fewer. *)
Theorem X1_limitedSlice_prefix (slice : list ObjectAndRelation) (limit : Z) :
  (limitedSlice slice limit = None <-> limit < 0)
  /\ (forall l,
        limitedSlice slice limit = Some l ->
        l = firstn (Z.to_nat limit) slice /\
        length l = Nat.min (Z.to_nat limit) (length slice)).
Proof.
  split.
  - split.
    + intros E. destruct (Z.ltb_spec limit 0) as [Hneg|Hpos]; [exact Hneg|].
      rewrite (limitedSlice_nonneg _ Hpos) in E. discriminate E.
    + apply limitedSlice_neg.
  - intros l E. apply limitedSlice_Some in E. destruct E as [-> _].
    split; [reflexivity | apply length_firstn].
Qed.

Lemma X1_limitedSlice_prefix_witness :
  [Fixture.doc1] = firstn (Z.to_nat 1) [Fixture.doc1; Fixture.doc2]
  /\ length [Fixture.doc1]
     = Nat.min (Z.to_nat 1) (length [Fixture.doc1; Fixture.doc2]).
Proof.
  apply (proj2 (X1_limitedSlice_prefix [Fixture.doc1; Fixture.doc2] 1)).
  reflexivity.
Defined.

(** X2. [findRelation] returns the first relation of the namespace that
    has the name asked for, and finds none exactly when no relation of the
    namespace has that name. *)
Theorem X2_findRelation_first (nsdef : NamespaceDefinition)
  (relationName : string) :
  (forall relation,
      findRelation nsdef relationName = Some relation ->
      Name relation = relationName /\
      exists before after,
        nsdef = before ++ relation :: after /\
        Forall (fun r => Name r <> relationName) before)
  /\ (findRelation nsdef relationName = None <->
      Forall (fun r => Name r <> relationName) nsdef).
Proof.
  induction nsdef as [|r nsdef [IHsome IHnone]]; simpl.
  - split; [discriminate|]. split; [constructor | reflexivity].
  - destruct (String.eqb_spec (Name r) relationName) as [E|Hne].
    + split.
      * intros relation [= <-]. split; [exact E|].
        exists [], nsdef. split; [reflexivity | constructor].
      * split; [discriminate|]. intros Hall.
        inversion Hall; subst. contradiction.
    + split.
      * intros relation Hfind.
        destruct (IHsome _ Hfind) as [Hname [before [after [-> Hbefore]]]].
        split; [exact Hname|]. exists (r :: before), after.
        split; [reflexivity | now constructor].
      * rewrite IHnone. split.
        -- intros Hall. now constructor.
        -- intros Hall. now inversion Hall.
Qed.

Lemma X2_findRelation_first_witness :
  Name (mkRelation "reader"
          (Some (Rewrite_Union [Child_ComputedUserset "viewer"])))
  = "reader"
  /\ exists before after,
       Fixture.nsDocument
       = before
         ++ mkRelation "reader"
              (Some (Rewrite_Union [Child_ComputedUserset "viewer"]))
         :: after
       /\ Forall (fun r => Name r <> "reader") before.
Proof.
  apply (proj1 (X2_findRelation_first Fixture.nsDocument "reader")).
  reflexivity.
Defined.

(** ** LookupAny *)

Lemma unionFrom_extends (results : list LookupResult) :
  forall objects : ONRSet,
    exists ext, unionFrom objects results = objects ++ ext.
Proof.
  unfold unionFrom.
  induction results as [|r results IH]; intros objects; simpl.
  - exists []. now rewrite app_nil_r.
  - destruct (Update_extends (ResolvedObjects r) objects) as [e1 ->].
    destruct (IH (objects ++ e1)) as [e2 ->].
    exists (e1 ++ e2). now rewrite app_assoc.
Qed.

Lemma unionFrom_Length (results : list LookupResult) (objects : ONRSet) :
  Length objects <= Length (unionFrom objects results).
Proof.
  destruct (unionFrom_extends results objects) as [ext ->].
  unfold Length. rewrite length_app. lia.
Qed.

Lemma unionFrom_In (results : list LookupResult) :
  forall (objects : ONRSet) o,
    In o (unionFrom objects results) <->
    In o objects \/ exists r, In r results /\ In o (ResolvedObjects r).
Proof.
  unfold unionFrom.
  induction results as [|r results IH]; intros objects o; simpl.
  - split; [auto | intros [Ho|[r [[] _]]]; exact Ho].
  - rewrite IH, Update_In. split.
    + intros [[Ho|Ho]|[r' [Hr' Ho]]]; eauto.
    + intros [Ho|[r' [[<-|Hr'] Ho]]]; eauto.
Qed.


(** What the loop of [LookupAny] returns: an error of one of the results
    without objects, or distinct objects of the set built so far and of
    the successful results, within the limit; and it calls nobody. *)
Lemma anyLoop_shape (limit : Z) (results : list LookupResult) :
  forall (objects : ONRSet) res evs,
    NoDup objects ->
    anyLoop limit results objects = Done res evs ->
    evs = [] /\
    ((exists r e, In r results /\ Err r = Some e /\
                  res = resultErr (Some e))
     \/ (exists l,
           res = resultObjects l /\ NoDup l /\
           Z.of_nat (length l) <= limit /\
           forall o, In o l ->
                     In o objects \/
                     exists r, In r results /\ succeeded r /\
                               In o (ResolvedObjects r))).
Proof.
  assert (Hlimited : forall (objects : ONRSet) res evs,
             NoDup objects ->
             limitedResult (AsSlice objects) limit = Done res evs ->
             evs = [] /\
             exists l, res = resultObjects l /\ NoDup l /\
                       Z.of_nat (length l) <= limit /\
                       forall o, In o l -> In o objects).
  { intros objects res evs Hnd. unfold limitedResult.
    destruct (limitedSlice (AsSlice objects) limit) as [l|] eqn:E;
      [|discriminate].
    unfold ret. intros [= <- <-]. split; [reflexivity|].
    exists l. apply limitedSlice_Some in E. destruct E as [-> Hlen].
    split; [reflexivity|]. split; [now apply firstn_NoDup|].
    split; [exact Hlen|]. intros o. apply firstn_In_incl. }
  induction results as [|r results IH]; intros objects res evs Hnd;
    cbn [anyLoop].
  - intros E. destruct (Hlimited _ _ _ Hnd E) as [-> [l [-> [Hl [Hlen Hin]]]]].
    split; [reflexivity|]. right. exists l. repeat split; auto.
  - destruct (Err r) as [e|] eqn:Er.
    + unfold ret. intros [= <- <-]. split; [reflexivity|].
      left. exists r, e. repeat split; auto. now left.
    + assert (Hnd' : NoDup (Update objects (ResolvedObjects r)))
        by now apply Update_NoDup.
      assert (Hfrom : forall o,
                 In o (Update objects (ResolvedObjects r)) ->
                 In o objects \/
                 exists r', In r' (r :: results) /\ succeeded r' /\
                            In o (ResolvedObjects r')).
      { intros o Ho. apply Update_In in Ho. destruct Ho as [Ho|Ho]; auto.
        right. exists r. repeat split; auto. now left. }
      destruct (Length _ >=? limit).
      * intros E.
        destruct (Hlimited _ _ _ Hnd' E) as [-> [l [-> [Hl [Hlen Hin]]]]].
        split; [reflexivity|]. right. exists l. repeat split; auto.
      * intros E. destruct (IH _ _ _ Hnd' E) as [-> Hshape].
        split; [reflexivity|].
        destruct Hshape as [[r' [e [Hr' [He ->]]]]|[l [-> [Hl [Hlen Hin]]]]].
        -- left. exists r', e. repeat split; auto. now right.
        -- right. exists l. repeat split; auto.
           intros o Ho. destruct (Hin o Ho) as [Hobj|[r' [Hr' [Hs Hor]]]].
           ++ now apply Hfrom.
           ++ right. exists r'. repeat split; auto. now right.
Qed.

Lemma LookupAny_Done (limit : Z) (requests : list ReduceableLookupFunc)
  res evs :
  LookupAny limit requests = Done res evs ->
  exists results,
    runAll requests = Done results evs /\
    anyLoop limit results NewONRSet = Done res [].
Proof.
  unfold LookupAny. intros E. apply bind_Done in E.
  destruct E as [results [e1 [e2 [Hrun [Hloop ->]]]]].
  destruct (@anyLoop_shape limit results NewONRSet res e2 (NoDup_nil _)
              Hloop) as [-> _].
  exists results. now rewrite app_nil_r.
Qed.

(** X3. A successful [LookupAny] returns distinct ONRs, at most [limit] of
    them, and only ONRs that a successful input resolved. *)
Theorem X3_lookupAny_bounded_union (limit : Z)
  (requests : list ReduceableLookupFunc) res evs :
  LookupAny limit requests = Done res evs ->
  Err res = None ->
  exists results,
    runAll requests = Done results evs /\
    NoDup (ResolvedObjects res) /\
    Z.of_nat (length (ResolvedObjects res)) <= limit /\
    forall o,
      In o (ResolvedObjects res) ->
      exists r, In r results /\ succeeded r /\ In o (ResolvedObjects r).
Proof.
  intros Hany Hok. destruct (@LookupAny_Done limit requests res evs Hany)
    as [results [Hrun Hloop]].
  exists results. split; [exact Hrun|].
  destruct (@anyLoop_shape limit results NewONRSet res [] (NoDup_nil _)
              Hloop) as [_ Hshape].
  destruct Hshape as [[r [e [_ [_ ->]]]]|[l [-> [Hl [Hlen Hin]]]]];
    [discriminate Hok|].
  simpl. repeat split; auto.
  intros o Ho. destruct (Hin o Ho) as [[]|Hr]. exact Hr.
Qed.

Lemma X3_lookupAny_bounded_union_witness :
  exists results,
    runAll [Fixture.twoDocuments; Fixture.twoDocumentsReversed]
    = Done results [] /\
    NoDup (ResolvedObjects (resultObjects [Fixture.doc1])) /\
    Z.of_nat (length (ResolvedObjects (resultObjects [Fixture.doc1]))) <= 1 /\
    forall o,
      In o (ResolvedObjects (resultObjects [Fixture.doc1])) ->
      exists r, In r results /\ succeeded r /\ In o (ResolvedObjects r).
Proof.
  apply (@X3_lookupAny_bounded_union 1
           [Fixture.twoDocuments; Fixture.twoDocumentsReversed]
           (resultObjects [Fixture.doc1]) []).
  - vm_compute. reflexivity.
  - reflexivity.
Defined.


Lemma anyLoop_error (limit : Z) (before : list LookupResult)
  (r : LookupResult) (after : list LookupResult) (e : error) :
  Forall succeeded before ->
  Err r = Some e ->
  forall objects : ONRSet,
    Length (unionFrom objects before) < limit ->
    anyLoop limit (before ++ r :: after) objects
    = Done (resultErr (Some e)) [].
Proof.
  intros Hbefore Hr. induction Hbefore as [|r' before Hr' _ IH];
    intros objects Hlen; cbn [anyLoop app].
  - now rewrite Hr.
  - rewrite Hr'. change (unionFrom objects (r' :: before))
      with (unionFrom (Update objects (ResolvedObjects r')) before) in *.
    pose proof (unionFrom_Length before
                  (Update objects (ResolvedObjects r'))) as Hmono.
    destruct (Z.geb_spec (Length (Update objects (ResolvedObjects r'))) limit);
      [lia|].
    now apply IH.
Qed.

Lemma anyLoop_limit_reached (limit : Z) (before after : list LookupResult) :
  0 <= limit ->
  Forall succeeded before ->
  before <> [] ->
  forall objects : ONRSet,
    limit <= Length (unionFrom objects before) ->
    exists l, anyLoop limit (before ++ after) objects
              = Done (resultObjects l) [].
Proof.
  intros Hlimit Hbefore. induction Hbefore as [|r before Hr _ IH];
    intros Hne objects Hlen; [contradiction|]. cbn [anyLoop app].
  rewrite Hr. change (unionFrom objects (r :: before))
    with (unionFrom (Update objects (ResolvedObjects r)) before) in *.
  destruct (Z.geb_spec (Length (Update objects (ResolvedObjects r))) limit)
    as [Hfull|Hroom].
  - unfold limitedResult. rewrite (limitedSlice_nonneg _ Hlimit).
    eexists. reflexivity.
  - destruct before as [|r' before];
      [unfold unionFrom in Hlen; simpl in Hlen; unfold Length in *; lia|].
    apply IH; [discriminate | exact Hlen].
Qed.

Lemma LookupAny_of_results (limit : Z)
  (requests : list ReduceableLookupFunc) results evs res :
  runAll requests = Done results evs ->
  anyLoop limit results NewONRSet = Done res [] ->
  LookupAny limit requests = Done res evs.
Proof.
  intros Hrun Hloop. unfold LookupAny, bind.
  now rewrite Hrun, Hloop, app_nil_r.
Qed.

(** When all the results succeed, the loop of [LookupAny] returns the
    first [limit] ONRs of their union, wherever it stops reading. *)
Lemma anyLoop_prefix (limit : Z) (results : list LookupResult) :
  0 <= limit ->
  Forall succeeded results ->
  forall objects : ONRSet,
    anyLoop limit results objects
    = Done (resultObjects
              (firstn (Z.to_nat limit) (unionFrom objects results))) [].
Proof.
  intros Hlimit. induction 1 as [|r results Hr _ IH]; intros objects;
    cbn [anyLoop].
  - unfold limitedResult, AsSlice.
    now rewrite (limitedSlice_nonneg _ Hlimit).
  - unfold succeeded in Hr. rewrite Hr. cbv zeta.
    change (unionFrom objects (r :: results))
      with (unionFrom (Update objects (ResolvedObjects r)) results).
    destruct (Z.geb_spec (Length (Update objects (ResolvedObjects r))) limit)
      as [Hfull|Hroom]; [|apply IH].
    unfold limitedResult, AsSlice.
    rewrite (limitedSlice_nonneg _ Hlimit).
    destruct (unionFrom_extends results (Update objects (ResolvedObjects r)))
      as [ext ->].
    rewrite firstn_app.
    replace (Z.to_nat limit - length (Update objects (ResolvedObjects r)))%nat
      with 0%nat by (unfold Length in Hfull; lia).
    now rewrite firstn_O, app_nil_r.
Qed.



(** X5. [LookupAny] reads the results in the order of its requests.  An
    error is returned when the results before it all succeed and resolve
    fewer than [limit] distinct ONRs; when they reach the limit (which is
    not negative), [LookupAny] returns a success and the error, read
    later or never, is lost. *)
Theorem X5_lookupAny_error_order (limit : Z)
  (requests : list ReduceableLookupFunc)
  (before : list LookupResult) (r : LookupResult)
  (after : list LookupResult) (e : error) evs :
  runAll requests = Done (before ++ r :: after) evs ->
  Forall succeeded before ->
  Err r = Some e ->
  (Length (unionOf before) < limit ->
   LookupAny limit requests = Done (resultErr (Some e)) evs)
  /\ (before <> [] -> 0 <= limit -> limit <= Length (unionOf before) ->
      exists l, LookupAny limit requests = Done (resultObjects l) evs).
Proof.
  intros Hrun Hbefore Hr. split.
  - intros Hlen. eapply LookupAny_of_results; [exact Hrun|].
    now apply anyLoop_error.
  - intros Hne Hlimit Hlen.
    destruct (@anyLoop_limit_reached limit before (r :: after) Hlimit
                Hbefore Hne NewONRSet Hlen) as [l Hloop].
    exists l. eapply LookupAny_of_results; eauto.
Qed.

Lemma X5_lookupAny_error_order_witness :
  LookupAny 3 [Fixture.twoDocuments; Fixture.failing]
  = Done (resultErr (Some Fixture.connectionLost)) []
  /\ exists l,
       LookupAny 2 [Fixture.twoDocuments; Fixture.failing]
       = Done (resultObjects l) [].
Proof.
  assert (Hok : Forall succeeded [resultObjects [Fixture.doc1; Fixture.doc2]]).
  { repeat constructor. }
  split.
  - apply (proj1 (@X5_lookupAny_error_order 3
                    [Fixture.twoDocuments; Fixture.failing]
                    [resultObjects [Fixture.doc1; Fixture.doc2]]
                    (resultErr (Some Fixture.connectionLost)) []
                    Fixture.connectionLost [] eq_refl Hok eq_refl)).
    reflexivity.
  - apply (proj2 (@X5_lookupAny_error_order 2
                    [Fixture.twoDocuments; Fixture.failing]
                    [resultObjects [Fixture.doc1; Fixture.doc2]]
                    (resultErr (Some Fixture.connectionLost)) []
                    Fixture.connectionLost [] eq_refl Hok eq_refl)).
    + discriminate.
    + lia.
    + vm_compute. discriminate.
Defined.


(** ** LookupExclude and LookupAll *)

(** When every result is a success, the loop of [LookupExclude] ends with
    the base results in [objSet] and the other results in [excSet]. *)
Lemma excludeLoop_success (limit : Z) (arrived : list (bool * LookupResult)) :
  Forall (fun tagged => succeeded (snd tagged)) arrived ->
  forall objSet excSet : ONRSet,
    NoDup objSet ->
    exists objSet' excSet' : ONRSet,
      excludeLoop limit arrived objSet excSet
      = limitedResult (AsSlice (Subtract objSet' excSet')) limit /\
      NoDup objSet' /\
      (forall o,
          In o objSet' <->
          In o objSet \/
          exists r, In (true, r) arrived /\ In o (ResolvedObjects r)) /\
      (forall o,
          In o excSet' <->
          In o excSet \/
          exists r, In (false, r) arrived /\ In o (ResolvedObjects r)).
Proof.
  induction 1 as [|[isBase r] arrived Hr _ IH]; intros objSet excSet Hnd;
    cbn [excludeLoop].
  - exists objSet, excSet. split; [reflexivity|]. split; [exact Hnd|].
    split; intros o; (split; [auto | intros [Ho|[r [[] _]]]; exact Ho]).
  - simpl in Hr. unfold succeeded in Hr. rewrite Hr. destruct isBase.
    + destruct (IH (Update objSet (ResolvedObjects r)) excSet
                  (Update_NoDup _ Hnd))
        as [objSet' [excSet' [Hloop [Hnd' [Hobj Hexc]]]]].
      exists objSet', excSet'. split; [exact Hloop|]. split; [exact Hnd'|].
      split; intros o.
      * rewrite Hobj, Update_In. split.
        -- intros [[Ho|Ho]|[r' [Hr' Ho]]]; eauto.
           ++ right. exists r. split; [now left | exact Ho].
           ++ right. exists r'. split; [now right | exact Ho].
        -- intros [Ho|[r' [[[= <-]|Hr'] Ho]]]; eauto.
      * rewrite Hexc. split.
        -- intros [Ho|[r' [Hr' Ho]]]; eauto.
           right. exists r'. split; [now right | exact Ho].
        -- intros [Ho|[r' [[[=]|Hr'] Ho]]]; eauto.
    + destruct (IH objSet (Update excSet (ResolvedObjects r)) Hnd)
        as [objSet' [excSet' [Hloop [Hnd' [Hobj Hexc]]]]].
      exists objSet', excSet'. split; [exact Hloop|]. split; [exact Hnd'|].
      split; intros o.
      * rewrite Hobj. split.
        -- intros [Ho|[r' [Hr' Ho]]]; eauto.
           right. exists r'. split; [now right | exact Ho].
        -- intros [Ho|[r' [[[=]|Hr'] Ho]]]; eauto.
      * rewrite Hexc, Update_In. split.
        -- intros [[Ho|Ho]|[r' [Hr' Ho]]]; eauto.
           ++ right. exists r. split; [now left | exact Ho].
           ++ right. exists r'. split; [now right | exact Ho].
        -- intros [Ho|[r' [[[= <-]|Hr'] Ho]]]; eauto.
Qed.

(** The first error that the loop of [LookupExclude] receives is what it
    returns; the limit is not looked at. *)
Lemma excludeLoop_error (limit : Z) (arrived : list (bool * LookupResult)) :
  Exists (fun tagged => Err (snd tagged) <> None) arrived ->
  forall objSet excSet : ONRSet,
    exists isBase r,
      In (isBase, r) arrived /\ Err r <> None /\
      excludeLoop limit arrived objSet excSet = Done r [].
Proof.
  induction arrived as [|[isBase r] arrived IH]; intros Hex objSet excSet;
    [inversion Hex|].
  cbn [excludeLoop]. destruct (Err r) as [e|] eqn:Er.
  - exists isBase, r. split; [now left|]. split; [congruence|reflexivity].
  - assert (Hex' : Exists (fun tagged => Err (snd tagged) <> None) arrived).
    { inversion Hex as [? ? Hhd|? ? Htl]; subst; [|exact Htl].
      simpl in Hhd. congruence. }
    destruct isBase.
    + destruct (IH Hex' (Update objSet (ResolvedObjects r)) excSet)
        as [b [r' [Hin [Hr' Hloop]]]].
      exists b, r'. split; [now right|]. now split.
    + destruct (IH Hex' objSet (Update excSet (ResolvedObjects r)))
        as [b [r' [Hin [Hr' Hloop]]]].
      exists b, r'. split; [now right|]. now split.
Qed.

Lemma LookupExclude_of_results
  (arrival : forall A : Type, list A -> list A) (limit : Z)
  (baseReq : ReduceableLookupFunc) (others : list ReduceableLookupFunc)
  base e1 subs e2 res :
  baseReq = Done base e1 ->
  runAll others = Done subs e2 ->
  excludeLoop limit
    (arrival _ ((true, base) :: map (fun sub => (false, sub)) subs))
    NewONRSet NewONRSet = Done res [] ->
  LookupExclude arrival limit (baseReq :: others) = Done res (e1 ++ e2).
Proof.
  intros -> Hrun Hloop. unfold LookupExclude, bind.
  now rewrite Hrun, Hloop, app_nil_r.
Qed.

Lemma tagged_base (arrival : forall A : Type, list A -> list A)
  (base : LookupResult) (subs : list LookupResult) r :
  arrivalPermutes arrival ->
  In (true, r)
    (arrival _ ((true, base) :: map (fun sub => (false, sub)) subs))
  <-> r = base.
Proof.
  intros Hperm. split.
  - intros Hin. eapply Permutation_in in Hin; [|apply Hperm].
    destruct Hin as [[= <-]|Hin]; [reflexivity|].
    apply in_map_iff in Hin. destruct Hin as [sub [[=] _]].
  - intros ->. eapply Permutation_in; [apply Permutation_sym, Hperm|].
    now left.
Qed.

Lemma tagged_other (arrival : forall A : Type, list A -> list A)
  (base : LookupResult) (subs : list LookupResult) r :
  arrivalPermutes arrival ->
  In (false, r)
    (arrival _ ((true, base) :: map (fun sub => (false, sub)) subs))
  <-> In r subs.
Proof.
  intros Hperm. split.
  - intros Hin. eapply Permutation_in in Hin; [|apply Hperm].
    destruct Hin as [[=]|Hin].
    apply in_map_iff in Hin. now destruct Hin as [sub [[= <-] Hsub]].
  - intros Hin. eapply Permutation_in; [apply Permutation_sym, Hperm|].
    right. apply in_map_iff. now exists r.
Qed.

(** X7. When all its inputs succeed and the limit is not negative,
    [LookupExclude] returns, for every order of arrival, distinct ONRs
    that the base input resolved and no other input did, at most [limit]
    of them; and all of them when the base input resolved at most
    [limit] ONRs. *)
Theorem X7_lookupExclude_difference
  (arrival : forall A : Type, list A -> list A) (limit : Z)
  (baseReq : ReduceableLookupFunc) (others : list ReduceableLookupFunc)
  base e1 subs e2 :
  arrivalPermutes arrival ->
  baseReq = Done base e1 ->
  runAll others = Done subs e2 ->
  succeeded base ->
  Forall succeeded subs ->
  0 <= limit ->
  exists res,
    LookupExclude arrival limit (baseReq :: others) = Done res (e1 ++ e2) /\
    Err res = None /\
    NoDup (ResolvedObjects res) /\
    Z.of_nat (length (ResolvedObjects res)) <= limit /\
    (forall o,
        In o (ResolvedObjects res) ->
        In o (ResolvedObjects base) /\
        forall sub, In sub subs -> ~ In o (ResolvedObjects sub)) /\
    (Z.of_nat (length (ResolvedObjects base)) <= limit ->
     forall o,
       In o (ResolvedObjects base) ->
       (forall sub, In sub subs -> ~ In o (ResolvedObjects sub)) ->
       In o (ResolvedObjects res)).
Proof.
  intros Hperm Hbase Hrun Hok Hoks Hlimit.
  set (arrived := arrival _ ((true, base)
                             :: map (fun sub => (false, sub)) subs)).
  assert (Harrived : Forall (fun tagged => succeeded (snd tagged)) arrived).
  { apply Forall_forall. intros [b r] Hin.
    eapply Permutation_in in Hin; [|apply Hperm].
    destruct Hin as [[= <- <-]|Hin]; [exact Hok|].
    apply in_map_iff in Hin. destruct Hin as [sub [[= <- <-] Hsub]].
    simpl. rewrite Forall_forall in Hoks. now apply Hoks. }
  destruct (excludeLoop_success limit Harrived NewONRSet (NoDup_nil _))
    as [objSet [excSet [Hloop [Hnd [Hobj Hexc]]]]].
  assert (HinO : forall o, In o objSet <-> In o (ResolvedObjects base)).
  { intros o. rewrite Hobj. split.
    - intros [[]|[r [Hr Ho]]]. apply (tagged_base _ _ _ Hperm) in Hr.
      now subst.
    - intros Ho. right. exists base. split; [|exact Ho].
      now apply (tagged_base _ _ _ Hperm). }
  assert (HinE : forall o, In o excSet <->
                           exists sub, In sub subs /\
                                       In o (ResolvedObjects sub)).
  { intros o. rewrite Hexc. split.
    - intros [[]|[r [Hr Ho]]]. apply (tagged_other _ _ _ Hperm) in Hr.
      eauto.
    - intros [sub [Hsub Ho]]. right. exists sub. split; [|exact Ho].
      now apply (tagged_other _ _ _ Hperm). }
  unfold limitedResult in Hloop.
  rewrite (limitedSlice_nonneg _ Hlimit) in Hloop.
  exists (resultObjects
            (firstn (Z.to_nat limit) (AsSlice (Subtract objSet excSet)))).
  split; [now apply LookupExclude_of_results with (base := base) (subs := subs)|].
  split; [reflexivity|]. simpl.
  assert (HndS : NoDup (Subtract objSet excSet)).
  { unfold Subtract. now apply filter_NoDup. }
  split; [now apply firstn_NoDup|].
  split; [rewrite length_firstn; lia|]. split.
  - intros o Ho. apply firstn_In_incl in Ho. unfold AsSlice in Ho.
    apply Subtract_In in Ho. destruct Ho as [Ho Hne]. split.
    + now apply HinO.
    + intros sub Hsub Hin. apply Hne, HinE. eauto.
  - intros Hlen o Ho Hne.
    assert (Hsize : (length (Subtract objSet excSet)
                     <= length (ResolvedObjects base))%nat).
    { transitivity (length objSet).
      - unfold Subtract. apply filter_length_le.
      - apply NoDup_incl_length; [exact Hnd|]. intros x. apply HinO. }
    unfold AsSlice. rewrite firstn_all2 by lia.
    apply Subtract_In. split; [now apply HinO|].
    intros Hin. apply HinE in Hin. destruct Hin as [sub [Hsub Hin]].
    exact (Hne sub Hsub Hin).
Qed.

Lemma X7_lookupExclude_difference_witness :
  exists res,
    LookupExclude Fixture.inOrder 5
      [Fixture.twoDocuments; ResolvedObjectsFn [Fixture.doc2]]
    = Done res ([] ++ []) /\
    Err res = None /\
    NoDup (ResolvedObjects res) /\
    Z.of_nat (length (ResolvedObjects res)) <= 5 /\
    (forall o,
        In o (ResolvedObjects res) ->
        In o (ResolvedObjects (resultObjects [Fixture.doc1; Fixture.doc2])) /\
        forall sub,
          In sub [resultObjects [Fixture.doc2]] ->
          ~ In o (ResolvedObjects sub)) /\
    (Z.of_nat
       (length (ResolvedObjects (resultObjects [Fixture.doc1; Fixture.doc2])))
     <= 5 ->
     forall o,
       In o (ResolvedObjects (resultObjects [Fixture.doc1; Fixture.doc2])) ->
       (forall sub,
           In sub [resultObjects [Fixture.doc2]] ->
           ~ In o (ResolvedObjects sub)) ->
       In o (ResolvedObjects res)).
Proof.
  apply (@X7_lookupExclude_difference Fixture.inOrder 5
           Fixture.twoDocuments [ResolvedObjectsFn [Fixture.doc2]]
           (resultObjects [Fixture.doc1; Fixture.doc2]) []
           [resultObjects [Fixture.doc2]] []).
  - intros A l. apply Permutation_refl.
  - reflexivity.
  - reflexivity.
  - reflexivity.
  - repeat constructor.
  - lia.
Defined.

(** X8. When one of its inputs fails, [LookupExclude] returns a failed
    input result as it is, for every order of arrival and every limit, a
    negative one included: an error of an input is never turned into a
    success. *)
Theorem X8_lookupExclude_error_surfaces
  (arrival : forall A : Type, list A -> list A) (limit : Z)
  (baseReq : ReduceableLookupFunc) (others : list ReduceableLookupFunc)
  base e1 subs e2 :
  arrivalPermutes arrival ->
  baseReq = Done base e1 ->
  runAll others = Done subs e2 ->
  Exists (fun r => Err r <> None) (base :: subs) ->
  exists res,
    LookupExclude arrival limit (baseReq :: others) = Done res (e1 ++ e2) /\
    Err res <> None /\
    In res (base :: subs).
Proof.
  intros Hperm Hbase Hrun Hex.
  set (tagged := (true, base) :: map (fun sub => (false, sub)) subs).
  assert (Htagged : Exists (fun t : bool * LookupResult => Err (snd t) <> None)
                      (arrival _ tagged)).
  { apply Exists_exists in Hex. destruct Hex as [r [Hin Hr]].
    apply Exists_exists.
    destruct Hin as [<-|Hin].
    - exists (true, base). split; [|exact Hr].
      now apply (tagged_base _ _ _ Hperm).
    - exists (false, r). split; [|exact Hr].
      now apply (tagged_other _ _ _ Hperm). }
  destruct (excludeLoop_error limit Htagged NewONRSet NewONRSet)
    as [isBase [r [Hin [Hr Hloop]]]].
  exists r. split; [|split; [exact Hr|]].
  - now apply LookupExclude_of_results with (base := base) (subs := subs).
  - destruct isBase.
    + left. symmetry. now apply (tagged_base _ _ _ Hperm) in Hin.
    + right. now apply (tagged_other _ _ _ Hperm) in Hin.
Qed.

Lemma X8_lookupExclude_error_surfaces_witness :
  exists res,
    LookupExclude Fixture.inOrder (-1)
      [Fixture.twoDocuments; Fixture.failing]
    = Done res ([] ++ []) /\
    Err res <> None /\
    In res [resultObjects [Fixture.doc1; Fixture.doc2];
            resultErr (Some Fixture.connectionLost)].
Proof.
  apply (@X8_lookupExclude_error_surfaces Fixture.inOrder (-1)
           Fixture.twoDocuments [Fixture.failing]
           (resultObjects [Fixture.doc1; Fixture.doc2]) []
           [resultErr (Some Fixture.connectionLost)] []).
  - intros A l. apply Permutation_refl.
  - reflexivity.
  - reflexivity.
  - apply Exists_cons_tl, Exists_cons_hd. discriminate.
Defined.

(** The loop of [LookupAll] over results of which one failed: it stops at
    the error, or earlier at an empty intersection. *)
Lemma allLoop_error (arrived : list LookupResult) :
  Exists (fun r => Err r <> None) arrived ->
  forall (first : bool) (objSet : ONRSet),
    (Err (allLoop arrived first objSet) <> None /\
     In (allLoop arrived first objSet) arrived)
    \/ allLoop arrived first objSet = mkResult [] None.
Proof.
  induction arrived as [|r arrived IH]; intros Hex first objSet;
    [inversion Hex|].
  cbn [allLoop]. destruct (Err r) as [e|] eqn:Er.
  - left. split; [congruence | now left].
  - assert (Hex' : Exists (fun r => Err r <> None) arrived).
    { inversion Hex as [? ? Hhd|? ? Htl]; subst; [congruence | exact Htl]. }
    cbv zeta.
    destruct (Length _ =? 0); [now right|].
    destruct (IH Hex' false
                (if first then Update NewONRSet (ResolvedObjects r)
                 else Intersect objSet (Update NewONRSet (ResolvedObjects r))))
      as [[Herr Hin]|Hempty].
    + left. split; [exact Herr | now right].
    + now right.
Qed.

(** X9. When one of its inputs fails, [LookupAll] returns either a failed
    input result as it is or the empty success, depending on the order of
    arrival: the error is lost when the results received before it have
    an empty intersection, and a success with objects is never
    returned. *)
Theorem X9_lookupAll_error_or_empty
  (arrival : forall A : Type, list A -> list A) (limit : Z)
  (requests : list ReduceableLookupFunc)
  (results : list LookupResult) evs :
  arrivalPermutes arrival ->
  runAll requests = Done results evs ->
  Exists (fun r => Err r <> None) results ->
  exists res,
    LookupAll arrival limit requests = Done res evs /\
    ((Err res <> None /\ In res results) \/ res = mkResult [] None).
Proof.
  intros Hperm Hrun Hex.
  assert (Harrived : Exists (fun r => Err r <> None) (arrival _ results)).
  { apply Exists_exists in Hex. destruct Hex as [r [Hin Hr]].
    apply Exists_exists. exists r. split; [|exact Hr].
    eapply Permutation_in; [apply Permutation_sym, Hperm | exact Hin]. }
  exists (allLoop (arrival _ results) true NewONRSet). split.
  - destruct requests as [|req requests].
    + cbn in Hrun. injection Hrun as <- <-. inversion Hex.
    + unfold LookupAll, bind. rewrite Hrun. unfold ret.
      now rewrite app_nil_r.
  - destruct (allLoop_error Harrived true NewONRSet) as [[Herr Hin]|Hempty].
    + left. split; [exact Herr|].
      eapply Permutation_in; [apply Hperm | exact Hin].
    + now right.
Qed.

Lemma X9_lookupAll_error_or_empty_witness :
  exists res,
    LookupAll Fixture.inOrder 5 [Fixture.nothing; Fixture.failing]
    = Done res [] /\
    ((Err res <> None /\
      In res [resultObjects []; resultErr (Some Fixture.connectionLost)])
     \/ res = mkResult [] None).
Proof.
  apply (@X9_lookupAll_error_or_empty Fixture.inOrder 5
           [Fixture.nothing; Fixture.failing]
           [resultObjects []; resultErr (Some Fixture.connectionLost)] []).
  - intros A l. apply Permutation_refl.
  - reflexivity.
  - apply Exists_cons_tl, Exists_cons_hd. discriminate.
Defined.

(** ** lookupComputed *)

Lemma rewriteResolved_same_namespace (req : LookupRequest)
  (resolved : list ObjectAndRelation) :
  Forall (fun r => Namespace r = RefNamespace (StartRelation req)) resolved ->
  forall rewritten,
    rewriteResolved req resolved rewritten
    = inr (rewritten ++ map (rewrittenONR req) resolved).
Proof.
  induction 1 as [|r resolved Hr _ IH]; intros rewritten; cbn [rewriteResolved].
  - now rewrite app_nil_r.
  - apply String.eqb_eq in Hr. rewrite Hr. cbn [negb]. rewrite IH.
    now rewrite <- app_assoc.
Qed.

Lemma rewriteResolved_other_namespace (req : LookupRequest)
  (before : list ObjectAndRelation) (r : ObjectAndRelation)
  (after : list ObjectAndRelation) :
  Forall (fun r => Namespace r = RefNamespace (StartRelation req)) before ->
  Namespace r <> RefNamespace (StartRelation req) ->
  forall rewritten,
    rewriteResolved req (before ++ r :: after) rewritten
    = inl (ErrInvalidNamespace r (RefNamespace (StartRelation req))).
Proof.
  intros Hbefore Hr.
  induction Hbefore as [|b before Hb _ IH]; intros rewritten;
    cbn [rewriteResolved app].
  - apply String.eqb_neq in Hr. now rewrite Hr.
  - apply String.eqb_eq in Hb. rewrite Hb. cbn [negb]. apply IH.
Qed.

(** X10. [lookupComputed] calls the dispatcher once, for the computed
    userset relation, while the request is built.  When the dispatcher
    succeeds with ONRs of the start namespace, the request returned
    resolves the same objects, in the same order, under the start
    relation; when some ONR is of another namespace the request fails
    with the invalid-namespace error of the first such ONR. *)
Theorem X10_lookupComputed_relabels (cl : concurrentLookup)
  (req : LookupRequest) (cu : string) :
  succeeded (Lookup (cl_d cl) (computedLookupRequest req cu)) ->
  (Forall (fun r => Namespace r = RefNamespace (StartRelation req))
     (ResolvedObjects (Lookup (cl_d cl) (computedLookupRequest req cu))) ->
   lookupComputed cl req cu
   = Done (ResolvedObjectsFn
             (map (rewrittenONR req)
                (ResolvedObjects
                   (Lookup (cl_d cl) (computedLookupRequest req cu)))))
       [EvDispatch (computedLookupRequest req cu)])
  /\ (forall before r after,
         ResolvedObjects (Lookup (cl_d cl) (computedLookupRequest req cu))
         = before ++ r :: after ->
         Forall (fun r => Namespace r = RefNamespace (StartRelation req))
           before ->
         Namespace r <> RefNamespace (StartRelation req) ->
         lookupComputed cl req cu
         = Done (ret (resultErr
                        (Some (ErrInvalidNamespace r
                                 (RefNamespace (StartRelation req))))))
             [EvDispatch (computedLookupRequest req cu)]).
Proof.
  intros Hok. unfold succeeded in Hok.
  unfold lookupComputed, LookupOne, dispatch, bind, emit, ret.
  cbn [app]. rewrite Hok. split.
  - intros Hns. now rewrite (@rewriteResolved_same_namespace req _ Hns).
  - intros before r after -> Hbefore Hr.
    now rewrite (@rewriteResolved_other_namespace req before r after
                   Hbefore Hr).
Qed.

Lemma X10_lookupComputed_relabels_witness :
  lookupComputed Fixture.cl Fixture.reqRead "viewer"
  = Done (ResolvedObjectsFn
            [mkONR "document" "1" "read"; mkONR "document" "2" "read"])
      [EvDispatch (computedLookupRequest Fixture.reqRead "viewer")].
Proof.
  apply (proj1 (@X10_lookupComputed_relabels Fixture.cl Fixture.reqRead
                  "viewer" eq_refl)).
  repeat constructor.
Defined.

(** ** processTupleToUserset *)

Lemma collectUsersets_allowed (typeSystem : NamespaceTypeSystem)
  (tupleset : string) (all resolved : list ObjectAndRelation) :
  incl resolved all ->
  forall usersets sent usersets' sent',
    Forall (usersetOf typeSystem tupleset all) usersets ->
    collectUsersets typeSystem tupleset resolved usersets sent
    = UsersetsDone usersets' sent' ->
    Forall (usersetOf typeSystem tupleset all) usersets' /\
    (length usersets' <= length usersets + 2 * length resolved)%nat.
Proof.
  induction resolved as [|resolvedObj rest IH];
    intros Hincl usersets sent usersets' sent' Husersets Hrun;
    cbn [collectUsersets] in Hrun.
  - injection Hrun as <- <-. split; [exact Husersets | lia].
  - assert (Hobj : In resolvedObj all) by (apply Hincl; now left).
    assert (Hrest : incl rest all).
    { intros x Hx. apply Hincl. now right. }
    destruct (IsAllowedDirectRelation typeSystem tupleset
                (Namespace resolvedObj) (Relation resolvedObj))
      as [allowedDirect err] eqn:EDirect.
    destruct err as [e|]; [discriminate|].
    set (own := if isValid allowedDirect then [Relation resolvedObj] else [])
      in Hrun.
    assert (Hown :
              Forall (usersetOf typeSystem tupleset all)
                (map (fun allowedRelation =>
                        mkONR (Namespace resolvedObj) (ObjectId resolvedObj)
                          allowedRelation) own)
              /\ (length own <= 1)%nat).
    { subst own. destruct (isValid allowedDirect) eqn:EValid; cbn [map].
      - split; [|simpl; lia]. constructor; [|constructor].
        exists resolvedObj. cbn. rewrite EDirect.
        repeat split; auto.
      - split; [constructor | simpl; lia]. }
    destruct Hown as [Hown HownLen].
    destruct (negb (String.eqb (Relation resolvedObj) Ellipsis)).
    + destruct (IsAllowedDirectRelation typeSystem tupleset
                  (Namespace resolvedObj) Ellipsis)
        as [allowedEllipsis err] eqn:EEllipsis.
      assert (Hboth :
                Forall (usersetOf typeSystem tupleset all)
                  (map (fun allowedRelation =>
                          mkONR (Namespace resolvedObj)
                            (ObjectId resolvedObj) allowedRelation)
                     (if isValid allowedEllipsis then own ++ [Ellipsis]
                      else own))
                /\ (length (if isValid allowedEllipsis
                            then own ++ [Ellipsis] else own) <= 2)%nat).
      { destruct (isValid allowedEllipsis) eqn:EValid.
        - split; [|rewrite length_app; simpl; lia].
          rewrite map_app. apply Forall_app. split; [exact Hown|].
          constructor; [|constructor].
          exists resolvedObj. cbn. rewrite EEllipsis.
          repeat split; auto.
        - split; [exact Hown | lia]. }
      destruct Hboth as [Hboth HbothLen].
      assert (Hgo : forall sent0,
                 collectUsersets typeSystem tupleset rest
                   (usersets ++
                    map (fun allowedRelation =>
                           mkONR (Namespace resolvedObj)
                             (ObjectId resolvedObj) allowedRelation)
                      (if isValid allowedEllipsis then own ++ [Ellipsis]
                       else own)) sent0
                 = UsersetsDone usersets' sent' ->
                 Forall (usersetOf typeSystem tupleset all) usersets' /\
                 (length usersets'
                  <= length usersets + 2 * length (resolvedObj :: rest))%nat).
      { intros sent0 Hrun0.
        apply IH in Hrun0; [|exact Hrest|].
        - destruct Hrun0 as [Hall Hlen]. split; [exact Hall|].
          rewrite length_app, length_map in Hlen. simpl. lia.
        - apply Forall_app. split; assumption. }
      destruct err as [e|]; [destruct sent as [first|]; [discriminate|]|];
        exact (Hgo _ Hrun).
    + apply IH in Hrun; [|exact Hrest|].
      * destruct Hrun as [Hall Hlen]. split; [exact Hall|].
        rewrite length_app, length_map in Hlen. simpl. lia.
      * apply Forall_app. split; assumption.
Qed.

(** X11. The usersets that [processTupleToUserset] collects for the
    tupleset query are built from the resolved objects only: each one is a
    resolved object under its own relation or under the ellipsis, a
    relation that the type system allows on the tupleset; there are at
    most two of them for each resolved object. *)
Theorem X11_collectUsersets_allowed (typeSystem : NamespaceTypeSystem)
  (tupleset : string) (resolved usersets : list ObjectAndRelation)
  (sent : option LookupResult) :
  collectUsersets typeSystem tupleset resolved [] None
  = UsersetsDone usersets sent ->
  Forall (usersetOf typeSystem tupleset resolved) usersets /\
  (length usersets <= 2 * length resolved)%nat.
Proof.
  intros Hrun.
  apply (@collectUsersets_allowed typeSystem tupleset resolved resolved
           (incl_refl _) [] None usersets sent (Forall_nil _)) in Hrun.
  exact Hrun.
Qed.

Lemma X11_collectUsersets_allowed_witness :
  Forall
    (usersetOf Fixture.tsDocument "parent"
       [Fixture.folderF; mkONR "user" "bob" "member"])
    [mkONR "folder" "f" Ellipsis] /\
  (length [mkONR "folder" "f" Ellipsis]
   <= 2 * length [Fixture.folderF; mkONR "user" "bob" "member"])%nat.
Proof.
  apply (@X11_collectUsersets_allowed Fixture.tsDocument "parent"
           [Fixture.folderF; mkONR "user" "bob" "member"]
           [mkONR "folder" "f" Ellipsis] None).
  reflexivity.
Defined.

Lemma existsb_eqb_In (ns : string) (namespaces : list string) :
  existsb (String.eqb ns) namespaces = true <-> In ns namespaces.
Proof.
  rewrite existsb_exists. split.
  - intros [x [Hx Heq]]. apply String.eqb_eq in Heq. now subst.
  - intros Hin. exists ns. split; [exact Hin | apply String.eqb_refl].
Qed.

Lemma ttuLoop_requests (cl : concurrentLookup) (req : LookupRequest)
  (typeSystem : NamespaceTypeSystem) (tupleset cu : string)
  (onr : ObjectAndRelation) (tuplesetDirectRelations : list RelationReference) :
  forall namespaces requests chosen requests' evs,
    (forall ns, In ns namespaces <-> In ns (map RefNamespace chosen)) ->
    requests = map (ttuRequest cl req typeSystem tupleset cu onr) chosen ->
    NoDup (map RefNamespace chosen) ->
    ttuLoop cl req typeSystem tupleset cu onr tuplesetDirectRelations
      namespaces requests = Done (Fallthrough requests') evs ->
    exists chosen',
      requests' = map (ttuRequest cl req typeSystem tupleset cu onr) chosen' /\
      NoDup (map RefNamespace chosen') /\
      (forall r,
          In r chosen' ->
          In r chosen \/
          (In r tuplesetDirectRelations /\
           HasRelation
             (snd (fst (ReadNamespaceAndTypes (cl_nsm cl) (RefNamespace r))))
             cu = true)) /\
      (forall r,
          (In r chosen \/ In r tuplesetDirectRelations) ->
          HasRelation
            (snd (fst (ReadNamespaceAndTypes (cl_nsm cl) (RefNamespace r))))
            cu = true ->
          In (RefNamespace r) (map RefNamespace chosen')).
Proof.
  induction tuplesetDirectRelations as [|directRelation rest IH];
    intros namespaces requests chosen requests' evs Hns Hreqs Hnd Hrun;
    cbn [ttuLoop] in Hrun.
  - injection Hrun as <- <-. exists chosen.
    split; [exact Hreqs|]. split; [exact Hnd|]. split; [now left|].
    intros r [Hr|[]] _. now apply in_map.
  - destruct (existsb (String.eqb (RefNamespace directRelation)) namespaces)
      eqn:ESeen.
    + destruct (IH _ _ _ _ _ Hns Hreqs Hnd Hrun)
        as [chosen' [Hreqs' [Hnd' [Hfrom Hall]]]].
      exists chosen'. split; [exact Hreqs'|]. split; [exact Hnd'|]. split.
      * intros r Hr. destruct (Hfrom r Hr) as [Hc|[Hin Hcu]]; [now left|].
        right. split; [now right | exact Hcu].
      * intros r [Hr|[<-|Hr]] Hcu; [apply Hall; auto | | apply Hall; auto].
        apply existsb_eqb_In, Hns in ESeen.
        apply in_map_iff in ESeen. destruct ESeen as [c [Hc Hin]].
        rewrite <- Hc. apply Hall; [now left|].
        now rewrite Hc.
    + apply bind_Done in Hrun.
      destruct Hrun as [[] [e1 [e2 [_ [Hrun _]]]]].
      destruct (ReadNamespaceAndTypes (cl_nsm cl)
                  (RefNamespace directRelation))
        as [[nsdef directRelTypeSystem] err] eqn:ERead.
      destruct err as [e|]; [discriminate|].
      assert (Hfresh : ~ In (RefNamespace directRelation)
                         (map RefNamespace chosen)).
      { intros Hin. apply Hns, existsb_eqb_In in Hin. congruence. }
      destruct (HasRelation directRelTypeSystem cu) eqn:ECu;
        cbn [negb] in Hrun.
      * destruct (IH (RefNamespace directRelation :: namespaces)
                    (requests ++
                     [ttuRequest cl req typeSystem tupleset cu onr
                        directRelation])
                    (chosen ++ [directRelation]) requests' e2)
          as [chosen' [Hreqs' [Hnd' [Hfrom Hall]]]].
        -- intros ns. rewrite map_app, in_app_iff. cbn.
           rewrite Hns. tauto.
        -- now rewrite map_app, Hreqs.
        -- rewrite map_app. cbn.
           apply NoDup_app_remove_l with (l := []). cbn.
           apply Permutation_NoDup
             with (l := RefNamespace directRelation
                        :: map RefNamespace chosen).
           ++ apply Permutation_cons_append.
           ++ now constructor.
        -- exact Hrun.
        -- exists chosen'. split; [exact Hreqs'|]. split; [exact Hnd'|].
           split.
           ++ intros r Hr. destruct (Hfrom r Hr) as [Hc|[Hin Hcu]].
              ** apply in_app_iff in Hc. destruct Hc as [Hc|[<-|[]]].
                 --- now left.
                 --- right. split; [now left|]. now rewrite ERead.
              ** right. split; [now right | exact Hcu].
           ++ intros r [Hr|[<-|Hr]] Hcu; apply Hall; auto.
              ** left. apply in_app_iff. now left.
              ** left. apply in_app_iff. right. now left.
      * destruct (IH _ _ _ _ _ Hns Hreqs Hnd Hrun)
          as [chosen' [Hreqs' [Hnd' [Hfrom Hall]]]].
        exists chosen'. split; [exact Hreqs'|]. split; [exact Hnd'|]. split.
        -- intros r Hr. destruct (Hfrom r Hr) as [Hc|[Hin Hcu]]; [now left|].
           right. split; [now right | exact Hcu].
        -- intros r [Hr|[<-|Hr]] Hcu; [apply Hall; auto | | apply Hall; auto].
           rewrite ERead in Hcu. cbn in Hcu. congruence.
Qed.

(** X12. When the namespace reads succeed, [processTupleToUserset] builds
    one request for each namespace of a direct relation of the tupleset
    that has the computed userset relation: a namespace allowed under
    several relations gets one request, and a namespace without that
    relation gets none. *)
Theorem X12_ttu_one_request_per_namespace (cl : concurrentLookup)
  (req : LookupRequest) (typeSystem : NamespaceTypeSystem)
  (tupleset cu : string) (onr : ObjectAndRelation)
  (tuplesetDirectRelations : list RelationReference)
  (requests : list ReduceableLookupFunc) (evs : Trace) :
  ttuLoop cl req typeSystem tupleset cu onr tuplesetDirectRelations [] []
  = Done (Fallthrough requests) evs ->
  exists chosen,
    requests = map (ttuRequest cl req typeSystem tupleset cu onr) chosen /\
    NoDup (map RefNamespace chosen) /\
    (forall r,
        In r chosen ->
        In r tuplesetDirectRelations /\
        HasRelation
          (snd (fst (ReadNamespaceAndTypes (cl_nsm cl) (RefNamespace r))))
          cu = true) /\
    (forall r,
        In r tuplesetDirectRelations ->
        HasRelation
          (snd (fst (ReadNamespaceAndTypes (cl_nsm cl) (RefNamespace r))))
          cu = true ->
        In (RefNamespace r) (map RefNamespace chosen)).
Proof.
  intros Hrun.
  destruct (@ttuLoop_requests cl req typeSystem tupleset cu onr
              tuplesetDirectRelations [] [] [] requests evs)
    as [chosen [Hreqs [Hnd [Hfrom Hall]]]].
  - intros ns. reflexivity.
  - reflexivity.
  - constructor.
  - exact Hrun.
  - exists chosen. split; [exact Hreqs|]. split; [exact Hnd|]. split.
    + intros r Hr. destruct (Hfrom r Hr) as [[]|Hin]. exact Hin.
    + intros r Hr Hcu. apply Hall; auto.
Qed.

Lemma X12_ttu_one_request_per_namespace_witness :
  exists chosen,
    [ttuRequest Fixture.cl Fixture.reqRead Fixture.tsDocument "parent"
       "viewer" (stackKey "document" "read") (mkRef "document" Ellipsis)]
    = map (ttuRequest Fixture.cl Fixture.reqRead Fixture.tsDocument
             "parent" "viewer" (stackKey "document" "read")) chosen /\
    NoDup (map RefNamespace chosen) /\
    (forall r,
        In r chosen ->
        In r [mkRef "document" Ellipsis; mkRef "folder" Ellipsis;
              mkRef "document" "viewer"] /\
        HasRelation
          (snd (fst (ReadNamespaceAndTypes (cl_nsm Fixture.cl)
                       (RefNamespace r))))
          "viewer" = true) /\
    (forall r,
        In r [mkRef "document" Ellipsis; mkRef "folder" Ellipsis;
              mkRef "document" "viewer"] ->
        HasRelation
          (snd (fst (ReadNamespaceAndTypes (cl_nsm Fixture.cl)
                       (RefNamespace r))))
          "viewer" = true ->
        In (RefNamespace r) (map RefNamespace chosen)).
Proof.
  apply (@X12_ttu_one_request_per_namespace Fixture.cl Fixture.reqRead
           Fixture.tsDocument "parent" "viewer" (stackKey "document" "read")
           [mkRef "document" Ellipsis; mkRef "folder" Ellipsis;
            mkRef "document" "viewer"]
           [ttuRequest Fixture.cl Fixture.reqRead Fixture.tsDocument
              "parent" "viewer" (stackKey "document" "read")
              (mkRef "document" Ellipsis)]
           [EvReadNamespace "document"; EvReadNamespace "folder"]).
  reflexivity.
Defined.

(** ** The tuple loops *)

Lemma Add_length (s : ONRSet) (onr : ObjectAndRelation) :
  Length s <= Length (fst (Add s onr)) <= Length s + 1.
Proof.
  unfold Add, Length. destruct (Has s onr); cbn [fst].
  - lia.
  - rewrite length_app. simpl. lia.
Qed.

(** A tuple loop stops at the limit: it collects distinct ONRs, one at
    least when the iterator has a tuple, and no more than the limit
    otherwise. *)
Lemma drain_bound (limit : Z)
  (body : RelationTuple -> error + ObjectAndRelation)
  (errAtEnd : option error) (items : list (RelationTuple * option error)) :
  forall (objects objects' : ONRSet) itErr,
    NoDup objects ->
    drain limit body items errAtEnd objects = IterDone objects' itErr ->
    NoDup objects' /\
    Length objects' <= Z.max limit (Length objects + 1) /\
    forall o,
      In o objects' ->
      In o objects \/
      exists tpl, In tpl (map fst items) /\ body tpl = inr o.
Proof.
  induction items as [|[tpl tplErr] items IH];
    intros objects objects' itErr Hnd Hrun; cbn [drain] in Hrun.
  - injection Hrun as <- <-. split; [exact Hnd|]. split; [lia | now left].
  - destruct tplErr as [e|]; [discriminate|].
    destruct (body tpl) as [e|onr] eqn:EBody; [discriminate|].
    cbv zeta in Hrun.
    pose proof (Add_length objects onr) as Hlen.
    pose proof (@Add_NoDup objects onr Hnd) as Hnd1.
    assert (Hfrom : forall o,
               In o (fst (Add objects onr)) -> In o objects \/ o = onr).
    { intros o Ho. apply Add_In in Ho. tauto. }
    destruct (Length (fst (Add objects onr)) >=? limit) eqn:ELimit.
    + injection Hrun as <- <-. split; [exact Hnd1|]. split; [lia|].
      intros o Ho. destruct (Hfrom o Ho) as [Hin| ->]; [now left|].
      right. exists tpl. split; [now left | exact EBody].
    + destruct (IH _ _ _ Hnd1 Hrun) as [Hnd' [Hlen' Hin']].
      split; [exact Hnd'|]. split; [lia|].
      intros o Ho. destruct (Hin' o Ho) as [Hin|[tpl' [Htpl' Hbody']]].
      * destruct (Hfrom o Hin) as [Hold| ->]; [now left|].
        right. exists tpl. split; [now left | exact EBody].
      * right. exists tpl'. split; [now right | exact Hbody'].
Qed.

(** X13. The request of [lookupDirect] on the tuples of the target makes
    one reverse query and returns.  A successful result holds distinct
    ONRs, each the object of a tuple the query yielded, and at most
    [limit] of them, or at most one when the limit is below one: the
    loop tests the limit after it has added an object. *)
Theorem X13_directRequest_bounded (cl : concurrentLookup)
  (req : LookupRequest) :
  exists res,
    directRequest cl req
    = Done res [EvReverseQuery (TargetONR req) (AtRevision req)
                  (RefNamespace (StartRelation req))
                  (RefRelation (StartRelation req))] /\
    (succeeded res ->
     NoDup (ResolvedObjects res) /\
     Z.of_nat (length (ResolvedObjects res)) <= Z.max 1 (Limit req) /\
     forall o,
       In o (ResolvedObjects res) ->
       exists tpl,
         In tpl
           (map fst
              (Items
                 (fst (ReverseQueryTuplesFromSubject (cl_ds cl)
                         (TargetONR req) (AtRevision req)
                         (RefNamespace (StartRelation req))
                         (RefRelation (StartRelation req)))))) /\
         o = ObjectAndRelationOf tpl).
Proof.
  unfold directRequest, bind, emit, ret.
  destruct (ReverseQueryTuplesFromSubject (cl_ds cl) (TargetONR req)
              (AtRevision req) (RefNamespace (StartRelation req))
              (RefRelation (StartRelation req))) as [it err].
  cbn [fst].
  assert (Hempty : forall e : option error,
             succeeded (resultErr e) ->
             NoDup (ResolvedObjects (resultErr e)) /\
             Z.of_nat (length (ResolvedObjects (resultErr e)))
             <= Z.max 1 (Limit req) /\
             forall o,
               In o (ResolvedObjects (resultErr e)) ->
               exists tpl,
                 In tpl (map fst (Items it)) /\ o = ObjectAndRelationOf tpl).
  { intros e _. cbn. split; [constructor|]. split; [lia|]. intros o []. }
  destruct err as [e|].
  - eexists. split; [reflexivity|]. apply Hempty.
  - destruct (drain (Limit req) addObject (Items it) (ErrAtEnd it) NewONRSet)
      as [result|objects itErr] eqn:EDrain.
    + pose proof (@drain_spec (fun _ => True) (Limit req) addObject
                    (ErrAtEnd it) (Items it) (fun _ _ _ _ _ => I)
                    NewONRSet (Forall_nil _)) as Hspec.
      rewrite EDrain in Hspec.
      eexists. split; [reflexivity|]. intros Hok. contradiction.
    + destruct (@drain_bound (Limit req) addObject (ErrAtEnd it) (Items it)
                  NewONRSet objects itErr (NoDup_nil _) EDrain)
        as [Hnd [Hlen Hin]].
      destruct itErr as [e|].
      * eexists. split; [reflexivity|]. apply Hempty.
      * eexists. split; [reflexivity|]. intros _. cbn.
        split; [exact Hnd|]. split.
        -- unfold Length, NewONRSet in Hlen. simpl in Hlen.
           unfold AsSlice. lia.
        -- intros o Ho. destruct (Hin o Ho) as [[]|[tpl [Htpl Hbody]]].
           exists tpl. split; [exact Htpl|].
           unfold addObject in Hbody. congruence.
Qed.

(* ================================================================== *)
(** * The calls of a lookup *)
(* ================================================================== *)

Arguments tracedBy T {A} m Phi : simpl never.
Arguments traced Q {A} m Phi : simpl never.

Lemma tracedBy_bind {A B} (T1 : Trace -> Prop) (T2 : A -> Trace -> Prop)
  (T : Trace -> Prop) (m : M A) (k : A -> M B) (Phi : B -> Prop) :
  (forall a e1 e2, T1 e1 -> T2 a e2 -> T (e1 ++ e2)) ->
  (forall e1, T1 e1 -> T e1) ->
  tracedBy T1 m (fun a => tracedBy (T2 a) (k a) Phi) ->
  tracedBy T (bind m k) Phi.
Proof.
  intros Happ Hleft. unfold tracedBy, bind.
  destruct m as [a e1|msg e1|]; [|now apply Hleft|trivial].
  intros [He1 Hk]. destruct (k a) as [b e2|msg e2|]; [| |exact Hk].
  - destruct Hk as [He2 Hb]. split; [now apply (Happ a) | exact Hb].
  - now apply (Happ a).
Qed.

Lemma tracedBy_mono {A} (T T' : Trace -> Prop) (m : M A)
  (Phi Psi : A -> Prop) :
  (forall evs, T evs -> T' evs) ->
  (forall a, Phi a -> Psi a) ->
  tracedBy T m Phi -> tracedBy T' m Psi.
Proof.
  intros HT HPhi. unfold tracedBy. destruct m as [a evs|msg evs|]; auto.
  intros [Hevs Ha]. split; auto.
Qed.

Lemma traced_ret (Q : Event -> Prop) {A} (a : A) (Phi : A -> Prop) :
  Phi a -> traced Q (ret a) Phi.
Proof. intros Ha. split; [constructor | exact Ha]. Qed.

Lemma traced_emit (Q : Event -> Prop) (e : Event) (Phi : unit -> Prop) :
  Q e -> Phi tt -> traced Q (emit e) Phi.
Proof. intros Hq Ha. split; [now repeat constructor | exact Ha]. Qed.

Lemma traced_panic (Q : Event -> Prop) {A} (msg : string)
  (Phi : A -> Prop) :
  traced Q (panic msg) Phi.
Proof. constructor. Qed.

Lemma traced_bind (Q : Event -> Prop) {A B} (m : M A) (k : A -> M B)
  (Phi : B -> Prop) :
  traced Q m (fun a => traced Q (k a) Phi) -> traced Q (bind m k) Phi.
Proof.
  unfold traced. apply tracedBy_bind with (T2 := fun _ => Forall Q);
    [|trivial].
  intros _ e1 e2 He1 He2. apply Forall_app. now split.
Qed.

Lemma traced_mono (Q : Event -> Prop) {A} (m : M A) (Phi Psi : A -> Prop) :
  (forall a, Phi a -> Psi a) -> traced Q m Phi -> traced Q m Psi.
Proof. unfold traced. now apply tracedBy_mono. Qed.

Lemma traced_weaken (Q Q' : Event -> Prop) {A} (m : M A) (Phi : A -> Prop) :
  (forall e, Q e -> Q' e) -> traced Q m Phi -> traced Q' m Phi.
Proof.
  intros HQ. unfold traced. apply tracedBy_mono; [|trivial].
  intros evs. apply Forall_impl. exact HQ.
Qed.

Lemma traced_ResolveError (Q : Event -> Prop) (err : option error)
  (Phi : ReduceableLookupFunc -> Prop) :
  (forall e, err = Some e -> Phi (ret (resultErr (Some e)))) ->
  traced Q (ResolveError err) Phi.
Proof.
  intros HPhi. destruct err as [e|]; unfold ResolveError.
  - apply traced_ret. now apply HPhi.
  - apply traced_panic.
Qed.

Lemma callsHandler_weaken (Q Q' : Event -> Prop)
  (m : M ReduceableLookupFunc) :
  (forall e, Q e -> Q' e) -> callsHandler Q m -> callsHandler Q' m.
Proof.
  intros HQ Hm. unfold callsHandler in *.
  eapply traced_weaken; [exact HQ|]. revert Hm. apply traced_mono.
  intros f. unfold calls. now apply traced_weaken.
Qed.

Ltac tstep :=
  lazymatch goal with
  | |- traced _ (bind _ _) _ => apply traced_bind
  | |- traced _ (ret _) _ => apply traced_ret
  | |- traced _ (emit _) _ => apply traced_emit
  | |- traced _ (panic _) _ => apply traced_panic
  end;
  cbv beta.

Section CallsOfCombinators.

Variable Q : Event -> Prop.

Lemma runAll_calls (requests : list ReduceableLookupFunc) :
  Forall (calls Q) requests -> calls Q (runAll requests).
Proof.
  unfold calls. induction 1 as [|f requests Hf _ IH]; cbn [runAll].
  - tstep. exact I.
  - tstep. revert Hf. apply traced_mono. intros result _.
    tstep. revert IH. apply traced_mono. intros results _.
    tstep. exact I.
Qed.

Lemma limitedResult_calls (slice : list ObjectAndRelation) (limit : Z) :
  calls Q (limitedResult slice limit).
Proof.
  unfold calls, limitedResult.
  destruct (limitedSlice slice limit); tstep. exact I.
Qed.

Lemma anyLoop_calls (limit : Z) (results : list LookupResult) :
  forall objects, calls Q (anyLoop limit results objects).
Proof.
  induction results as [|result results IH]; intros objects;
    cbn [anyLoop].
  - apply limitedResult_calls.
  - destruct (Err result); [unfold calls; tstep; exact I|].
    cbv zeta. destruct (_ >=? _); [apply limitedResult_calls | apply IH].
Qed.

Lemma LookupAny_calls (limit : Z) (requests : list ReduceableLookupFunc) :
  Forall (calls Q) requests -> calls Q (LookupAny limit requests).
Proof.
  intros Hreq. unfold calls, LookupAny. tstep.
  generalize (runAll_calls Hreq). apply traced_mono. intros results _.
  apply anyLoop_calls.
Qed.

Lemma LookupAll_calls (arrival : forall A : Type, list A -> list A)
  (limit : Z) (requests : list ReduceableLookupFunc) :
  Forall (calls Q) requests -> calls Q (LookupAll arrival limit requests).
Proof.
  intros Hreq. unfold calls, LookupAll.
  destruct requests as [|f requests]; [tstep; exact I|].
  tstep. generalize (runAll_calls Hreq). apply traced_mono.
  intros results _. tstep. exact I.
Qed.

Lemma excludeLoop_calls (limit : Z) (arrived : list (bool * LookupResult)) :
  forall objSet excSet, calls Q (excludeLoop limit arrived objSet excSet).
Proof.
  induction arrived as [|[isBase result] arrived IH];
    intros objSet excSet; cbn [excludeLoop].
  - apply limitedResult_calls.
  - destruct (Err result); [unfold calls; tstep; exact I|].
    destruct isBase; apply IH.
Qed.

Lemma LookupExclude_calls (arrival : forall A : Type, list A -> list A)
  (limit : Z) (requests : list ReduceableLookupFunc) :
  Forall (calls Q) requests ->
  calls Q (LookupExclude arrival limit requests).
Proof.
  intros Hreq. unfold calls, LookupExclude.
  destruct requests as [|baseReq others]; [tstep|].
  inversion Hreq as [|? ? Hbase Hothers]; subst.
  tstep. revert Hbase. apply traced_mono. intros base _.
  tstep. generalize (runAll_calls Hothers). apply traced_mono.
  intros subs _. apply excludeLoop_calls.
Qed.

End CallsOfCombinators.

Section CallsOfHandlers.

Variable arrival : forall A : Type, list A -> list A.
Variable cl : concurrentLookup.
Variable req : LookupRequest.

Lemma dispatch_handlerCall (sub : LookupRequest) :
  handlerRequestOf req sub -> calls (handlerCall req) (dispatch cl sub).
Proof.
  intros Hsub. unfold calls, dispatch. tstep. tstep; [exact Hsub|].
  tstep. exact I.
Qed.

Lemma LookupAny_dispatch_handlerCall (limit : Z) (sub : LookupRequest) :
  handlerRequestOf req sub ->
  calls (handlerCall req) (LookupAny limit [dispatch cl sub]).
Proof.
  intros Hsub. apply LookupAny_calls.
  constructor; [now apply dispatch_handlerCall | constructor].
Qed.

Lemma directRequest_calls : calls (handlerCall req) (directRequest cl req).
Proof.
  unfold calls, directRequest. tstep. tstep; [cbn; auto|].
  destruct (ReverseQueryTuplesFromSubject _ _ _ _ _) as [it err].
  destruct err as [e|]; [tstep; exact I|].
  destruct (drain _ _ _ _ _) as [result|objects itErr]; [tstep; exact I|].
  destruct itErr; tstep; exact I.
Qed.

Lemma length_positive {A} (l : list A) :
  (0 <? Z.of_nat (length l)) = true -> l <> [].
Proof. intros Hlen ->. discriminate. Qed.

Lemma inferredRequest_calls (allowedDirectType : RelationReference) :
  skipAllowedDirectType req (directStackOf req) allowedDirectType = false ->
  calls (handlerCall req)
    (inferredRequest cl req (directStackOf req) allowedDirectType).
Proof.
  intros Hskip. unfold calls, inferredRequest. tstep.
  assert (Hsub : handlerRequestOf req
                   (inferredLookupRequest req (directStackOf req)
                      allowedDirectType)).
  { left. now exists allowedDirectType. }
  generalize (LookupAny_dispatch_handlerCall noLimit Hsub).
  apply traced_mono. intros result _.
  destruct (Err result); [tstep; exact I|].
  destruct (0 <? Z.of_nat (length (ResolvedObjects result))) eqn:ELen;
    [|tstep; exact I].
  tstep. tstep.
  { cbn. repeat split. now apply length_positive. }
  destruct (QueryTuples _ _ _ _ _ _) as [it err].
  destruct err as [e|]; [tstep; exact I|].
  destruct (drain _ _ _ _ _); tstep; exact I.
Qed.

Lemma lookupDirect_calls (typeSystem : NamespaceTypeSystem) :
  callsHandler (handlerCall req) (lookupDirect cl req typeSystem).
Proof.
  unfold callsHandler, lookupDirect. fold (directStackOf req).
  destruct (IsAllowedDirectRelation _ _ _ _) as [isDirectAllowed err].
  destruct err as [e|].
  { apply traced_ResolveError. intros e' _. unfold calls. tstep. exact I. }
  destruct (AllowedDirectRelations _ _) as [allowedDirect err].
  destruct err as [e|].
  { apply traced_ResolveError. intros e' _. unfold calls. tstep. exact I. }
  match goal with |- context [(length ?l =? 0)%nat] =>
    set (requests := l) end.
  assert (Hreq : Forall (calls (handlerCall req)) requests).
  { subst requests. apply Forall_app. split.
    - destruct (isValid isDirectAllowed); repeat constructor.
      apply directRequest_calls.
    - rewrite Forall_map. apply Forall_forall. intros t Ht.
      apply filter_In in Ht. destruct Ht as [_ Ht].
      apply negb_true_iff in Ht. now apply inferredRequest_calls. }
  destruct (length requests =? 0)%nat; tstep.
  - unfold calls, ResolvedObjectsFn. tstep. exact I.
  - now apply LookupAny_calls.
Qed.

Lemma lookupComputed_calls (cu : string) :
  callsHandler (handlerCall req) (lookupComputed cl req cu).
Proof.
  unfold callsHandler, lookupComputed, LookupOne. tstep.
  assert (Hsub : handlerRequestOf req (computedLookupRequest req cu)).
  { right. left. now exists cu. }
  generalize (dispatch_handlerCall Hsub). apply traced_mono.
  intros result _.
  destruct (Err result).
  { apply traced_ResolveError. intros e' _. unfold calls. tstep. exact I. }
  destruct (rewriteResolved _ _ _).
  - apply traced_ResolveError. intros e' _. unfold calls. tstep. exact I.
  - tstep. unfold calls, ResolvedObjectsFn. tstep. exact I.
Qed.

Lemma ttuRequest_calls (typeSystem : NamespaceTypeSystem)
  (tupleset cu : string) (directRelation : RelationReference) :
  StackHas (TTUStack req)
    (stackKey (RefNamespace (StartRelation req))
       (RefRelation (StartRelation req))) = false ->
  calls (handlerCall req)
    (ttuRequest cl req typeSystem tupleset cu
       (stackKey (RefNamespace (StartRelation req))
          (RefRelation (StartRelation req))) directRelation).
Proof.
  intros Hstack. unfold calls, ttuRequest. tstep.
  assert (Hsub : handlerRequestOf req
                   (ttuLookupRequest req cu
                      (stackKey (RefNamespace (StartRelation req))
                         (RefRelation (StartRelation req)))
                      directRelation)).
  { right. right. now exists cu, directRelation. }
  generalize (LookupAny_dispatch_handlerCall noLimit Hsub).
  apply traced_mono. intros result _.
  destruct (Err result); [tstep; exact I|].
  destruct (length (ResolvedObjects result) =? 0)%nat; [tstep; exact I|].
  destruct (collectUsersets _ _ _ _ _) as [observed|usersets sent];
    [tstep; exact I|].
  destruct (0 <? Z.of_nat (length usersets)) eqn:ELen; [|tstep; exact I].
  tstep. tstep.
  { cbn. repeat split. now apply length_positive. }
  destruct (QueryTuples _ _ _ _ _ _) as [it err].
  destruct err as [e|]; [tstep; exact I|].
  destruct (drain _ _ _ _ _); tstep; exact I.
Qed.

Lemma ttuLoop_calls (typeSystem : NamespaceTypeSystem)
  (tupleset cu : string)
  (tuplesetDirectRelations : list RelationReference) :
  StackHas (TTUStack req)
    (stackKey (RefNamespace (StartRelation req))
       (RefRelation (StartRelation req))) = false ->
  forall namespaces requests,
    Forall (calls (handlerCall req)) requests ->
    traced (handlerCall req)
      (ttuLoop cl req typeSystem tupleset cu
         (stackKey (RefNamespace (StartRelation req))
            (RefRelation (StartRelation req)))
         tuplesetDirectRelations namespaces requests)
      (fun flow =>
         match flow with
         | Returned f => calls (handlerCall req) f
         | Fallthrough requests' =>
             Forall (calls (handlerCall req)) requests'
         end).
Proof.
  intros Hstack.
  induction tuplesetDirectRelations as [|directRelation rest IH];
    intros namespaces requests Hreq; cbn [ttuLoop].
  - tstep. exact Hreq.
  - destruct (existsb _ namespaces); [now apply IH|].
    tstep. tstep; [exact I|].
    destruct (ReadNamespaceAndTypes _ _) as [[nsdef ts] err].
    destruct err as [e|].
    { tstep. apply traced_ResolveError. intros e' _. tstep.
      unfold calls. tstep. exact I. }
    destruct (negb (HasRelation ts cu)); [now apply IH|].
    apply IH. apply Forall_app. split; [exact Hreq|].
    constructor; [|constructor]. now apply ttuRequest_calls.
Qed.

Lemma processTupleToUserset_calls (typeSystem : NamespaceTypeSystem)
  (tupleset cu : string) :
  callsHandler (handlerCall req)
    (processTupleToUserset cl req typeSystem tupleset cu).
Proof.
  unfold callsHandler, processTupleToUserset. cbv zeta.
  destruct (StackHas (TTUStack req) _) eqn:EStack.
  { tstep. unfold calls, ResolvedObjectsFn. tstep. exact I. }
  destruct (AllowedDirectRelations _ _) as [rels err].
  destruct err as [e|].
  { apply traced_ResolveError. intros e' _. unfold calls. tstep. exact I. }
  tstep.
  generalize (@ttuLoop_calls typeSystem tupleset cu rels EStack [] []
                (Forall_nil _)).
  apply traced_mono. intros [f|requests] Hflow.
  - tstep. exact Hflow.
  - destruct (length requests =? 0)%nat; tstep.
    + unfold calls, ResolvedObjectsFn. tstep. exact I.
    + now apply LookupAny_calls.
Qed.

Lemma processChildren_calls
  (rec : UsersetRewrite -> M ReduceableLookupFunc)
  (typeSystem : NamespaceTypeSystem) (reducer : LookupReducer)
  (children : list SetOperationChild) :
  (forall limit requests,
      Forall (calls (handlerCall req)) requests ->
      calls (handlerCall req) (reducer limit requests)) ->
  Forall (childHolds
            (fun rewrite => callsHandler (handlerCall req) (rec rewrite)))
    children ->
  forall requests,
    Forall (calls (handlerCall req)) requests ->
    callsHandler (handlerCall req)
      (processChildren cl rec req typeSystem children reducer requests).
Proof.
  intros Hreducer. induction 1 as [|child rest Hchild _ IH];
    intros requests Hreq; cbn [processChildren].
  - unfold callsHandler. tstep. now apply Hreducer.
  - assert (Hstep : forall m : M ReduceableLookupFunc,
              callsHandler (handlerCall req) m ->
              callsHandler (handlerCall req)
                (r <- m ;;
                 processChildren cl rec req typeSystem rest reducer
                   (requests ++ [r]))).
    { intros m Hm. unfold callsHandler. tstep. revert Hm.
      unfold callsHandler at 1. apply traced_mono. intros r Hr.
      apply IH. apply Forall_app. split; [exact Hreq|].
      now repeat constructor. }
    destruct child as [|cu|rewrite|tupleset cu|].
    + apply Hstep, lookupDirect_calls.
    + apply Hstep, lookupComputed_calls.
    + apply Hstep. exact Hchild.
    + apply Hstep, processTupleToUserset_calls.
    + unfold callsHandler. apply traced_ResolveError. intros e' _.
      unfold calls. tstep. exact I.
Qed.

Lemma processRewrite_calls (typeSystem : NamespaceTypeSystem)
  (usr : UsersetRewrite) :
  callsHandler (handlerCall req)
    (processRewrite arrival cl req typeSystem usr).
Proof.
  induction usr as [so IH|so IH|so IH|] using rewrite_induction;
    cbn [processRewrite].
  - apply processChildren_calls; [|exact IH | constructor].
    intros limit requests. apply LookupAny_calls.
  - apply processChildren_calls; [|exact IH | constructor].
    intros limit requests. apply LookupAll_calls.
  - apply processChildren_calls; [|exact IH | constructor].
    intros limit requests. apply LookupExclude_calls.
  - unfold callsHandler. apply traced_ResolveError. intros e' _.
    unfold calls. tstep. exact I.
Qed.

End CallsOfHandlers.

(** ** The closure loop *)

Lemma dispatchTargets_app (e1 e2 : Trace) :
  dispatchTargets (e1 ++ e2) = dispatchTargets e1 ++ dispatchTargets e2.
Proof. unfold dispatchTargets. apply flat_map_app. Qed.

Lemma dispatchTargets_dispatches {A} (sub : A -> LookupRequest)
  (l : list A) :
  dispatchTargets (map (fun x => EvDispatch (sub x)) l)
  = map (fun x => TargetONR (sub x)) l.
Proof.
  induction l as [|x l IH]; [reflexivity|].
  cbn. now rewrite <- IH.
Qed.

Lemma closureTrace_nil (req : LookupRequest) (objSet toCheck : ONRSet) :
  closureTrace req objSet toCheck [].
Proof. split; [constructor | intros t []]. Qed.

(** The objects that [addNew] puts into [toCheck] are new to [base], a
    part of the object set. *)
Lemma addNew_new (base : ONRSet) (objs : list ObjectAndRelation) :
  forall (objSet toCheck os tc : ONRSet),
    addNew objs objSet toCheck = (os, tc) ->
    incl base objSet ->
    NoDup toCheck ->
    incl toCheck objSet ->
    (forall o, In o toCheck -> ~ In o base) ->
    NoDup tc /\ incl tc os /\ (forall o, In o tc -> ~ In o base) /\
    incl base os.
Proof.
  induction objs as [|obj objs IH];
    intros objSet toCheck os tc Hrun Hbase Hnd Hincl Hnew;
    cbn [addNew] in Hrun.
  - injection Hrun as <- <-. auto.
  - destruct (Add objSet obj) as [objSet' isNew] eqn:EAdd.
    assert (HobjSet' : objSet' = fst (Add objSet obj)) by now rewrite EAdd.
    assert (Hbase' : incl base objSet').
    { intros o Ho. rewrite HobjSet'. apply Add_In. left. now apply Hbase. }
    destruct isNew.
    + assert (Hfresh : ~ In obj objSet).
      { unfold Add in EAdd. destruct (Has objSet obj) eqn:EHas;
          [discriminate|]. now apply Has_false. }
      apply (IH _ _ _ _ Hrun Hbase').
      * now apply Add_NoDup.
      * intros o Ho. apply Add_In in Ho. rewrite HobjSet'. apply Add_In.
        destruct Ho as [Ho| ->]; [left; now apply Hincl | now right].
      * intros o Ho. apply Add_In in Ho.
        destruct Ho as [Ho| ->]; [now apply Hnew|].
        intros Hin. apply Hfresh. now apply Hbase.
    + apply (IH _ _ _ _ Hrun Hbase' Hnd); [|exact Hnew].
      intros o Ho. rewrite HobjSet'. apply Add_In. left. now apply Hincl.
Qed.

Lemma anyLoop_silent (limit : Z) (results : list LookupResult) :
  forall objects,
    tracedBy (fun evs => evs = []) (anyLoop limit results objects)
      (fun _ => True).
Proof.
  assert (Hlimited : forall slice,
             tracedBy (fun evs : Trace => evs = [])
               (limitedResult slice limit) (fun _ => True)).
  { intros slice. unfold limitedResult.
    destruct (limitedSlice slice limit); unfold tracedBy, ret, panic;
      auto. }
  induction results as [|result results IH]; intros objects;
    cbn [anyLoop].
  - apply Hlimited.
  - destruct (Err result); [unfold tracedBy, ret; auto|].
    cbv zeta. destruct (_ >=? _); [apply Hlimited | apply IH].
Qed.

Lemma runAll_dispatches {A} (cl : concurrentLookup)
  (sub : A -> LookupRequest) (l : list A) :
  runAll (map (fun x => dispatch cl (sub x)) l)
  = Done (map (fun x => Lookup (cl_d cl) (sub x)) l)
      (map (fun x => EvDispatch (sub x)) l).
Proof.
  induction l as [|x l IH]; [reflexivity|].
  cbn [map runAll]. rewrite IH. unfold dispatch, bind, emit, ret. cbn.
  now rewrite app_nil_r.
Qed.

(** [LookupAny] over dispatched sub-requests calls the dispatcher once
    for each of them, in their order, whatever the limit is. *)
Lemma LookupAny_dispatches {A} (cl : concurrentLookup) (limit : Z)
  (sub : A -> LookupRequest) (l : list A) :
  tracedBy (fun evs => evs = map (fun x => EvDispatch (sub x)) l)
    (LookupAny limit (map (fun x => dispatch cl (sub x)) l))
    (fun _ => True).
Proof.
  unfold LookupAny. rewrite runAll_dispatches.
  pose proof (anyLoop_silent limit
                (map (fun x => Lookup (cl_d cl) (sub x)) l) NewONRSet)
    as Hloop.
  unfold bind, tracedBy in *.
  destruct (anyLoop _ _ _) as [r e2|msg e2|]; [| |exact Hloop].
  - destruct Hloop as [-> _]. now rewrite app_nil_r.
  - subst e2. now rewrite app_nil_r.
Qed.

Section CallsOfLookup.

Variable arrival : forall A : Type, list A -> list A.
Variable cl : concurrentLookup.
Variable req : LookupRequest.

Lemma closureLoop_traced (err : option error) (fuel : nat) :
  forall objSet toCheck : ONRSet,
    (closureMeasure req objSet toCheck < fuel)%nat ->
    NoDup toCheck ->
    incl toCheck objSet ->
    tracedBy
      (fun evs =>
         Forall (lookupCall req) evs /\ closureTrace req objSet toCheck evs)
      (closureLoop cl fuel req err objSet toCheck)
      (fun flow =>
         match flow with
         | Returned f => calls (lookupCall req) f
         | Fallthrough _ => True
         end).
Proof.
  induction fuel as [|fuel IH]; intros objSet toCheck Hfuel Hnd Hincl;
    [lia|].
  assert (Hstop : forall os : ONRSet,
             tracedBy
               (fun evs =>
                  Forall (lookupCall req) evs /\
                  closureTrace req objSet toCheck evs)
               (ret (Fallthrough os))
               (fun flow : Flow ONRSet =>
                  match flow with
                  | Returned f => calls (lookupCall req) f
                  | Fallthrough _ => True
                  end)).
  { intros os. split; [|exact I].
    split; [constructor | apply closureTrace_nil]. }
  cbn [closureLoop].
  destruct (Z.eqb_spec (Length toCheck) 0) as [Hempty|Hnonempty];
    cbn [orb]; [apply Hstop|].
  destruct (Z.geb_spec (Length objSet) (Limit req)) as [Hfull|Hroom];
    [apply Hstop|].
  set (targets := filter (fun obj => negb (isTarget req obj))
                    (AsSlice toCheck)).
  destruct (length _ =? 0)%nat; [apply Hstop|].
  assert (Htargets : forall t, In t targets ->
                               isTarget req t = false /\ In t toCheck).
  { intros t Ht. apply filter_In in Ht. destruct Ht as [Hin Ht].
    apply negb_true_iff in Ht. now split. }
  assert (Hround :
            Forall (lookupCall req)
              (map (fun obj =>
                      EvDispatch (closureLookupRequest req objSet obj))
                 targets)).
  { rewrite Forall_map. apply Forall_forall. intros t Ht.
    right. exists objSet, t. split; [lia|]. split; [|reflexivity].
    now apply Htargets. }
  apply tracedBy_bind
    with (T1 := fun evs =>
                  evs = map (fun obj =>
                               EvDispatch
                                 (closureLookupRequest req objSet obj))
                          targets)
         (T2 := fun result evs =>
                  Forall (lookupCall req) evs /\
                  closureTrace req
                    (fst (addNew (ResolvedObjects result) objSet NewONRSet))
                    (snd (addNew (ResolvedObjects result) objSet NewONRSet))
                    evs).
  - intros result e1 e2 -> [He2 [Hnd2 Hin2]].
    destruct (addNew (ResolvedObjects result) objSet NewONRSet)
      as [os tc] eqn:ENew.
    cbn [fst snd] in Hnd2, Hin2.
    destruct (@addNew_new objSet (ResolvedObjects result) objSet NewONRSet
                os tc ENew (incl_refl _) (NoDup_nil _))
      as [_ [_ [Hnew Hos]]].
    { intros o []. }
    { intros o []. }
    assert (Hlater : forall t, In t (dispatchTargets e2) -> ~ In t objSet).
    { intros t Ht. destruct (Hin2 t Ht) as [_ [Htc|Hout]].
      - now apply Hnew.
      - intros Hin. apply Hout. now apply Hos. }
    split; [apply Forall_app; now split|].
    unfold closureTrace.
    rewrite dispatchTargets_app, dispatchTargets_dispatches.
    cbn [closureLookupRequest TargetONR]. rewrite map_id. split.
    + apply NoDup_app; [now apply NoDup_filter | exact Hnd2 |].
      intros t Ht Ht2. apply (Hlater t Ht2).
      apply Hincl. now apply Htargets.
    + intros t Ht. apply in_app_iff in Ht. destruct Ht as [Ht|Ht].
      * destruct (Htargets t Ht) as [Hnot Hin]. auto.
      * split; [now apply Hin2 | right; now apply Hlater].
  - intros e1 ->. split; [exact Hround|].
    unfold closureTrace. rewrite dispatchTargets_dispatches.
    cbn [closureLookupRequest TargetONR]. rewrite map_id. split.
    + now apply NoDup_filter.
    + intros t Ht. destruct (Htargets t Ht) as [Hnot Hin]. auto.
  - generalize (LookupAny_dispatches cl (Limit req)
                  (fun obj => closureLookupRequest req objSet obj) targets).
    apply tracedBy_mono; [trivial|]. intros result _.
    destruct (Err result) as [e|].
    + destruct err as [e'|]; unfold ResolveError, bind, ret, panic, tracedBy.
      * split; [split; [constructor | apply closureTrace_nil]|].
        unfold calls. apply traced_ret. exact I.
      * split; [constructor | apply closureTrace_nil].
    + destruct (addNew (ResolvedObjects result) objSet NewONRSet)
        as [os tc] eqn:ENew.
      cbn [fst snd].
      pose proof (addNew_length _ _ _ ENew) as [Hlen1 Hlen2].
      destruct (@addNew_new objSet (ResolvedObjects result) objSet
                  NewONRSet os tc ENew (incl_refl _) (NoDup_nil _))
        as [Hndtc [Htcos _]].
      { intros o []. }
      { intros o []. }
      apply IH; [|exact Hndtc | exact Htcos].
      unfold closureMeasure, Length in *. simpl in Hlen2.
      destruct toCheck; [simpl in Hnonempty; lia|].
      destruct tc; simpl in *; lia.
Qed.

End CallsOfLookup.

(** ** lookup *)

Section TraceOfLookup.

Variable arrival : forall A : Type, list A -> list A.
Variable cl : concurrentLookup.
Variable req : LookupRequest.


Lemma lookupTrace_handler (evs : Trace) :
  Forall (handlerCall req) evs -> lookupTrace req evs.
Proof.
  intros Hevs. exists evs, []. rewrite app_nil_r.
  split; [reflexivity|]. split; [exact Hevs|]. split; [constructor|].
  exists NewONRSet, NewONRSet. apply closureTrace_nil.
Qed.

Lemma lookupTrace_prefix (e1 e2 : Trace) :
  Forall (handlerCall req) e1 -> lookupTrace req e2 ->
  lookupTrace req (e1 ++ e2).
Proof.
  intros He1 [e21 [e22 [-> [H21 [H22 Hclosure]]]]].
  exists (e1 ++ e21), e22. rewrite app_assoc.
  split; [reflexivity|]. split; [apply Forall_app; now split|].
  now split.
Qed.

Lemma lookupTrace_closure (objSet toCheck : ONRSet) (evs : Trace) :
  Forall (lookupCall req) evs /\ closureTrace req objSet toCheck evs ->
  lookupTrace req evs.
Proof.
  intros [Hevs Hclosure]. exists [], evs.
  split; [reflexivity|]. split; [constructor|]. split; [exact Hevs|].
  now exists objSet, toCheck.
Qed.

Lemma lookupTrace_bind {A B} (m : M A) (k : A -> M B) (Phi : B -> Prop) :
  traced (handlerCall req) m
    (fun a => tracedBy (lookupTrace req) (k a) Phi) ->
  tracedBy (lookupTrace req) (bind m k) Phi.
Proof.
  unfold traced.
  apply tracedBy_bind with (T2 := fun _ => lookupTrace req).
  - intros _ e1 e2. apply lookupTrace_prefix.
  - apply lookupTrace_handler.
Qed.

Lemma lookupTrace_lift {A} (m : M A) (Phi : A -> Prop) :
  traced (handlerCall req) m Phi -> tracedBy (lookupTrace req) m Phi.
Proof.
  unfold traced. apply tracedBy_mono; [|trivial].
  apply lookupTrace_handler.
Qed.

Lemma lookupTrace_ResolveError (err : option error) :
  tracedBy (lookupTrace req) (ResolveError err)
    (fun f => calls (lookupCall req) f).
Proof.
  apply lookupTrace_lift, traced_ResolveError. intros e _.
  unfold calls. apply traced_ret. exact I.
Qed.

(** The trace of [lookup]: the calls of the handlers, then the calls of
    the closure loop; [lookup] ends, with a request that calls nobody. *)
Lemma lookup_traced :
  tracedBy (lookupTrace req) (lookup arrival cl req)
    (fun f => calls (lookupCall req) f).
Proof.
  unfold lookup. cbv zeta.
  apply lookupTrace_bind. apply traced_emit; [exact I|].
  destruct (ReadNamespaceAndTypes _ _) as [[nsdef typeSystem] err].
  destruct err as [e|]; [apply lookupTrace_ResolveError|].
  destruct (findRelation _ _) as [relation|];
    [|apply lookupTrace_ResolveError].
  apply lookupTrace_bind.
  assert (Hhandler :
            callsHandler (handlerCall req)
              match UsersetRewriteOf relation with
              | Some rewrite => processRewrite arrival cl req typeSystem rewrite
              | None => lookupDirect cl req typeSystem
              end).
  { destruct (UsersetRewriteOf relation);
      [apply processRewrite_calls | apply lookupDirect_calls]. }
  revert Hhandler. unfold callsHandler. apply traced_mono.
  intros request Hrequest.
  apply lookupTrace_bind.
  assert (Hany : calls (handlerCall req) (LookupAny (Limit req) [request])).
  { apply LookupAny_calls. now repeat constructor. }
  revert Hany. unfold calls at 1. apply traced_mono. intros result _.
  destruct (Err result) as [e|]; [apply lookupTrace_ResolveError|].
  match goal with
  | |- context [closureLoop _ _ _ _ ?s ?s] => set (objSet := s)
  end.
  assert (Hnd : NoDup objSet).
  { subst objSet. apply Update_NoDup.
    destruct (_ && _); [apply Add_NoDup|]; constructor. }
  apply tracedBy_bind
    with (T1 := fun evs =>
                  Forall (lookupCall req) evs /\
                  closureTrace req objSet objSet evs)
         (T2 := fun _ evs => evs = []).
  - intros _ e1 e2 He1 ->. rewrite app_nil_r.
    now apply lookupTrace_closure with (objSet := objSet)
                                       (toCheck := objSet).
  - intros e1 He1.
    now apply lookupTrace_closure with (objSet := objSet)
                                       (toCheck := objSet).
  - generalize (@closureLoop_traced cl req None (closureFuel req)
                  objSet objSet (closureFuel_enough req objSet objSet)
                  Hnd (incl_refl _)).
    apply tracedBy_mono; [trivial|]. intros [f|os] Hflow.
    + unfold tracedBy, ret. split; [reflexivity | exact Hflow].
    + destruct (limitedSlice _ _); unfold tracedBy, ret, panic;
        [|reflexivity].
      split; [reflexivity|]. unfold calls, ResolvedObjectsFn.
      apply traced_ret. exact I.
Qed.




Lemma isTarget_target : isTarget req (TargetONR req) = true.
Proof. unfold isTarget. now rewrite !String.eqb_refl. Qed.

Lemma handlerCall_targets (evs : Trace) :
  Forall (handlerCall req) evs -> closureTargets req evs = [].
Proof.
  unfold closureTargets.
  induction 1 as [|e evs He _ IH]; [reflexivity|].
  destruct e as [ns|subject rev ns rel|ns rev rel usersets limit|sub];
    cbn [dispatchTargets flat_map app]; try exact IH.
  cbn [filter].
  assert (Htarget : TargetONR sub = TargetONR req).
  { destruct He as [[t [_ ->]]|[[cu ->]|[cu [r [_ ->]]]]]; reflexivity. }
  rewrite Htarget, isTarget_target. exact IH.
Qed.

Lemma lookupTrace_closureTargets (evs : Trace) :
  lookupTrace req evs -> NoDup (closureTargets req evs).
Proof.
  intros [e1 [e2 [-> [He1 [_ [objSet [toCheck [Hnd _]]]]]]]].
  pose proof (handlerCall_targets He1) as Hnone.
  unfold closureTargets in *.
  rewrite dispatchTargets_app, filter_app, Hnone. cbn [app].
  now apply NoDup_filter.
Qed.

End TraceOfLookup.



(** X16. [lookup] dispatches at most one sub-request for each object
    other than the target of the request: the closure loop checks an
    object it has found once, however often it is found again. *)
Theorem X16_closure_dispatches_once
  (arrival : forall A : Type, list A -> list A) (cl : concurrentLookup)
  (req : LookupRequest) :
  NoDup (closureTargets req (eventsOf (lookup arrival cl req))).
Proof.
  pose proof (lookup_traced arrival cl req) as Htraced.
  unfold tracedBy in Htraced.
  destruct (lookup arrival cl req) as [f evs|msg evs|]; cbn [eventsOf].
  - now apply lookupTrace_closureTargets.
  - now apply lookupTrace_closureTargets.
  - constructor.
Qed.

(** ** The closure of a lookup *)

Lemma limitedSlice_uncut (slice l : list ObjectAndRelation) (limit : Z) :
  limitedSlice slice limit = Some l ->
  Z.of_nat (length l) < limit ->
  l = slice.
Proof.
  unfold limitedSlice. intros Hcut Hlen.
  destruct (Z.gtb_spec (Z.of_nat (length slice)) limit) as [Hmore|Hless];
    [|congruence].
  destruct (limit <? 0); [discriminate|].
  injection Hcut as <-. rewrite length_firstn in Hlen. lia.
Qed.

(** A successful result of the loop of [LookupAny] with fewer than
    [limit] ONRs: every result was read and succeeded, and none of their
    ONRs was cut. *)
Lemma anyLoop_uncut (limit : Z) (results : list LookupResult) :
  forall (objects : ONRSet) result evs,
    anyLoop limit results objects = Done result evs ->
    succeeded result ->
    Z.of_nat (length (ResolvedObjects result)) < limit ->
    Forall succeeded results /\
    ResolvedObjects result = unionFrom objects results.
Proof.
  assert (Hlimited : forall (objects : ONRSet) result evs,
             limitedResult (AsSlice objects) limit = Done result evs ->
             Z.of_nat (length (ResolvedObjects result)) < limit ->
             ResolvedObjects result = objects).
  { intros objects result evs Hrun Hlen. unfold limitedResult in Hrun.
    destruct (limitedSlice (AsSlice objects) limit) as [l|] eqn:ECut;
      [|discriminate].
    injection Hrun as <- <-. cbn in *.
    exact (limitedSlice_uncut _ ECut Hlen). }
  induction results as [|r results IH]; intros objects result evs Hrun Hok Hlen;
    cbn [anyLoop] in Hrun.
  - split; [constructor|]. exact (Hlimited _ _ _ Hrun Hlen).
  - destruct (Err r) as [e|] eqn:Er.
    { injection Hrun as <- <-. discriminate. }
    cbv zeta in Hrun.
    change (unionFrom objects (r :: results))
      with (unionFrom (Update objects (ResolvedObjects r)) results).
    destruct (Z.geb_spec (Length (Update objects (ResolvedObjects r))) limit)
      as [Hfull|Hroom].
    + pose proof (Hlimited _ _ _ Hrun Hlen) as Hall.
      rewrite Hall in Hlen. unfold Length in Hfull. lia.
    + destruct (IH _ _ _ Hrun Hok Hlen) as [Hoks Hunion].
      split; [now constructor | exact Hunion].
Qed.

Lemma addNew_covers (objs : list ObjectAndRelation) :
  forall (objSet toCheck os tc : ONRSet),
    addNew objs objSet toCheck = (os, tc) ->
    incl toCheck tc /\
    forall o, In o os -> In o objSet \/ In o tc.
Proof.
  induction objs as [|obj objs IH]; intros objSet toCheck os tc Hrun;
    cbn [addNew] in Hrun.
  - injection Hrun as <- <-. split; [apply incl_refl | now left].
  - destruct (Add objSet obj) as [objSet' isNew] eqn:EAdd.
    assert (HobjSet' : objSet' = fst (Add objSet obj)) by now rewrite EAdd.
    destruct isNew.
    + destruct (IH _ _ _ _ Hrun) as [Hincl Hcover]. split.
      * intros o Ho. apply Hincl, Add_In. now left.
      * intros o Ho. destruct (Hcover o Ho) as [Hin|Hin]; [|now right].
        rewrite HobjSet' in Hin. apply Add_In in Hin.
        destruct Hin as [Hin| ->]; [now left|].
        right. apply Hincl, Add_In. now right.
    + destruct (IH _ _ _ _ Hrun) as [Hincl Hcover]. split; [exact Hincl|].
      intros o Ho. destruct (Hcover o Ho) as [Hin|Hin]; [|now right].
      unfold Add in EAdd. destruct (Has objSet obj); [|discriminate].
      injection EAdd as <-. now left.
Qed.

Section ClosureOfLookup.

Variable arrival : forall A : Type, list A -> list A.
Variable cl : concurrentLookup.
Variable req : LookupRequest.

(** A closure loop that ends below the limit has checked every object of
    its set, and its set holds what the sub-requests resolved. *)
Lemma closureLoop_closed (err : option error) (fuel : nat) :
  forall (objSet toCheck : ONRSet) flow evs,
    closureLoop cl fuel req err objSet toCheck = Done flow evs ->
    match flow with
    | Returned _ => err <> None
    | Fallthrough os =>
        Length os < Limit req ->
        incl objSet os /\
        (forall o,
            In o os ->
            (In o objSet /\ ~ In o toCheck) \/ isTarget req o = true \/
            In o (dispatchTargets evs)) /\
        (forall sub,
            In (EvDispatch sub) evs ->
            succeeded (Lookup (cl_d cl) sub) /\
            incl (ResolvedObjects (Lookup (cl_d cl) sub)) os)
    end.
Proof.
  induction fuel as [|fuel IH]; intros objSet toCheck flow evs Hrun;
    [discriminate|].
  assert (Hstop : forall flow evs,
             ret (Fallthrough objSet) = Done flow evs ->
             (forall o, In o toCheck -> isTarget req o = true) ->
             match flow with
             | Returned _ => err <> None
             | Fallthrough os =>
                 Length os < Limit req ->
                 incl objSet os /\
                 (forall o,
                     In o os ->
                     (In o objSet /\ ~ In o toCheck) \/
                     isTarget req o = true \/
                     In o (dispatchTargets evs)) /\
                 (forall sub,
                     In (EvDispatch sub) evs ->
                     succeeded (Lookup (cl_d cl) sub) /\
                     incl (ResolvedObjects (Lookup (cl_d cl) sub)) os)
             end).
  { intros flow0 evs0 Hret Htargets. injection Hret as <- <-.
    intros _. split; [apply incl_refl|]. split; [|intros sub []].
    intros o Ho. destruct (Has toCheck o) eqn:EHas.
    - right. left. apply Htargets. now apply Has_In.
    - left. split; [exact Ho | now apply Has_false]. }
  cbn [closureLoop] in Hrun.
  destruct (Z.eqb_spec (Length toCheck) 0) as [Hempty|Hnonempty];
    cbn [orb] in Hrun.
  { apply (Hstop _ _ Hrun). intros o Ho.
    destruct toCheck; [destruct Ho | discriminate]. }
  destruct (Z.geb_spec (Length objSet) (Limit req)) as [Hfull|Hroom].
  { injection Hrun as <- <-. intros Hlen. lia. }
  set (targets := filter (fun obj => negb (isTarget req obj))
                    (AsSlice toCheck)) in Hrun.
  destruct (length _ =? 0)%nat eqn:ENone.
  { apply (Hstop _ _ Hrun). intros o Ho.
    apply Nat.eqb_eq in ENone. rewrite length_map in ENone.
    destruct (isTarget req o) eqn:ETarget; [reflexivity|].
    assert (Hin : In o targets).
    { apply filter_In. split; [exact Ho | now rewrite ETarget]. }
    destruct targets; [destruct Hin | discriminate]. }
  clear ENone Hstop.
  apply bind_Done in Hrun.
  destruct Hrun as [result [e1 [e2 [Hany [Hnext ->]]]]].
  apply LookupAny_Done in Hany. destruct Hany as [results [Hall Hloop]].
  pose proof (runAll_dispatches cl (closureLookupRequest req objSet) targets)
    as Hdispatches.
  cbv beta in Hdispatches. rewrite Hdispatches in Hall.
  injection Hall as <- <-.
  destruct (Err result) as [e|] eqn:EResult.
  { destruct err as [e'|]; [|discriminate].
    unfold ResolveError, bind, ret in Hnext. injection Hnext as <- <-.
    discriminate. }
  destruct (addNew (ResolvedObjects result) objSet NewONRSet)
    as [os' tc'] eqn:ENew.
  specialize (IH _ _ _ _ Hnext).
  destruct flow as [f|os]; [exact IH|].
  intros Hlen. destruct (IH Hlen) as [Hincl [Hchecked Hresolved]].
  pose proof (addNew_objSet (ResolvedObjects result) objSet NewONRSet)
    as Hos'.
  rewrite ENew in Hos'. cbn [fst] in Hos'.
  destruct (@addNew_covers _ _ _ _ _ ENew) as [_ Hcover].
  assert (Hshort : Z.of_nat (length (ResolvedObjects result)) < Limit req).
  { destruct (@anyLoop_shape (Limit req) _ NewONRSet result []
                (NoDup_nil _) Hloop)
      as [_ [[r [e [_ [_ ->]]]]|[l [-> [Hnd _]]]]]; [discriminate|].
    cbn [ResolvedObjects resultObjects].
    assert (Hle : (length l <= length os)%nat).
    { apply NoDup_incl_length; [exact Hnd|].
      intros o Ho. apply Hincl. rewrite Hos'. apply Update_In. now right. }
    unfold Length in Hlen. lia. }
  destruct (@anyLoop_uncut _ _ _ _ _ Hloop EResult Hshort)
    as [Hoks Hunion].
  split; [|split].
  - intros o Ho. apply Hincl. rewrite Hos'. apply Update_In. now left.
  - intros o Ho. rewrite dispatchTargets_app, dispatchTargets_dispatches.
    cbn [closureLookupRequest TargetONR]. rewrite map_id.
    destruct (Hchecked o Ho) as [[Ho' Hold]|[Htarget|Hlater]].
    + destruct (Hcover o Ho') as [Hin|Hin]; [|contradiction].
      destruct (Has toCheck o) eqn:EHas.
      * apply Has_In in EHas.
        destruct (isTarget req o) eqn:ETarget; [now right; left|].
        right. right. apply in_app_iff. left.
        apply filter_In. split; [exact EHas | now rewrite ETarget].
      * left. split; [exact Hin | now apply Has_false].
    + right. now left.
    + right. right. apply in_app_iff. now right.
  - intros sub Hsub. apply in_app_iff in Hsub.
    destruct Hsub as [Hsub|Hsub]; [|now apply Hresolved].
    apply in_map_iff in Hsub. destruct Hsub as [t [[= <-] Ht]].
    assert (Hin : In (Lookup (cl_d cl) (closureLookupRequest req objSet t))
                    (map (fun x => Lookup (cl_d cl)
                                     (closureLookupRequest req objSet x))
                       targets)).
    { apply in_map_iff. now exists t. }
    split.
    + rewrite Forall_forall in Hoks. now apply Hoks.
    + intros o Ho. apply Hincl. rewrite Hos'. apply Update_In. right.
      rewrite Hunion. apply unionFrom_In. right. eauto.
Qed.

End ClosureOfLookup.

Lemma traced_Done (Q : Event -> Prop) {A} (m : M A) (Phi : A -> Prop)
  (a : A) (evs : Trace) :
  traced Q m Phi -> m = Done a evs -> Forall Q evs /\ Phi a.
Proof. intros Hm ->. exact Hm. Qed.

(** A successful [lookup] has run the handlers of the rewrite and then
    the closure loop, to its end, on the objects of the structural
    pass. *)
Lemma lookup_success_inv (arrival : forall A : Type, list A -> list A)
  (cl : concurrentLookup) (req : LookupRequest) f evs res evs' :
  lookup arrival cl req = Done f evs ->
  f = Done res evs' ->
  succeeded res ->
  exists e1 e2 objSet os,
    evs = e1 ++ e2 /\
    Forall (handlerCall req) e1 /\
    closureLoop cl (closureFuel req) req None objSet objSet
    = Done (Fallthrough os) e2 /\
    limitedSlice (AsSlice os) (Limit req) = Some (ResolvedObjects res).
Proof.
  intros Hrun Hf Hok. unfold lookup in Hrun. cbv zeta in Hrun.
  assert (Herror : forall (err : option error) e,
             ResolveError err = Done f e -> False).
  { intros [e0|] e Herr; [|discriminate].
    unfold ResolveError, ret in Herr. injection Herr as <- <-.
    unfold ret in Hf. injection Hf as <- <-. discriminate. }
  apply bind_Done in Hrun.
  destruct Hrun as [[] [e0 [erest [Hemit [Hrun ->]]]]].
  unfold emit in Hemit. injection Hemit as <-.
  destruct (ReadNamespaceAndTypes _ _) as [[nsdef typeSystem] err].
  destruct err as [e|]; [destruct (Herror _ _ Hrun)|].
  destruct (findRelation _ _) as [relation|];
    [|destruct (Herror _ _ Hrun)].
  apply bind_Done in Hrun.
  destruct Hrun as [request [e1 [erest' [Hhandler [Hrun ->]]]]].
  assert (Hcalls :
            callsHandler (handlerCall req)
              match UsersetRewriteOf relation with
              | Some rewrite => processRewrite arrival cl req typeSystem rewrite
              | None => lookupDirect cl req typeSystem
              end).
  { destruct (UsersetRewriteOf relation);
      [apply processRewrite_calls | apply lookupDirect_calls]. }
  unfold callsHandler in Hcalls.
  destruct (@traced_Done _ _ _ _ _ _ Hcalls Hhandler) as [He1 Hrequest].
  apply bind_Done in Hrun.
  destruct Hrun as [result [e2 [erest'' [Hany [Hrun ->]]]]].
  assert (Hanycalls :
            calls (handlerCall req) (LookupAny (Limit req) [request])).
  { apply LookupAny_calls. now repeat constructor. }
  unfold calls in Hanycalls.
  destruct (@traced_Done _ _ _ _ _ _ Hanycalls Hany) as [He2 _].
  destruct (Err result) as [e|]; [destruct (Herror _ _ Hrun)|].
  apply bind_Done in Hrun.
  destruct Hrun as [flow [e3 [e4 [Hclosure [Hrun ->]]]]].
  pose proof (@closureLoop_closed cl req None _ _ _ _ _ Hclosure) as Hflow.
  destruct flow as [f'|os]; [now destruct Hflow|].
  destruct (limitedSlice (AsSlice os) (Limit req)) as [resolved|] eqn:ECut;
    [|discriminate].
  unfold ret, ResolvedObjectsFn in Hrun. injection Hrun as <- <-.
  unfold ret in Hf. injection Hf as <- <-.
  eexists ([_] ++ e1 ++ e2), e3, _, os.
  split; [|split; [|split; [exact Hclosure | exact ECut]]].
  - now rewrite app_nil_r, <- !app_assoc.
  - apply Forall_app. split; [repeat constructor|].
    apply Forall_app. now split.
Qed.

(** X17. The closure of [lookup] is complete below the limit.  When
    [lookup] succeeds with fewer ONRs than the limit, every ONR of the
    result other than the target has been the target of a dispatched
    sub-request, and every sub-request for another target than the one
    of the request has succeeded with ONRs that are all in the
    result. *)
Theorem X17_closure_complete_below_limit
  (arrival : forall A : Type, list A -> list A) (cl : concurrentLookup)
  (req : LookupRequest) f evs res evs' :
  lookup arrival cl req = Done f evs ->
  f = Done res evs' ->
  succeeded res ->
  Z.of_nat (length (ResolvedObjects res)) < Limit req ->
  (forall o,
      In o (ResolvedObjects res) ->
      isTarget req o = true \/ In o (dispatchTargets evs)) /\
  (forall sub,
      In (EvDispatch sub) evs ->
      isTarget req (TargetONR sub) = false ->
      succeeded (Lookup (cl_d cl) sub) /\
      incl (ResolvedObjects (Lookup (cl_d cl) sub)) (ResolvedObjects res)).
Proof.
  intros Hrun Hf Hok Hlen.
  destruct (@lookup_success_inv _ _ _ _ _ _ _ Hrun Hf Hok)
    as [e1 [e2 [objSet [os [-> [He1 [Hclosure Hcut]]]]]]].
  pose proof (@limitedSlice_uncut _ _ _ Hcut Hlen) as Hos.
  unfold AsSlice in Hos.
  pose proof (@closureLoop_closed cl req None _ _ _ _ _ Hclosure) as Hclosed.
  cbv beta iota in Hclosed.
  destruct Hclosed as [_ [Hchecked Hresolved]].
  { rewrite <- Hos. exact Hlen. }
  rewrite Hos. split.
  - intros o Ho. rewrite dispatchTargets_app.
    destruct (Hchecked o Ho) as [[Hin Hout]|[Htarget|Hin]].
    + contradiction.
    + now left.
    + right. apply in_app_iff. now right.
  - intros sub Hsub Hother. apply in_app_iff in Hsub.
    destruct Hsub as [Hsub|Hsub]; [|now apply Hresolved].
    exfalso. rewrite Forall_forall in He1. specialize (He1 _ Hsub).
    assert (Htarget : TargetONR sub = TargetONR req).
    { destruct He1 as [[t [_ ->]]|[[cu ->]|[cu [r [_ ->]]]]]; reflexivity. }
    rewrite Htarget, isTarget_target in Hother. discriminate.
Qed.

Lemma X17_closure_complete_below_limit_witness :
  exists evs,
    lookup Fixture.inOrder Fixture.cl Fixture.reqViewer
    = Done (ret (resultObjects [Fixture.doc1; Fixture.doc2])) evs /\
    (forall o,
        In o (ResolvedObjects (resultObjects [Fixture.doc1; Fixture.doc2])) ->
        isTarget Fixture.reqViewer o = true \/ In o (dispatchTargets evs)) /\
    (forall sub,
        In (EvDispatch sub) evs ->
        isTarget Fixture.reqViewer (TargetONR sub) = false ->
        succeeded (Lookup (cl_d Fixture.cl) sub) /\
        incl (ResolvedObjects (Lookup (cl_d Fixture.cl) sub))
          (ResolvedObjects (resultObjects [Fixture.doc1; Fixture.doc2]))).
Proof.
  eexists. split; [vm_compute; reflexivity|].
  apply (@X17_closure_complete_below_limit Fixture.inOrder Fixture.cl
           Fixture.reqViewer
           (ret (resultObjects [Fixture.doc1; Fixture.doc2])) _
           (resultObjects [Fixture.doc1; Fixture.doc2]) []).
  - vm_compute. reflexivity.
  - reflexivity.
  - reflexivity.
  - reflexivity.
Defined.

(* ================================================================== *)
(** * The lookups that return *)
(* ================================================================== *)

Arguments returning {A} m Phi : simpl never.

Lemma returning_ret {A} (a : A) (Phi : A -> Prop) :
  Phi a -> returning (ret a) Phi.
Proof. exact (fun Ha => Ha). Qed.

Lemma returning_emit (e : Event) (Phi : unit -> Prop) :
  Phi tt -> returning (emit e) Phi.
Proof. exact (fun Ha => Ha). Qed.

Lemma returning_bind {A B} (m : M A) (k : A -> M B) (Phi : B -> Prop) :
  returning m (fun a => returning (k a) Phi) -> returning (bind m k) Phi.
Proof.
  unfold returning, bind. destruct m as [a e1|msg e1|]; [|trivial|trivial].
  destruct (k a); trivial.
Qed.

Lemma returning_mono {A} (m : M A) (Phi Psi : A -> Prop) :
  (forall a, Phi a -> Psi a) -> returning m Phi -> returning m Psi.
Proof. unfold returning. destruct m; auto. Qed.

Lemma returning_Done {A} (m : M A) (Phi : A -> Prop) :
  returning m Phi -> exists a evs, m = Done a evs /\ Phi a.
Proof.
  unfold returning. destruct m as [a evs|msg evs|]; [|contradiction..].
  intros Ha. now exists a, evs.
Qed.

Lemma returning_ResolveError (e : error)
  (Phi : ReduceableLookupFunc -> Prop) :
  Phi (ret (resultErr (Some e))) -> returning (ResolveError (Some e)) Phi.
Proof. exact (fun Ha => Ha). Qed.

Ltac rstep :=
  lazymatch goal with
  | |- returning (bind _ _) _ => apply returning_bind
  | |- returning (ret _) _ => apply returning_ret
  | |- returning (emit _) _ => apply returning_emit
  | |- returning (ResolveError (Some _)) _ => apply returning_ResolveError
  end;
  cbv beta.

Lemma runAll_returns (requests : list ReduceableLookupFunc) :
  Forall returns requests -> returns (runAll requests).
Proof.
  unfold returns. induction 1 as [|f requests Hf _ IH]; cbn [runAll].
  - rstep. exact I.
  - rstep. revert Hf. apply returning_mono. intros result _.
    rstep. revert IH. apply returning_mono. intros results _.
    rstep. exact I.
Qed.

Lemma limitedResult_returns (slice : list ObjectAndRelation) (limit : Z) :
  0 <= limit -> returns (limitedResult slice limit).
Proof.
  intros Hlimit. unfold returns, limitedResult.
  rewrite (limitedSlice_nonneg _ Hlimit). rstep. exact I.
Qed.

Lemma anyLoop_returns (limit : Z) (results : list LookupResult) :
  0 <= limit -> forall objects, returns (anyLoop limit results objects).
Proof.
  intros Hlimit. induction results as [|result results IH];
    intros objects; cbn [anyLoop].
  - now apply limitedResult_returns.
  - destruct (Err result); [unfold returns; rstep; exact I|].
    cbv zeta. destruct (_ >=? _); [now apply limitedResult_returns|].
    apply IH.
Qed.

Lemma LookupAny_returns (limit : Z) (requests : list ReduceableLookupFunc) :
  0 <= limit -> Forall returns requests ->
  returns (LookupAny limit requests).
Proof.
  intros Hlimit Hreq. unfold returns, LookupAny. rstep.
  generalize (runAll_returns Hreq). apply returning_mono.
  intros results _. now apply anyLoop_returns.
Qed.

Lemma LookupAll_returns (arrival : forall A : Type, list A -> list A)
  (limit : Z) (requests : list ReduceableLookupFunc) :
  Forall returns requests -> returns (LookupAll arrival limit requests).
Proof.
  intros Hreq. unfold returns, LookupAll.
  destruct requests as [|f requests]; [rstep; exact I|].
  rstep. generalize (runAll_returns Hreq). apply returning_mono.
  intros results _. rstep. exact I.
Qed.

Lemma excludeLoop_returns (limit : Z)
  (arrived : list (bool * LookupResult)) :
  0 <= limit ->
  forall objSet excSet, returns (excludeLoop limit arrived objSet excSet).
Proof.
  intros Hlimit. induction arrived as [|[isBase result] arrived IH];
    intros objSet excSet; cbn [excludeLoop].
  - now apply limitedResult_returns.
  - destruct (Err result); [unfold returns; rstep; exact I|].
    destruct isBase; apply IH.
Qed.

Lemma LookupExclude_returns (arrival : forall A : Type, list A -> list A)
  (limit : Z) (requests : list ReduceableLookupFunc) :
  0 <= limit -> requests <> [] -> Forall returns requests ->
  returns (LookupExclude arrival limit requests).
Proof.
  intros Hlimit Hne Hreq. unfold returns, LookupExclude.
  destruct requests as [|baseReq others]; [contradiction|].
  inversion Hreq as [|? ? Hbase Hothers]; subst.
  rstep. revert Hbase. apply returning_mono. intros base _.
  rstep. generalize (runAll_returns Hothers). apply returning_mono.
  intros subs _. now apply excludeLoop_returns.
Qed.

Lemma noLimit_nonneg : 0 <= noLimit.
Proof. discriminate. Qed.

Section ReturningHandlers.

Variable arrival : forall A : Type, list A -> list A.
Variable cl : concurrentLookup.
Variable req : LookupRequest.

Hypothesis limit_nonneg : 0 <= Limit req.

Lemma dispatch_returns (sub : LookupRequest) : returns (dispatch cl sub).
Proof. unfold returns, dispatch. rstep. rstep. rstep. exact I. Qed.

Lemma directRequest_returns : returns (directRequest cl req).
Proof.
  unfold returns, directRequest. rstep. rstep.
  destruct (ReverseQueryTuplesFromSubject _ _ _ _ _) as [it err].
  destruct err as [e|]; [rstep; exact I|].
  destruct (drain _ _ _ _ _) as [result|objects itErr]; [rstep; exact I|].
  destruct itErr; rstep; exact I.
Qed.

Lemma inferredRequest_returns (directStack : Stack)
  (allowedDirectType : RelationReference) :
  returns (inferredRequest cl req directStack allowedDirectType).
Proof.
  unfold returns, inferredRequest. rstep.
  assert (Hany : returns
                   (LookupAny noLimit
                      [dispatch cl
                         (inferredLookupRequest req directStack
                            allowedDirectType)])).
  { apply LookupAny_returns; [apply noLimit_nonneg|].
    constructor; [apply dispatch_returns | constructor]. }
  revert Hany. apply returning_mono. intros result _.
  destruct (Err result); [rstep; exact I|].
  destruct (0 <? _); [|rstep; exact I].
  rstep. rstep.
  destruct (QueryTuples _ _ _ _ _ _) as [it err].
  destruct err as [e|]; [rstep; exact I|].
  destruct (drain _ _ _ _ _); rstep; exact I.
Qed.

Lemma lookupDirect_returns (typeSystem : NamespaceTypeSystem) :
  returnsHandler (lookupDirect cl req typeSystem).
Proof.
  unfold returnsHandler, lookupDirect.
  destruct (IsAllowedDirectRelation _ _ _ _) as [isDirectAllowed err].
  destruct err as [e|]; [rstep; unfold returns; rstep; exact I|].
  destruct (AllowedDirectRelations _ _) as [allowedDirect err].
  destruct err as [e|]; [rstep; unfold returns; rstep; exact I|].
  match goal with |- context [(length ?l =? 0)%nat] =>
    set (requests := l) end.
  assert (Hreq : Forall returns requests).
  { subst requests. apply Forall_app. split.
    - destruct (isValid isDirectAllowed); repeat constructor.
      apply directRequest_returns.
    - rewrite Forall_map. apply Forall_forall. intros t _.
      apply inferredRequest_returns. }
  destruct (length requests =? 0)%nat; rstep.
  - unfold returns, ResolvedObjectsFn. rstep. exact I.
  - now apply LookupAny_returns.
Qed.

Lemma lookupComputed_returns (cu : string) :
  returnsHandler (lookupComputed cl req cu).
Proof.
  unfold returnsHandler, lookupComputed, LookupOne. rstep.
  generalize (dispatch_returns (computedLookupRequest req cu)).
  apply returning_mono. intros result _.
  destruct (Err result); [rstep; unfold returns; rstep; exact I|].
  destruct (rewriteResolved _ _ _); rstep; unfold returns.
  - rstep. exact I.
  - unfold ResolvedObjectsFn. rstep. exact I.
Qed.

Lemma ttuRequest_returns (typeSystem : NamespaceTypeSystem)
  (tupleset cu : string) (onr : ObjectAndRelation)
  (directRelation : RelationReference) :
  returns (ttuRequest cl req typeSystem tupleset cu onr directRelation).
Proof.
  unfold returns, ttuRequest. rstep.
  assert (Hany : returns
                   (LookupAny noLimit
                      [dispatch cl
                         (ttuLookupRequest req cu onr directRelation)])).
  { apply LookupAny_returns; [apply noLimit_nonneg|].
    constructor; [apply dispatch_returns | constructor]. }
  revert Hany. apply returning_mono. intros result _.
  destruct (Err result); [rstep; exact I|].
  destruct (length (ResolvedObjects result) =? 0)%nat; [rstep; exact I|].
  destruct (collectUsersets _ _ _ _ _) as [observed|usersets sent];
    [rstep; exact I|].
  destruct (0 <? _); [|rstep; exact I].
  rstep. rstep.
  destruct (QueryTuples _ _ _ _ _ _) as [it err].
  destruct err as [e|]; [rstep; exact I|].
  destruct (drain _ _ _ _ _); rstep; exact I.
Qed.

Lemma ttuLoop_returns (typeSystem : NamespaceTypeSystem)
  (tupleset cu : string) (onr : ObjectAndRelation)
  (tuplesetDirectRelations : list RelationReference) :
  forall namespaces requests,
    Forall returns requests ->
    returning
      (ttuLoop cl req typeSystem tupleset cu onr tuplesetDirectRelations
         namespaces requests)
      (fun flow =>
         match flow with
         | Returned f => returns f
         | Fallthrough requests' => Forall returns requests'
         end).
Proof.
  induction tuplesetDirectRelations as [|directRelation rest IH];
    intros namespaces requests Hreq; cbn [ttuLoop].
  - rstep. exact Hreq.
  - destruct (existsb _ namespaces); [now apply IH|].
    rstep. rstep.
    destruct (ReadNamespaceAndTypes _ _) as [[nsdef ts] err].
    destruct err as [e|].
    { rstep. rstep. rstep. unfold returns. rstep. exact I. }
    destruct (negb (HasRelation ts cu)); [now apply IH|].
    apply IH. apply Forall_app. split; [exact Hreq|].
    constructor; [|constructor]. apply ttuRequest_returns.
Qed.

Lemma processTupleToUserset_returns (typeSystem : NamespaceTypeSystem)
  (tupleset cu : string) :
  returnsHandler (processTupleToUserset cl req typeSystem tupleset cu).
Proof.
  unfold returnsHandler, processTupleToUserset. cbv zeta.
  destruct (StackHas (TTUStack req) _).
  { rstep. unfold returns, ResolvedObjectsFn. rstep. exact I. }
  destruct (AllowedDirectRelations _ _) as [rels err].
  destruct err as [e|]; [rstep; unfold returns; rstep; exact I|].
  rstep.
  generalize (@ttuLoop_returns typeSystem tupleset cu
                (stackKey (RefNamespace (StartRelation req))
                   (RefRelation (StartRelation req)))
                rels [] [] (Forall_nil _)).
  apply returning_mono. intros [f|requests] Hflow.
  - rstep. exact Hflow.
  - destruct (length requests =? 0)%nat; rstep.
    + unfold returns, ResolvedObjectsFn. rstep. exact I.
    + now apply LookupAny_returns.
Qed.

Lemma processChildren_returns
  (rec : UsersetRewrite -> M ReduceableLookupFunc)
  (typeSystem : NamespaceTypeSystem) (reducer : LookupReducer)
  (Pre : list ReduceableLookupFunc -> Prop)
  (children : list SetOperationChild) :
  (forall requests,
      Pre requests -> Forall returns requests ->
      returns (reducer (Limit req) requests)) ->
  (forall requests r, Pre (requests ++ [r])) ->
  (forall rewrite,
      In (Child_UsersetRewrite rewrite) children ->
      returnsHandler (rec rewrite)) ->
  forall requests,
    Pre requests \/ children <> [] ->
    Forall returns requests ->
    returnsHandler
      (processChildren cl rec req typeSystem children reducer requests).
Proof.
  intros Hreducer Hpre. induction children as [|child rest IH];
    intros Hrec requests Hstart Hreq; cbn [processChildren].
  - unfold returnsHandler. rstep. apply Hreducer; [|exact Hreq].
    destruct Hstart as [Hstart|Hstart]; [exact Hstart | contradiction].
  - assert (Hstep : forall m : M ReduceableLookupFunc,
              returnsHandler m ->
              returnsHandler
                (r <- m ;;
                 processChildren cl rec req typeSystem rest reducer
                   (requests ++ [r]))).
    { intros m Hm. unfold returnsHandler. rstep. revert Hm.
      unfold returnsHandler at 1. apply returning_mono. intros r Hr.
      apply IH.
      - intros rewrite Hin. apply Hrec. now right.
      - left. apply Hpre.
      - apply Forall_app. split; [exact Hreq|]. now repeat constructor. }
    destruct child as [|cu|rewrite|tupleset cu|].
    + apply Hstep, lookupDirect_returns.
    + apply Hstep, lookupComputed_returns.
    + apply Hstep, Hrec. now left.
    + apply Hstep, processTupleToUserset_returns.
    + unfold returnsHandler. rstep. unfold returns. rstep. exact I.
Qed.

Lemma processRewrite_returns (typeSystem : NamespaceTypeSystem)
  (usr : UsersetRewrite) :
  exclusionsHaveBase usr ->
  returnsHandler (processRewrite arrival cl req typeSystem usr).
Proof.
  induction 1 as [so _ IH|so _ IH|so Hne _ IH|]; cbn [processRewrite].
  - apply processChildren_returns with (Pre := fun _ => True); auto.
    intros requests _. now apply LookupAny_returns.
  - apply processChildren_returns with (Pre := fun _ => True); auto.
    intros requests _. apply LookupAll_returns.
  - apply processChildren_returns with (Pre := fun requests => requests <> []);
      auto.
    + intros requests Hrequests. now apply LookupExclude_returns.
    + intros requests r Hnil. now destruct requests.
  - unfold returnsHandler. rstep. unfold returns. rstep. exact I.
Qed.

Hypothesis closure_succeeds :
  forall sub, closureRequestOf req sub -> succeeded (Lookup (cl_d cl) sub).

Lemma closureLoop_returns (err : option error) (fuel : nat) :
  forall objSet toCheck : ONRSet,
    (closureMeasure req objSet toCheck < fuel)%nat ->
    returning (closureLoop cl fuel req err objSet toCheck)
      (fun flow => exists os, flow = Fallthrough os).
Proof.
  induction fuel as [|fuel IH]; intros objSet toCheck Hfuel; [lia|].
  cbn [closureLoop].
  destruct (Z.eqb_spec (Length toCheck) 0) as [Hempty|Hnonempty];
    cbn [orb]; [rstep; eauto|].
  destruct (Z.geb_spec (Length objSet) (Limit req)) as [Hfull|Hroom];
    [rstep; eauto|].
  set (targets := filter (fun obj => negb (isTarget req obj))
                    (AsSlice toCheck)).
  destruct (length _ =? 0)%nat; [rstep; eauto|].
  rstep.
  assert (Hoks : Forall succeeded
                   (map (fun obj =>
                           Lookup (cl_d cl)
                             (closureLookupRequest req objSet obj))
                      targets)).
  { rewrite Forall_map. apply Forall_forall. intros t Ht.
    apply closure_succeeds. exists objSet, t.
    split; [lia|]. split; [|reflexivity].
    apply filter_In in Ht. now apply negb_true_iff. }
  pose proof (runAll_dispatches cl (closureLookupRequest req objSet) targets)
    as Hall.
  cbv beta in Hall.
  rewrite (@LookupAny_of_results (Limit req) _ _ _ _ Hall
             (@anyLoop_prefix (Limit req) _ limit_nonneg Hoks NewONRSet)).
  unfold returning. cbn [Err resultObjects].
  destruct (addNew _ objSet NewONRSet) as [os tc] eqn:ENew.
  pose proof (addNew_length _ _ _ ENew) as [Hlen1 Hlen2].
  apply IH.
  unfold closureMeasure, Length in *. simpl in Hlen2.
  destruct toCheck; [simpl in Hnonempty; lia|].
  destruct tc; simpl in *; lia.
Qed.

Lemma lookup_returns :
  (forall relation rewrite,
      findRelation
        (fst (fst (ReadNamespaceAndTypes (cl_nsm cl)
                     (RefNamespace (StartRelation req)))))
        (RefRelation (StartRelation req)) = Some relation ->
      UsersetRewriteOf relation = Some rewrite ->
      exclusionsHaveBase rewrite) ->
  returning (lookup arrival cl req) (fun f => exists res, f = ret res).
Proof.
  intros Hbase. unfold lookup. cbv zeta. rstep. rstep.
  destruct (ReadNamespaceAndTypes _ _) as [[nsdef typeSystem] err].
  cbn [fst] in Hbase.
  destruct err as [e|]; [rstep; eauto|].
  destruct (findRelation _ _) as [relation|]; [|rstep; eauto].
  rstep.
  assert (Hhandler :
            returnsHandler
              match UsersetRewriteOf relation with
              | Some rewrite => processRewrite arrival cl req typeSystem rewrite
              | None => lookupDirect cl req typeSystem
              end).
  { destruct (UsersetRewriteOf relation) as [rewrite|] eqn:ERewrite.
    - apply processRewrite_returns. now apply (Hbase relation).
    - apply lookupDirect_returns. }
  revert Hhandler. unfold returnsHandler. apply returning_mono.
  intros request Hrequest. rstep.
  assert (Hany : returns (LookupAny (Limit req) [request])).
  { apply LookupAny_returns; [exact limit_nonneg|]. now repeat constructor. }
  revert Hany. apply returning_mono. intros result _.
  destruct (Err result) as [e|]; [rstep; eauto|].
  rstep.
  apply returning_mono
    with (Phi := fun flow : Flow ONRSet => exists os, flow = Fallthrough os).
  - intros flow [os ->].
    rewrite (limitedSlice_nonneg _ limit_nonneg). rstep.
    unfold ResolvedObjectsFn. eauto.
  - apply closureLoop_returns, closureFuel_enough.
Qed.

End ReturningHandlers.

(** X18. [lookup] returns a result, without a panic, when the limit of
    the request is not negative, every exclusion of the rewrite of the
    start relation has a child, and the dispatcher succeeds on the
    sub-requests of the closure loop.  The result may be an error: the
    errors of the namespace manager, of the datastore and of the
    sub-requests of the handlers are returned as results. *)
Theorem X18_lookup_returns
  (arrival : forall A : Type, list A -> list A) (cl : concurrentLookup)
  (req : LookupRequest) :
  0 <= Limit req ->
  (forall relation rewrite,
      findRelation
        (fst (fst (ReadNamespaceAndTypes (cl_nsm cl)
                     (RefNamespace (StartRelation req)))))
        (RefRelation (StartRelation req)) = Some relation ->
      UsersetRewriteOf relation = Some rewrite ->
      exclusionsHaveBase rewrite) ->
  (forall sub,
      closureRequestOf req sub -> succeeded (Lookup (cl_d cl) sub)) ->
  exists res evs, lookup arrival cl req = Done (ret res) evs.
Proof.
  intros Hlimit Hbase Hclosure.
  destruct (@returning_Done _ _ _
              (@lookup_returns arrival cl req Hlimit Hclosure Hbase))
    as [f [evs [Hrun [res ->]]]].
  now exists res, evs.
Qed.

Lemma X18_lookup_returns_witness :
  exists res evs,
    lookup Fixture.inOrder Fixture.cl Fixture.reqRead = Done (ret res) evs.
Proof.
  apply (@X18_lookup_returns Fixture.inOrder Fixture.cl Fixture.reqRead).
  - discriminate.
  - intros relation rewrite Hfind Hrewrite. vm_compute in Hfind.
    injection Hfind as <-. vm_compute in Hrewrite. injection Hrewrite as <-.
    constructor. intros rewrite [Hin|[Hin|[]]]; discriminate.
  - intros sub _. unfold succeeded. cbn.
    destruct (Fixture.isRequest "folder" "read" sub); [reflexivity|].
    destruct (Fixture.isRequest "document" "viewer" sub); reflexivity.
Defined.
